(** * Rocket NPU job engine: a shallow embedding of drivers/accel/rocket/rocket_job.c

    The driver code is embedded as executable functions over an explicit
    kernel state ([world]): the cores of the device, the heap of
    [rocket_job] objects, the heap of [dma_fence] objects, the per-buffer
    reservation records and a chronological trace of the effects the code
    has on the hardware and on the surrounding kernel services (register
    writes, runtime-PM calls, IOMMU attach/detach, fence signals).

    Pointers are natural numbers; a [rocket_job *] is a key of the job heap,
    a [dma_fence *] a key of the fence heap, a [rocket_core *] an index in
    the device's core array.  Dereferencing a pointer that is not mapped is
    a kernel oops, modelled by the failure of the state monad [M]. *)

From stdpp Require Import gmap list.
From Stdlib Require Import ZArith Lia.

#[local] Open Scope Z_scope.

(** ** Machine integers and error numbers *)

Definition u32 (x : Z) : Z := x mod 2 ^ 32.
Definition u64 (x : Z) : Z := x mod 2 ^ 64.

Definition ENOENT : Z := 2.
Definition EINTR : Z := 4.
Definition ENOMEM : Z := 12.
Definition EFAULT : Z := 14.
Definition EINVAL : Z := 22.
Definition ECANCELED : Z := 125.

Definition JOB_TIMEOUT_MS : Z := 500.

(** Kernel object identities. *)
Definition ptr : Type := nat.

(** ** Hardware registers

    The three register blocks of a core and the registers the job code
    touches.  The bit encodings of rocket_registers.h are not among the
    sources, so the value written to a register is either a literal or a
    disjunction of named bits. *)

Inductive reg_block := PC | CNA | CORE.

Inductive reg :=
| BASE_ADDRESS | S_POINTER | REGISTER_AMOUNTS | INTERRUPT_MASK
| INTERRUPT_CLEAR | INTERRUPT_STATUS | INTERRUPT_RAW_STATUS
| TASK_CON | TASK_DMA_BASE_ADDR | OPERATION_ENABLE.

Inductive pc_bit :=
| PC_INTERRUPT_MASK_DPU_0 | PC_INTERRUPT_MASK_DPU_1
| PC_INTERRUPT_CLEAR_DPU_0 | PC_INTERRUPT_CLEAR_DPU_1.

Inductive regval :=
| Lit (v : Z)
| Bits (bs : list pc_bit).

Inductive pm_op :=
| pm_runtime_get_sync | pm_runtime_put_autosuspend | pm_runtime_put_noidle
| pm_runtime_mark_last_busy | pm_runtime_force_suspend | pm_runtime_force_resume.

Inductive sched_op :=
| drm_sched_stop_op | drm_sched_increase_karma_op (bad : ptr)
| drm_sched_resubmit_jobs_op | drm_sched_start_op.

(** Effects visible outside the job code, in program order. *)
Inductive event :=
| EvWritel (core : nat) (b : reg_block) (r : reg) (v : regval)
| EvReadl (core : nat) (b : reg_block) (r : reg)
| EvFenceSignal (f : ptr)
| EvIommuAttach (domain : Z) (core : nat)
| EvIommuDetach (core : nat)
| EvPm (core : nat) (op : pm_op)
| EvSynchronizeIrq (core : nat)
| EvSched (core : nat) (op : sched_op).

#[global] Instance reg_block_eq_dec : EqDecision reg_block.
Proof. solve_decision. Defined.
#[global] Instance reg_eq_dec : EqDecision reg.
Proof. solve_decision. Defined.
#[global] Instance pc_bit_eq_dec : EqDecision pc_bit.
Proof. solve_decision. Defined.
#[global] Instance regval_eq_dec : EqDecision regval.
Proof. solve_decision. Defined.
#[global] Instance pm_op_eq_dec : EqDecision pm_op.
Proof. solve_decision. Defined.
#[global] Instance sched_op_eq_dec : EqDecision sched_op.
Proof. solve_decision. Defined.
#[global] Instance event_eq_dec : EqDecision event.
Proof. solve_decision. Defined.

(** ** Data model *)

(** [struct dma_fence]: the fields the job code depends on. *)
Record dma_fence := mk_fence {
  f_context : Z;
  f_seqno : Z;
  f_signaled : bool;
  f_error : Z;
}.

(** [struct rocket_task]. *)
Record rocket_task := mk_task {
  regcmd : Z;
  regcmd_count : Z;
}.

(** [struct rocket_job], with the fields of the embedded [drm_sched_job]
    the driver reads: the scheduler the job was armed on ([base.sched]),
    its finished fence ([base.s_fence->finished]), the dependencies the
    scheduler waits for and its karma. *)
Record rocket_job := mk_job {
  tasks : list rocket_task;
  task_count : Z;
  next_task_idx : Z;
  in_bos : list ptr;
  out_bos : list ptr;
  domain : Z;
  done_fence : option ptr;
  inference_done_fence : option ptr;
  refcount : Z;
  base_sched : nat;
  s_fence_finished : option ptr;
  dependencies : list ptr;
  karma : Z;
}.

(** [struct drm_gpu_scheduler], as far as the job code drives it. *)
Record drm_gpu_scheduler := mk_sched {
  sched_queue : list ptr;
  pending_list : list ptr;
  sched_stopped : bool;
}.

(** [struct rocket_core].  [irq_thread_pending] stands for the threaded
    interrupt handler having been woken by the top half and not yet run. *)
Record rocket_core := mk_core {
  in_flight_job : option ptr;
  reset_pending : bool;
  fence_context : Z;
  emit_seqno : Z;
  irq_thread_pending : bool;
  sched : drm_gpu_scheduler;
}.

(** The fence history a buffer object carries ([bo->resv]). *)
Record dma_resv := mk_resv {
  resv_writer : option ptr;
  resv_readers : list ptr;
}.

Record world := mk_world {
  cores : list rocket_core;
  jobs : gmap ptr rocket_job;
  fences : gmap ptr dma_fence;
  resvs : gmap ptr dma_resv;
  next_ptr : ptr;
  rr_next : nat;
  env_fail : list bool;
  trace : list event;
}.

(** ** The state monad of kernel code *)

Definition M (A : Type) : Type := world → option (A * world).

#[global] Instance M_ret : MRet M := λ A x w, Some (x, w).
#[global] Instance M_bind : MBind M :=
  λ A B f m w, match m w with Some (x, w') => f x w' | None => None end.

Definition oops {A} : M A := λ _, None.
Definition get : M world := λ w, Some (w, w).
Definition put (w : world) : M unit := λ _, Some (tt, w).
Definition modify (f : world → world) : M unit := λ w, Some (tt, f w).
Definition deref {A} (o : option A) : M A :=
  match o with Some x => mret x | None => oops end.

Definition set_cores (f : list rocket_core → list rocket_core) (w : world) : world :=
  mk_world (f (cores w)) (jobs w) (fences w) (resvs w) (next_ptr w)
           (rr_next w) (env_fail w) (trace w).
Definition set_jobs (f : gmap ptr rocket_job → gmap ptr rocket_job) (w : world) : world :=
  mk_world (cores w) (f (jobs w)) (fences w) (resvs w) (next_ptr w)
           (rr_next w) (env_fail w) (trace w).
Definition set_fences (f : gmap ptr dma_fence → gmap ptr dma_fence) (w : world) : world :=
  mk_world (cores w) (jobs w) (f (fences w)) (resvs w) (next_ptr w)
           (rr_next w) (env_fail w) (trace w).
Definition set_resvs (f : gmap ptr dma_resv → gmap ptr dma_resv) (w : world) : world :=
  mk_world (cores w) (jobs w) (fences w) (f (resvs w)) (next_ptr w)
           (rr_next w) (env_fail w) (trace w).
Definition set_next_ptr (n : ptr) (w : world) : world :=
  mk_world (cores w) (jobs w) (fences w) (resvs w) n
           (rr_next w) (env_fail w) (trace w).
Definition set_rr_next (n : nat) (w : world) : world :=
  mk_world (cores w) (jobs w) (fences w) (resvs w) (next_ptr w)
           n (env_fail w) (trace w).
Definition set_env_fail (l : list bool) (w : world) : world :=
  mk_world (cores w) (jobs w) (fences w) (resvs w) (next_ptr w)
           (rr_next w) l (trace w).
Definition set_trace (f : list event → list event) (w : world) : world :=
  mk_world (cores w) (jobs w) (fences w) (resvs w) (next_ptr w)
           (rr_next w) (env_fail w) (f (trace w)).

Definition add_events (l : list event) (w : world) : world :=
  set_trace (λ t, t ++ l) w.
Definition emit (e : event) : M unit := modify (add_events [e]).

Definition get_core (core : nat) : M rocket_core := λ w, deref (cores w !! core) w.
Definition put_core (core : nat) (c : rocket_core) : M unit :=
  modify (set_cores (λ cs, <[core := c]> cs)).
Definition get_job (job : ptr) : M rocket_job := λ w, deref (jobs w !! job) w.
Definition put_job (job : ptr) (j : rocket_job) : M unit :=
  modify (set_jobs (λ js, <[job := j]> js)).
Definition get_fence (f : ptr) : M dma_fence := λ w, deref (fences w !! f) w.
Definition put_fence (f : ptr) (d : dma_fence) : M unit :=
  modify (set_fences (λ fs, <[f := d]> fs)).

(** Fallible services of the surrounding kernel (allocation, runtime PM,
    IOMMU attach, reservation locking) take their outcome from the failure
    schedule [env_fail]: each call consumes one entry, [true] makes the
    call fail, and an exhausted schedule means success. *)
Definition env_fails : M bool := λ w,
  match env_fail w with
  | [] => Some (false, w)
  | b :: l => Some (b, set_env_fail l w)
  end.

(** [kzalloc] of an object the model keeps track of: a fresh identity, or
    NULL. *)
Definition kalloc : M (option ptr) :=
  failed ← env_fails;
  if failed : bool then mret None
  else w ← get; modify (set_next_ptr (S (next_ptr w))) ;; mret (Some (next_ptr w)).

(** [kvmalloc_array] of a plain buffer of [n] elements: [true] when the
    buffer was obtained.  A request for no element never fails (the
    allocator hands out its zero-size token). *)
Definition kvmalloc_array (n : Z) : M bool :=
  if bool_decide (n = 0) then mret true
  else failed ← env_fails; mret (negb failed).

(** ** Field updates *)

Definition job_with_next_task_idx (n : Z) (j : rocket_job) : rocket_job :=
  mk_job (tasks j) (task_count j) n (in_bos j) (out_bos j) (domain j)
         (done_fence j) (inference_done_fence j) (refcount j) (base_sched j)
         (s_fence_finished j) (dependencies j) (karma j).
Definition job_with_done_fence (f : option ptr) (j : rocket_job) : rocket_job :=
  mk_job (tasks j) (task_count j) (next_task_idx j) (in_bos j) (out_bos j) (domain j)
         f (inference_done_fence j) (refcount j) (base_sched j)
         (s_fence_finished j) (dependencies j) (karma j).
Definition job_with_inference_done_fence (f : option ptr) (j : rocket_job) : rocket_job :=
  mk_job (tasks j) (task_count j) (next_task_idx j) (in_bos j) (out_bos j) (domain j)
         (done_fence j) f (refcount j) (base_sched j)
         (s_fence_finished j) (dependencies j) (karma j).
Definition job_with_refcount (n : Z) (j : rocket_job) : rocket_job :=
  mk_job (tasks j) (task_count j) (next_task_idx j) (in_bos j) (out_bos j) (domain j)
         (done_fence j) (inference_done_fence j) n (base_sched j)
         (s_fence_finished j) (dependencies j) (karma j).
Definition job_with_base_sched (s : nat) (j : rocket_job) : rocket_job :=
  mk_job (tasks j) (task_count j) (next_task_idx j) (in_bos j) (out_bos j) (domain j)
         (done_fence j) (inference_done_fence j) (refcount j) s
         (s_fence_finished j) (dependencies j) (karma j).
Definition job_with_dependencies (d : list ptr) (j : rocket_job) : rocket_job :=
  mk_job (tasks j) (task_count j) (next_task_idx j) (in_bos j) (out_bos j) (domain j)
         (done_fence j) (inference_done_fence j) (refcount j) (base_sched j)
         (s_fence_finished j) d (karma j).
Definition job_with_karma (k : Z) (j : rocket_job) : rocket_job :=
  mk_job (tasks j) (task_count j) (next_task_idx j) (in_bos j) (out_bos j) (domain j)
         (done_fence j) (inference_done_fence j) (refcount j) (base_sched j)
         (s_fence_finished j) (dependencies j) k.

Definition core_with_in_flight_job (j : option ptr) (c : rocket_core) : rocket_core :=
  mk_core j (reset_pending c) (fence_context c) (emit_seqno c)
          (irq_thread_pending c) (sched c).
Definition core_with_reset_pending (b : bool) (c : rocket_core) : rocket_core :=
  mk_core (in_flight_job c) b (fence_context c) (emit_seqno c)
          (irq_thread_pending c) (sched c).
Definition core_with_emit_seqno (n : Z) (c : rocket_core) : rocket_core :=
  mk_core (in_flight_job c) (reset_pending c) (fence_context c) n
          (irq_thread_pending c) (sched c).
Definition core_with_irq_thread_pending (b : bool) (c : rocket_core) : rocket_core :=
  mk_core (in_flight_job c) (reset_pending c) (fence_context c) (emit_seqno c)
          b (sched c).
Definition core_with_sched (s : drm_gpu_scheduler) (c : rocket_core) : rocket_core :=
  mk_core (in_flight_job c) (reset_pending c) (fence_context c) (emit_seqno c)
          (irq_thread_pending c) s.

Definition fence_with_signaled (b : bool) (d : dma_fence) : dma_fence :=
  mk_fence (f_context d) (f_seqno d) b (f_error d).
Definition fence_with_error (e : Z) (d : dma_fence) : dma_fence :=
  mk_fence (f_context d) (f_seqno d) (f_signaled d) e.

(** ** Register access and fences *)

Definition rocket_pc_writel (core : nat) (r : reg) (v : regval) : M unit :=
  emit (EvWritel core PC r v).
Definition rocket_cna_writel (core : nat) (r : reg) (v : regval) : M unit :=
  emit (EvWritel core CNA r v).
Definition rocket_core_writel (core : nat) (r : reg) (v : regval) : M unit :=
  emit (EvWritel core CORE r v).
Definition rocket_pc_readl (core : nat) (r : reg) : M unit :=
  emit (EvReadl core PC r).

(** Modelled from the spec: [dma_fence_signal_locked] (dma-fence.c is not
    among the sources).  Signalling marks the fence signaled and wakes its
    waiters; signalling a fence that is already signaled fails and is
    otherwise a no-op. *)
Definition dma_fence_signal_locked (f : ptr) : M Z :=
  d ← get_fence f;
  if f_signaled d then mret (- EINVAL)
  else
    put_fence f (fence_with_signaled true d) ;;
    emit (EvFenceSignal f) ;;
    mret 0.

(** Modelled from the spec: [dma_fence_is_signaled], the non-blocking poll. *)
Definition dma_fence_is_signaled (f : ptr) : M bool :=
  d ← get_fence f; mret (f_signaled d).

(** An [ERR_PTR]-style result: NULL, an encoded error, or an object. *)
Inductive fence_ptr :=
| FenceNull
| FenceErr (e : Z)
| Fence (f : ptr).

Definition rocket_fence_create (core : nat) : M fence_ptr :=
  p ← kalloc;
  match p with
  | None => mret (FenceErr (- ENOMEM))
  | Some fence =>
      c ← get_core core;
      let seqno := u64 (emit_seqno c + 1) in
      put_core core (core_with_emit_seqno seqno c) ;;
      put_fence fence (mk_fence (fence_context c) seqno false 0) ;;
      mret (Fence fence)
  end.

(** ** Dispatch *)

Definition rocket_job_hw_submit (core : nat) (job : ptr) : M unit :=
  c ← get_core core;
  (* Don't queue the job if a reset is in progress *)
  if reset_pending c then mret tt
  else
    j ← get_job job;
    task ← deref (tasks j !! Z.to_nat (next_task_idx j));
    put_job job (job_with_next_task_idx (u32 (next_task_idx j + 1)) j) ;;
    rocket_pc_writel core BASE_ADDRESS (Lit 1) ;;
    rocket_cna_writel core S_POINTER (Lit (u32 (14 + 268435456 * Z.of_nat core))) ;;
    rocket_core_writel core S_POINTER (Lit (u32 (14 + 268435456 * Z.of_nat core))) ;;
    rocket_pc_writel core BASE_ADDRESS (Lit (u32 (regcmd task))) ;;
    rocket_pc_writel core REGISTER_AMOUNTS
                     (Lit (u32 (u32 (regcmd_count task + 1) / 2 - 1))) ;;
    rocket_pc_writel core INTERRUPT_MASK
                     (Bits [PC_INTERRUPT_MASK_DPU_0; PC_INTERRUPT_MASK_DPU_1]) ;;
    rocket_pc_writel core INTERRUPT_CLEAR
                     (Bits [PC_INTERRUPT_CLEAR_DPU_0; PC_INTERRUPT_CLEAR_DPU_1]) ;;
    rocket_pc_writel core TASK_CON (Lit (Z.lor (Z.shiftl (Z.lor 6 1) 12) 1)) ;;
    rocket_pc_writel core TASK_DMA_BASE_ADDR (Lit 0) ;;
    rocket_pc_writel core OPERATION_ENABLE (Lit 1).

(** The scheduler of core [i] is embedded in [rdev->cores[i]], so a
    scheduler pointer is the index of its core and the search over the core
    array finds it exactly when the index is in range. *)
Definition sched_to_core (w : world) (sched : nat) : option nat :=
  if decide (sched < length (cores w))%nat then Some sched else None.

Definition rocket_job_run (job : ptr) : M fence_ptr :=
  j ← get_job job;
  w ← get;
  let core := sched_to_core w (base_sched j) in
  finished ← deref (s_fence_finished j) ≫= get_fence;
  if bool_decide (f_error finished ≠ 0) then mret FenceNull
  else if bool_decide (next_task_idx j = task_count j) then
    (* Nothing to execute: can happen if the job has finished while we were
       resetting the GPU. *)
    mret FenceNull
  else
    core ← deref core;
    r ← rocket_fence_create core;
    match r with
    | Fence fence =>
        put_job job (job_with_done_fence (Some fence) j) ;;
        emit (EvPm core pm_runtime_get_sync) ;;
        failed ← env_fails;
        if failed : bool then mret (Fence fence)
        else
          emit (EvIommuAttach (domain j) core) ;;
          failed ← env_fails;
          if failed : bool then mret (Fence fence)
          else
            c ← get_core core;
            put_core core (core_with_in_flight_job (Some job) c) ;;
            rocket_job_hw_submit core job ;;
            mret (Fence fence)
    | r => mret r
    end.

(** ** Completion *)

Definition rocket_job_handle_done (core : nat) (job : ptr) : M unit :=
  j ← get_job job;
  if bool_decide (next_task_idx j < task_count j) then
    rocket_job_hw_submit core job
  else
    c ← get_core core;
    put_core core (core_with_in_flight_job None c) ;;
    emit (EvIommuDetach core) ;;
    fence ← deref (done_fence j);
    dma_fence_signal_locked fence ;;
    emit (EvPm core pm_runtime_put_autosuspend).

Definition rocket_job_handle_irq (core : nat) : M unit :=
  emit (EvPm core pm_runtime_mark_last_busy) ;;
  rocket_pc_readl core INTERRUPT_STATUS ;;
  rocket_pc_readl core INTERRUPT_RAW_STATUS ;;
  rocket_pc_writel core OPERATION_ENABLE (Lit 0) ;;
  rocket_pc_writel core INTERRUPT_CLEAR (Lit 131071) ;;
  c ← get_core core;
  match in_flight_job c with
  | Some job => rocket_job_handle_done core job
  | None => mret tt
  end.

(** ** Interrupt plumbing *)

Inductive irqreturn := IRQ_NONE | IRQ_HANDLED | IRQ_WAKE_THREAD.

Definition rocket_job_irq_handler_thread (core : nat) : M irqreturn :=
  rocket_job_handle_irq core ;;
  mret IRQ_HANDLED.

(** The top half; [dpu_0] and [dpu_1] are the two completion bits of the
    raw status word it reads. *)
Definition rocket_job_irq_handler (core : nat) (dpu_0 dpu_1 : bool) : M irqreturn :=
  rocket_pc_readl core INTERRUPT_RAW_STATUS ;;
  if negb (dpu_0 || dpu_1) then mret IRQ_NONE
  else
    rocket_pc_writel core INTERRUPT_MASK (Lit 0) ;;
    mret IRQ_WAKE_THREAD.

(** The interrupt line fires: the top half runs, and the threaded handler
    is woken when it asks for it. *)
Definition raise_irq (core : nat) (dpu_0 dpu_1 : bool) : M unit :=
  r ← rocket_job_irq_handler core dpu_0 dpu_1;
  match r with
  | IRQ_WAKE_THREAD =>
      c ← get_core core;
      put_core core (core_with_irq_thread_pending true c)
  | _ => mret tt
  end.

(** The woken threaded handler gets to run. *)
Definition run_irq_thread (core : nat) : M unit :=
  c ← get_core core;
  if irq_thread_pending c then
    put_core core (core_with_irq_thread_pending false c) ;;
    rocket_job_irq_handler_thread core ;;
    mret tt
  else mret tt.

(** [synchronize_irq] returns once every handler of the line that was
    already under way, the threaded one included, has finished. *)
Definition synchronize_irq (core : nat) : M unit :=
  emit (EvSynchronizeIrq core) ;;
  run_irq_thread core.

(** ** The scheduler services used by the reset path *)

Definition sched_with_queue (q : list ptr) (s : drm_gpu_scheduler) : drm_gpu_scheduler :=
  mk_sched q (pending_list s) (sched_stopped s).
Definition sched_with_pending_list (p : list ptr) (s : drm_gpu_scheduler) : drm_gpu_scheduler :=
  mk_sched (sched_queue s) p (sched_stopped s).
Definition sched_with_stopped (b : bool) (s : drm_gpu_scheduler) : drm_gpu_scheduler :=
  mk_sched (sched_queue s) (pending_list s) b.

(** Modelled from the spec: [drm_sched_stop] (sched_main.c is not among
    the sources): the core stops accepting new dispatches. *)
Definition drm_sched_stop (core : nat) (bad : option ptr) : M unit :=
  c ← get_core core;
  put_core core (core_with_sched (sched_with_stopped true (sched c)) c) ;;
  emit (EvSched core drm_sched_stop_op).

(** Modelled from the spec: [drm_sched_increase_karma]: the hung job is
    marked as having increased failure weight. *)
Definition drm_sched_increase_karma (core : nat) (bad : ptr) : M unit :=
  j ← get_job bad;
  put_job bad (job_with_karma (karma j + 1) j) ;;
  emit (EvSched core (drm_sched_increase_karma_op bad)).

(** Modelled from the spec: [drm_sched_resubmit_jobs]: the jobs that were
    handed to the core and have not finished are resubmitted to the
    scheduler, ahead of the jobs still waiting; the job objects, and so
    their progress cursors, are left as they are. *)
Definition drm_sched_resubmit_jobs (core : nat) : M unit :=
  c ← get_core core;
  let s := sched c in
  put_core core
    (core_with_sched
       (sched_with_pending_list [] (sched_with_queue (pending_list s ++ sched_queue s) s)) c) ;;
  emit (EvSched core drm_sched_resubmit_jobs_op).

(** Modelled from the spec: [drm_sched_start]: dispatch is restarted. *)
Definition drm_sched_start (core : nat) : M unit :=
  c ← get_core core;
  put_core core (core_with_sched (sched_with_stopped false (sched c)) c) ;;
  emit (EvSched core drm_sched_start_op).

(** ** Reset and timeout *)

Definition rocket_reset (core : nat) (bad : option ptr) : M unit :=
  c ← get_core core;
  if negb (reset_pending c) then mret tt
  else
    (* Stop the scheduler. *)
    drm_sched_stop core bad ;;
    match bad with
    | Some b => drm_sched_increase_karma core b
    | None => mret tt
    end ;;
    (* Mask job interrupts and synchronize to make sure we won't be
       interrupted during our reset. *)
    rocket_pc_writel core INTERRUPT_MASK (Lit 0) ;;
    synchronize_irq core ;;
    (* Handle the remaining interrupts before we reset. *)
    rocket_job_handle_irq core ;;
    c ← get_core core;
    match in_flight_job c with
    | Some _ => emit (EvPm core pm_runtime_put_noidle)
    | None => mret tt
    end ;;
    put_core core (core_with_in_flight_job None c) ;;
    (* Proceed with reset now. *)
    emit (EvPm core pm_runtime_force_suspend) ;;
    emit (EvPm core pm_runtime_force_resume) ;;
    (* GPU has been reset, we can clear the reset pending bit. *)
    c ← get_core core;
    put_core core (core_with_reset_pending false c) ;;
    (* Now resubmit jobs that were previously queued but didn't have a
       chance to finish. *)
    drm_sched_resubmit_jobs core ;;
    (* Restart the scheduler *)
    drm_sched_start core.

Inductive drm_gpu_sched_stat := DRM_GPU_SCHED_STAT_NOMINAL.

Definition rocket_job_timedout (job : ptr) : M drm_gpu_sched_stat :=
  j ← get_job job;
  w ← get;
  let core := sched_to_core w (base_sched j) in
  (* If the GPU managed to complete this jobs fence, the timeout is
     spurious. Bail out. *)
  signaled ← deref (done_fence j) ≫= dma_fence_is_signaled;
  if signaled : bool then mret DRM_GPU_SCHED_STAT_NOMINAL
  else
    core ← deref core;
    synchronize_irq core ;;
    j ← get_job job;
    signaled ← deref (done_fence j) ≫= dma_fence_is_signaled;
    if signaled : bool then mret DRM_GPU_SCHED_STAT_NOMINAL
    else
      c ← get_core core;
      put_core core (core_with_reset_pending true c) ;;
      rocket_reset core (Some job) ;;
      emit (EvIommuDetach core) ;;
      mret DRM_GPU_SCHED_STAT_NOMINAL.

Definition rocket_reset_work (core : nat) : M unit :=
  rocket_reset core None.

(** ** Buffer fence records *)

Inductive dma_resv_usage := DMA_RESV_USAGE_WRITE | DMA_RESV_USAGE_READ.

(** A buffer that has never been touched carries an empty record. *)
Definition resv_of (w : world) (bo : ptr) : dma_resv :=
  default (mk_resv None []) (resvs w !! bo).

Definition dma_resv_reserve_fences (bo : ptr) (num_fences : Z) : M Z :=
  failed ← env_fails;
  mret (if failed : bool then - ENOMEM else 0).

(** Modelled from the spec: the fences a job touching a buffer has to wait
    for (dma-resv.c and sched_main.c are not among the sources): the prior
    writer fence of a buffer it reads, and the prior writer fence plus all
    prior reader fences of a buffer it writes. *)
Definition implicit_fences (r : dma_resv) (write : bool) : list ptr :=
  option_list (resv_writer r) ++ (if write then resv_readers r else []).

(** Modelled from the spec: [drm_sched_job_add_implicit_dependencies]
    records those fences as dependencies of the job. *)
Definition drm_sched_job_add_implicit_dependencies
    (job : ptr) (bo : ptr) (write : bool) : M Z :=
  failed ← env_fails;
  if failed : bool then mret (- ENOMEM)
  else
    j ← get_job job;
    w ← get;
    put_job job (job_with_dependencies
                   (dependencies j ++ implicit_fences (resv_of w bo) write) j) ;;
    mret 0.

(** Modelled from the spec: [dma_resv_add_fence].  A fence added as writer
    replaces the prior writer fence and clears the reader-fence set of the
    buffer; a fence added as reader joins the reader-fence set and leaves
    the writer fence alone. *)
Definition dma_resv_add_fence (bo : ptr) (fence : ptr) (usage : dma_resv_usage) : M unit :=
  w ← get;
  let r := resv_of w bo in
  modify (set_resvs (λ rs,
    <[bo := match usage with
            | DMA_RESV_USAGE_WRITE => mk_resv (Some fence) []
            | DMA_RESV_USAGE_READ => mk_resv (resv_writer r) (resv_readers r ++ [fence])
            end]> rs)).

Fixpoint rocket_acquire_object_fences (bos : list ptr) (job : ptr) (is_write : bool) : M Z :=
  match bos with
  | [] => mret 0
  | bo :: bos =>
      ret ← dma_resv_reserve_fences bo 1;
      if bool_decide (ret ≠ 0) then mret ret
      else
        ret ← drm_sched_job_add_implicit_dependencies job bo is_write;
        if bool_decide (ret ≠ 0) then mret ret
        else rocket_acquire_object_fences bos job is_write
  end.

Fixpoint rocket_attach_object_fences (bos : list ptr) (fence : ptr) : M unit :=
  match bos with
  | [] => mret tt
  | bo :: bos =>
      dma_resv_add_fence bo fence DMA_RESV_USAGE_WRITE ;;
      rocket_attach_object_fences bos fence
  end.

(** ** Pushing a job to the scheduler *)

(** Modelled from the spec: [drm_gem_lock_reservations]: exclusive access
    to all the buffers of the job is taken in one go; the attempt may be
    interrupted. *)
Definition drm_gem_lock_reservations (bos : list ptr) : M Z :=
  failed ← env_fails;
  mret (if failed : bool then - EINTR else 0).

(** Modelled from the spec: [drm_sched_job_init] gives the job its
    scheduler fence. *)
Definition drm_sched_job_init (job : ptr) : M Z :=
  p ← kalloc;
  match p with
  | None => mret (- ENOMEM)
  | Some f =>
      put_fence f (mk_fence 0 0 false 0) ;;
      j ← get_job job;
      put_job job
        (mk_job (tasks j) (task_count j) (next_task_idx j) (in_bos j) (out_bos j)
                (domain j) (done_fence j) (inference_done_fence j) (refcount j)
                (base_sched j) (Some f) [] 0) ;;
      mret 0
  end.

(** Modelled from the spec: [drm_sched_job_arm]: the scheduling entity
    round-robins across the cores of the device, and the fence of the job
    is armed unsignaled. *)
Definition drm_sched_job_arm (job : ptr) : M unit :=
  j ← get_job job;
  w ← get;
  f ← deref (s_fence_finished j);
  d ← get_fence f;
  put_fence f (fence_with_signaled false d) ;;
  put_job job (job_with_base_sched (rr_next w `mod` length (cores w))%nat j) ;;
  modify (set_rr_next (S (rr_next w))).

(** Modelled from the spec: [drm_sched_entity_push_job]: the job enters the
    admission queue of the core it was armed on. *)
Definition drm_sched_entity_push_job (job : ptr) : M unit :=
  j ← get_job job;
  c ← get_core (base_sched j);
  put_core (base_sched j)
    (core_with_sched (sched_with_queue (sched_queue (sched c) ++ [job]) (sched c)) c).

(** Modelled from the spec: [drm_sched_job_cleanup] releases the scheduler
    fence of a job that will not run. *)
Definition drm_sched_job_cleanup (job : ptr) : M unit :=
  j ← get_job job;
  match s_fence_finished j with
  | Some f => modify (set_fences (delete f))
  | None => mret tt
  end.

Definition rocket_job_push (job : ptr) : M Z :=
  j ← get_job job;
  let bos := in_bos j ++ out_bos j in
  allocated ← kvmalloc_array (Z.of_nat (length bos));
  (* the buffer is written without a NULL check *)
  if negb allocated then oops
  else
    ret ← drm_gem_lock_reservations bos;
    if bool_decide (ret ≠ 0) then mret ret
    else
      drm_sched_job_arm job ;;
      j ← get_job job;
      put_job job (job_with_inference_done_fence (s_fence_finished j) j) ;;
      ret ← rocket_acquire_object_fences (in_bos j) job false;
      if bool_decide (ret ≠ 0) then mret ret
      else
        ret ← rocket_acquire_object_fences (out_bos j) job true;
        if bool_decide (ret ≠ 0) then mret ret
        else
          j ← get_job job;
          put_job job (job_with_refcount (refcount j + 1) j) ;;
          drm_sched_entity_push_job job ;;
          fence ← deref (inference_done_fence j);
          rocket_attach_object_fences (out_bos j) fence ;;
          mret ret.

Definition rocket_job_cleanup (job : ptr) : M unit :=
  modify (set_jobs (delete job)).

Definition rocket_job_put (job : ptr) : M unit :=
  j ← get_job job;
  if bool_decide (refcount j - 1 = 0) then rocket_job_cleanup job
  else put_job job (job_with_refcount (refcount j - 1) j).

(** ** The submit ioctl *)

(** The user-visible structures of drm/rocket_accel.h, as the job code
    reads them.  Pointer members are user addresses. *)
Module drm_rocket_task.
Record t := mk {
  regcmd : Z;
  regcmd_count : Z;
  reserved : Z;
}.
End drm_rocket_task.

Module drm_rocket_job.
Record t := mk {
  tasks : Z;
  in_bo_handles : Z;
  out_bo_handles : Z;
  task_count : Z;
  in_bo_handle_count : Z;
  out_bo_handle_count : Z;
  reserved : Z;
}.
End drm_rocket_job.

Module drm_rocket_submit.
Record t := mk {
  jobs : Z;
  job_count : Z;
  reserved : Z;
}.
End drm_rocket_submit.

(** The address space of the calling process: the arrays that live at the
    user addresses the structures point to. *)
Record user_mem := mk_user_mem {
  um_tasks : gmap Z (list drm_rocket_task.t);
  um_handles : gmap Z (list Z);
  um_jobs : gmap Z (list drm_rocket_job.t);
}.

(** [struct drm_file] with its driver-private part: the GEM handle table of
    the context, its IOMMU domain, and the memory of its process. *)
Record drm_file := mk_file {
  object_idr : gmap Z ptr;
  file_domain : Z;
  user : user_mem;
}.

(** [copy_from_user] of [n] array elements from user address [p]: [None]
    when part of the range is not readable. *)
Definition copy_from_user {A} (mem : gmap Z (list A)) (p : Z) (n : Z) : option (list A) :=
  if bool_decide (n = 0) then Some []
  else
    match mem !! p with
    | Some arr =>
        if bool_decide (n ≤ Z.of_nat (length arr)) then Some (take (Z.to_nat n) arr)
        else None
    | None => None
    end.

(** Modelled from the spec: [drm_gem_objects_lookup] (drm_gem.c is not
    among the sources) resolves the buffer handles in the caller's context
    and fails when a handle is unknown to it. *)
Definition drm_gem_objects_lookup (file : drm_file) (bo_handles : Z) (count : Z)
  : M (Z + list ptr) :=
  if bool_decide (count = 0) then mret (inr [])
  else
    allocated ← kvmalloc_array count;
    if negb allocated then mret (inl (- ENOMEM))
    else
      match copy_from_user (um_handles (user file)) bo_handles count with
      | None => mret (inl (- EFAULT))
      | Some handles =>
          match mapM (λ h, object_idr file !! h) handles with
          | None => mret (inl (- ENOENT))
          | Some objs => mret (inr objs)
          end
      end.

(** The loop of [rocket_copy_tasks] over the copied-in tasks; [acc] is the
    part of [rjob->tasks] filled so far. *)
Fixpoint copy_tasks_loop (tasks : list drm_rocket_task.t) (acc : list rocket_task)
  : Z * list rocket_task :=
  match tasks with
  | [] => (0, acc)
  | t :: tasks =>
      if bool_decide (drm_rocket_task.reserved t ≠ 0) then (- EINVAL, acc)
      else if bool_decide (drm_rocket_task.regcmd_count t = 0) then (- EINVAL, acc)
      else copy_tasks_loop tasks
             (acc ++ [mk_task (drm_rocket_task.regcmd t) (drm_rocket_task.regcmd_count t)])
  end.

Definition job_with_tasks (l : list rocket_task) (j : rocket_job) : rocket_job :=
  mk_job l (task_count j) (next_task_idx j) (in_bos j) (out_bos j) (domain j)
         (done_fence j) (inference_done_fence j) (refcount j) (base_sched j)
         (s_fence_finished j) (dependencies j) (karma j).
Definition job_with_task_count (n : Z) (j : rocket_job) : rocket_job :=
  mk_job (tasks j) n (next_task_idx j) (in_bos j) (out_bos j) (domain j)
         (done_fence j) (inference_done_fence j) (refcount j) (base_sched j)
         (s_fence_finished j) (dependencies j) (karma j).
Definition job_with_in_bos (l : list ptr) (j : rocket_job) : rocket_job :=
  mk_job (tasks j) (task_count j) (next_task_idx j) l (out_bos j) (domain j)
         (done_fence j) (inference_done_fence j) (refcount j) (base_sched j)
         (s_fence_finished j) (dependencies j) (karma j).
Definition job_with_out_bos (l : list ptr) (j : rocket_job) : rocket_job :=
  mk_job (tasks j) (task_count j) (next_task_idx j) (in_bos j) l (domain j)
         (done_fence j) (inference_done_fence j) (refcount j) (base_sched j)
         (s_fence_finished j) (dependencies j) (karma j).
Definition job_with_domain (d : Z) (j : rocket_job) : rocket_job :=
  mk_job (tasks j) (task_count j) (next_task_idx j) (in_bos j) (out_bos j) d
         (done_fence j) (inference_done_fence j) (refcount j) (base_sched j)
         (s_fence_finished j) (dependencies j) (karma j).

Definition rocket_copy_tasks (file : drm_file) (job : drm_rocket_job.t) (rjob : ptr) : M Z :=
  j ← get_job rjob;
  put_job rjob (job_with_task_count (drm_rocket_job.task_count job) j) ;;
  if bool_decide (drm_rocket_job.task_count job = 0) then mret 0
  else
    allocated ← kvmalloc_array (drm_rocket_job.task_count job);
    if negb allocated then mret (- ENOMEM)
    else
      match copy_from_user (um_tasks (user file)) (drm_rocket_job.tasks job)
                           (drm_rocket_job.task_count job) with
      | None => mret (- EFAULT)
      | Some tasks =>
          allocated ← kvmalloc_array (drm_rocket_job.task_count job);
          if negb allocated then mret (- ENOMEM)
          else
            let '(ret, copied) := copy_tasks_loop tasks [] in
            j ← get_job rjob;
            put_job rjob (job_with_tasks copied j) ;;
            mret ret
      end.

(** A zeroed [rocket_job] whose reference count has been initialised. *)
Definition kzalloc_rocket_job : rocket_job :=
  mk_job [] 0 0 [] [] 0 None None 1 0%nat None [] 0.

(** The exit path of [rocket_ioctl_submit_job] from [out_cleanup_job] on. *)
Definition out_cleanup_job (rjob : ptr) (ret : Z) : M Z :=
  (if bool_decide (ret ≠ 0) then drm_sched_job_cleanup rjob else mret tt) ;;
  rocket_job_put rjob ;;
  mret ret.

Definition rocket_ioctl_submit_job (file : drm_file) (job : drm_rocket_job.t) : M Z :=
  if bool_decide (drm_rocket_job.task_count job = 0) then mret (- EINVAL)
  else
    p ← kalloc;
    match p with
    | None => mret (- ENOMEM)
    | Some rjob =>
        put_job rjob kzalloc_rocket_job ;;
        ret ← drm_sched_job_init rjob;
        if bool_decide (ret ≠ 0) then rocket_job_put rjob ;; mret ret
        else
          ret ← rocket_copy_tasks file job rjob;
          if bool_decide (ret ≠ 0) then out_cleanup_job rjob ret
          else
            r ← drm_gem_objects_lookup file (drm_rocket_job.in_bo_handles job)
                  (drm_rocket_job.in_bo_handle_count job);
            match r with
            | inl ret => out_cleanup_job rjob ret
            | inr bos =>
                j ← get_job rjob;
                put_job rjob (job_with_in_bos bos j) ;;
                r ← drm_gem_objects_lookup file (drm_rocket_job.out_bo_handles job)
                      (drm_rocket_job.out_bo_handle_count job);
                match r with
                | inl ret => out_cleanup_job rjob ret
                | inr bos =>
                    j ← get_job rjob;
                    put_job rjob (job_with_domain (file_domain file) (job_with_out_bos bos j)) ;;
                    ret ← rocket_job_push rjob;
                    out_cleanup_job rjob ret
                end
            end
    end.

(** The loop of [rocket_ioctl_submit] over the copied-in jobs.  The value
    of [rocket_ioctl_submit_job] is not looked at; [ret] is what the ioctl
    returns when the loop runs to its end. *)
Fixpoint submit_jobs_loop (file : drm_file) (jobs : list drm_rocket_job.t) (ret : Z) : M Z :=
  match jobs with
  | [] => mret ret
  | job :: jobs =>
      if bool_decide (drm_rocket_job.reserved job ≠ 0) then mret (- EINVAL)
      else
        rocket_ioctl_submit_job file job ;;
        submit_jobs_loop file jobs ret
  end.

Definition rocket_ioctl_submit (file : drm_file) (args : drm_rocket_submit.t) : M Z :=
  let ret := 0 in
  if bool_decide (drm_rocket_submit.reserved args ≠ 0) then mret (- EINVAL)
  else
    allocated ← kvmalloc_array (drm_rocket_submit.job_count args);
    if negb allocated then mret (- ENOMEM)
    else
      match copy_from_user (um_jobs (user file)) (drm_rocket_submit.jobs args)
                           (drm_rocket_submit.job_count args) with
      | None => mret (- EFAULT)
      | Some jobs => submit_jobs_loop file jobs ret
      end.

(** ** Observations on traces *)

(** The register program [rocket_job_hw_submit] writes for one task. *)
Definition hw_submit_events (core : nat) (task : rocket_task) : list event :=
  [ EvWritel core PC BASE_ADDRESS (Lit 1);
    EvWritel core CNA S_POINTER (Lit (u32 (14 + 268435456 * Z.of_nat core)));
    EvWritel core CORE S_POINTER (Lit (u32 (14 + 268435456 * Z.of_nat core)));
    EvWritel core PC BASE_ADDRESS (Lit (u32 (regcmd task)));
    EvWritel core PC REGISTER_AMOUNTS (Lit (u32 (u32 (regcmd_count task + 1) / 2 - 1)));
    EvWritel core PC INTERRUPT_MASK (Bits [PC_INTERRUPT_MASK_DPU_0; PC_INTERRUPT_MASK_DPU_1]);
    EvWritel core PC INTERRUPT_CLEAR (Bits [PC_INTERRUPT_CLEAR_DPU_0; PC_INTERRUPT_CLEAR_DPU_1]);
    EvWritel core PC TASK_CON (Lit 28673);
    EvWritel core PC TASK_DMA_BASE_ADDR (Lit 0);
    EvWritel core PC OPERATION_ENABLE (Lit 1) ].

(** What [rocket_job_handle_irq] does before it looks at the in-flight slot. *)
Definition handle_irq_events (core : nat) : list event :=
  [ EvPm core pm_runtime_mark_last_busy;
    EvReadl core PC INTERRUPT_STATUS;
    EvReadl core PC INTERRUPT_RAW_STATUS;
    EvWritel core PC OPERATION_ENABLE (Lit 0);
    EvWritel core PC INTERRUPT_CLEAR (Lit 131071) ].

(** A task is issued to the hardware by the write that starts execution. *)
Definition is_task_start (e : event) : bool :=
  match e with
  | EvWritel _ PC OPERATION_ENABLE (Lit 1) => true
  | _ => false
  end.

Definition is_fence_signal (e : event) : bool :=
  match e with
  | EvFenceSignal _ => true
  | _ => false
  end.

Definition task_starts (t : list event) : nat := length (List.filter is_task_start t).

Definition signal_count (f : ptr) (t : list event) : nat :=
  length (List.filter (λ e, bool_decide (e = EvFenceSignal f)) t).

(** The fence is signaled in [w]. *)
Definition fence_signaled (w : world) (f : ptr) : bool :=
  match fences w !! f with
  | Some d => f_signaled d
  | None => false
  end.


(** ** States the properties are stated over *)



(** The state [rocket_job_run] leaves behind when it issues [task], the
    next task of [j], on core [core]. *)
Definition job_run_world (w : world) (job : ptr) (j : rocket_job)
    (core : nat) (c : rocket_core) (task : rocket_task) : world :=
  let fence := next_ptr w in
  let seqno := u64 (emit_seqno c + 1) in
  add_events ([EvPm core pm_runtime_get_sync; EvIommuAttach (domain j) core]
              ++ hw_submit_events core task)
    (set_jobs (insert job (job_with_next_task_idx (u32 (next_task_idx j + 1))
                             (job_with_done_fence (Some fence) j)))
       (set_cores (insert core (core_with_in_flight_job (Some job)
                                  (core_with_emit_seqno seqno c)))
          (set_fences (insert fence (mk_fence (fence_context c) seqno false 0))
             (set_next_ptr (S fence) w)))).

(** ** Example states *)

Definition ex_tasks : list rocket_task := [mk_task 4096 10; mk_task 8192 3].

(** One idle core, and one armed two-task job that has not run yet. *)
Definition ex_job : rocket_job :=
  mk_job ex_tasks 2 0 [] [] 1 None None 1 0%nat (Some 0%nat) [] 0.
Definition ex_core : rocket_core :=
  mk_core None false 7 0 false (mk_sched [] [] false).
Definition ex_world : world :=
  mk_world [ex_core] {[ 10%nat := ex_job ]} {[ 0%nat := mk_fence 0 0 false 0 ]} ∅
           20%nat 0%nat [] [].

(** The same job in flight on the core: [idx] tasks issued, hardware fence
    1 pending, and the reset flag as given. *)
Definition ex_running (idx : Z) (pending : bool) : world :=
  mk_world [mk_core (Some 10%nat) pending 7 1 false (mk_sched [] [10%nat] false)]
           {[ 10%nat := job_with_done_fence (Some 1%nat) (job_with_next_task_idx idx ex_job) ]}
           {[ 0%nat := mk_fence 0 0 false 0; 1%nat := mk_fence 7 1 false 0 ]} ∅
           20%nat 0%nat [] [].

(** ** The operations of the engine, as the surrounding kernel invokes them *)

Inductive op :=
| OpRunJob (job : ptr)                      (* the scheduler calls [run_job] *)
| OpRaiseIrq (core : nat) (dpu_0 dpu_1 : bool) (* the interrupt line fires *)
| OpIrqThread (core : nat)                  (* a woken threaded handler runs *)
| OpHandleIrq (core : nat)                  (* the bottom half runs *)
| OpTimedout (job : ptr)                    (* the scheduler calls [timedout_job] *)
| OpResetWork (core : nat).                 (* the reset work item runs *)

Definition run_op (o : op) : M unit :=
  match o with
  | OpRunJob job => rocket_job_run job ;; mret tt
  | OpRaiseIrq core dpu_0 dpu_1 => raise_irq core dpu_0 dpu_1
  | OpIrqThread core => run_irq_thread core
  | OpHandleIrq core => rocket_job_irq_handler_thread core ;; mret tt
  | OpTimedout job => rocket_job_timedout job ;; mret tt
  | OpResetWork core => rocket_reset_work core
  end.

Fixpoint run_ops (l : list op) : M unit :=
  match l with
  | [] => mret tt
  | o :: l => run_op o ;; run_ops l
  end.

(** Every job has its cursor within its task count, and both are 32-bit
    quantities. *)
Definition jobs_ok (w : world) : Prop :=
  ∀ job j, jobs w !! job = Some j →
    0 ≤ next_task_idx j ≤ task_count j ∧ task_count j < 2 ^ 32.

(** From [w] to [w'] every job is still there with the same tasks, and no
    cursor has moved backwards. *)
Definition advances (w w' : world) : Prop :=
  ∀ job j, jobs w !! job = Some j →
    ∃ j', jobs w' !! job = Some j' ∧ tasks j' = tasks j ∧
          task_count j' = task_count j ∧ next_task_idx j ≤ next_task_idx j'.

(** A computation that keeps the cursor invariant and only advances
    cursors, whenever it returns. *)
Definition keeps_cursors {A} (m : M A) : Prop :=
  ∀ w r w', jobs_ok w → m w = Some (r, w') → jobs_ok w' ∧ advances w w'.

(** The in-flight slot of a core refers to a live job which, once all its
    tasks are issued, has a live hardware fence. *)
Definition slot_ok (w : world) (c : rocket_core) : Prop :=
  match in_flight_job c with
  | None => True
  | Some job =>
      ∃ j, jobs w !! job = Some j ∧
           (next_task_idx j < task_count j ∨
            ∃ f d, done_fence j = Some f ∧ fences w !! f = Some d)
  end.

(** Events of the reset path proper: the power cycle and the calls into
    the scheduler. *)
Definition is_reset_event (e : event) : bool :=
  match e with
  | EvPm _ pm_runtime_force_suspend | EvPm _ pm_runtime_force_resume => true
  | EvSched _ _ => true
  | _ => false
  end.

(** The core once [rocket_reset] is through with it: slot empty, reset flag
    clear, the unfinished jobs back on the queue and the scheduler
    restarted. *)
Definition core_after_reset (c : rocket_core) : rocket_core :=
  mk_core None false (fence_context c) (emit_seqno c) false
          (mk_sched (pending_list (sched c) ++ sched_queue (sched c)) [] false).

(** The job heap once [rocket_reset] is through: only the karma of the
    guilty job has changed. *)
Definition jobs_after_reset (bad : option ptr) (js : gmap ptr rocket_job)
  : gmap ptr rocket_job :=
  match bad with
  | Some b => alter (λ j, job_with_karma (karma j + 1) j) b js
  | None => js
  end.

(** The job [rocket_reset] is told to blame is a live job. *)
Definition bad_ok (w : world) (bad : option ptr) : Prop :=
  match bad with
  | Some b => is_Some (jobs w !! b)
  | None => True
  end.

(** What handling interrupts may change from [w] to [w']: jobs stay, with
    their hardware fence; fences stay; no reset flag and no scheduler is
    touched; and none of the new events belongs to the reset path. *)
Definition irq_frame (w w' : world) : Prop :=
  (∀ job j, jobs w !! job = Some j →
     ∃ j', jobs w' !! job = Some j' ∧ done_fence j' = done_fence j) ∧
  (∀ f, is_Some (fences w !! f) → is_Some (fences w' !! f)) ∧
  reset_pending <$> cores w' = reset_pending <$> cores w ∧
  sched <$> cores w' = sched <$> cores w ∧
  ∃ evs, trace w' = trace w ++ evs ∧ Forall (λ e, is_reset_event e = false) evs.

(** What [rocket_job_timedout] does once both checks have found the fence
    unsignaled. *)
Definition timedout_reset (core : nat) (job : ptr) : M drm_gpu_sched_stat :=
  c ← get_core core;
  put_core core (core_with_reset_pending true c) ;;
  rocket_reset core (Some job) ;;
  emit (EvIommuDetach core) ;;
  mret DRM_GPU_SCHED_STAT_NOMINAL.

(** ** The scheduler side of dependency tracking *)

(** Modelled from the spec: a job is admitted for dispatch only once all
    the fences it waits for are signaled. *)
Definition drm_sched_job_ready (w : world) (j : rocket_job) : bool :=
  forallb (fence_signaled w) (dependencies j).

(** Modelled from the spec: one step of the scheduler of a core
    (sched_main.c is not among the sources).  Nothing is dispatched while
    the scheduler is stopped or the in-flight slot of the core is taken;
    otherwise the job at the head of the queue is handed to [run_job] if it
    is ready.  The result tells whether a job was dispatched. *)
Definition drm_sched_run_job_work (core : nat) : M bool :=
  c ← get_core core;
  if sched_stopped (sched c) then mret false
  else
    match in_flight_job c, sched_queue (sched c) with
    | None, job :: queue =>
        j ← get_job job;
        w ← get;
        if negb (drm_sched_job_ready w j) then mret false
        else
          put_core core
            (core_with_sched (mk_sched queue (pending_list (sched c) ++ [job]) false) c) ;;
          rocket_job_run job ;;
          mret true
    | _, _ => mret false
    end.

(** Fence [f] belongs to a job that waits, directly or through the jobs
    whose fences it waits for, for fence [g]. *)
Inductive waits_for (w : world) : ptr → ptr → Prop :=
| waits_for_refl f : waits_for w f f
| waits_for_step job j f f' g :
    jobs w !! job = Some j → s_fence_finished j = Some f →
    f' ∈ dependencies j → waits_for w f' g →
    waits_for w f g.

(** Modelled from the spec: the fence of a job is signaled only after the
    job has been dispatched, that is, after the fences it waits for. *)
Definition sched_discipline (w : world) : Prop :=
  ∀ job j f, jobs w !! job = Some j → s_fence_finished j = Some f →
    fence_signaled w f = true → drm_sched_job_ready w j = true.

(** From [w] to [w'] every job is still there with its fence and with at
    least the dependencies it had. *)
Definition deps_kept (w w' : world) : Prop :=
  ∀ job j, jobs w !! job = Some j →
    ∃ j', jobs w' !! job = Some j' ∧ s_fence_finished j' = s_fence_finished j ∧
          dependencies j ⊆ dependencies j'.

(** Jobs pushed one after the other, in submission order. *)
Fixpoint push_jobs (l : list ptr) : M (list Z) :=
  match l with
  | [] => mret []
  | job :: l =>
      ret ← rocket_job_push job;
      rets ← push_jobs l;
      mret (ret :: rets)
  end.

(** The fence records after [fence] has been attached as writer to the
    buffers [bos]. *)
Definition attach_all (fence : ptr) (bos : list ptr) (rs : gmap ptr dma_resv)
  : gmap ptr dma_resv :=
  foldl (λ rs bo, <[bo := mk_resv (Some fence) []]> rs) rs bos.

(** The fences a job has to wait for, given the buffers it touches. *)
Definition wait_set (w : world) (bos : list ptr) (write : bool) : list ptr :=
  flat_map (λ bo, implicit_fences (resv_of w bo) write) bos.

(** Two armed jobs that have not been pushed yet: job 10 reads buffer 100
    and writes buffer 200, job 11 reads buffer 200 and writes buffer 300. *)
Definition ex_job_a : rocket_job :=
  mk_job ex_tasks 2 0 [100%nat] [200%nat] 1 None None 1 0%nat (Some 0%nat) [] 0.
Definition ex_job_b : rocket_job :=
  mk_job ex_tasks 2 0 [200%nat] [300%nat] 1 None None 1 0%nat (Some 1%nat) [] 0.
Definition ex_push_world : world :=
  mk_world [ex_core] {[ 10%nat := ex_job_a; 11%nat := ex_job_b ]}
           {[ 0%nat := mk_fence 0 0 false 0; 1%nat := mk_fence 0 0 false 0 ]} ∅
           20%nat 0%nat [] [].

(** The state after job 10 has been pushed, and after job 11 has been
    pushed as well. *)
Definition ex_pushed_a : world :=
  Eval vm_compute in
    match rocket_job_push 10%nat ex_push_world with
    | Some (_, w) => w
    | None => ex_push_world
    end.
Definition ex_pushed_ab : world :=
  Eval vm_compute in
    match rocket_job_push 11%nat ex_pushed_a with
    | Some (_, w) => w
    | None => ex_pushed_a
    end.

(** A task the submit path refuses: a reserved field that is not zero, or
    no command at all. *)
Definition task_malformed (t : drm_rocket_task.t) : Prop :=
  drm_rocket_task.reserved t ≠ 0 ∨ drm_rocket_task.regcmd_count t = 0.

(** A client context whose process memory holds, at address 8192, a job
    with no task, at address 12288, a job with one task that has no
    command (the task array being at address 4096), and at address 16384
    a job with a reserved field set. *)
Definition ex_file : drm_file :=
  mk_file ∅ 1
    (mk_user_mem
       {[ 4096 := [drm_rocket_task.mk 65536 0 0] ]}
       ∅
       {[ 8192 := [drm_rocket_job.mk 0 0 0 0 0 0 0];
          12288 := [drm_rocket_job.mk 4096 0 0 1 0 0 0];
          16384 := [drm_rocket_job.mk 4096 0 0 1 0 0 7] ]}).

(** * The rest of the driver *)

(** ** Releasing a job *)


(** ** Shapes of the submit path *)

(** A task as the kernel keeps it once it has been copied in. *)
Definition kernel_task (t : drm_rocket_task.t) : rocket_task :=
  mk_task (drm_rocket_task.regcmd t) (drm_rocket_task.regcmd_count t).

(** A task the submit path accepts. *)
Definition task_well_formed (t : drm_rocket_task.t) : Prop :=
  drm_rocket_task.reserved t = 0 ∧ drm_rocket_task.regcmd_count t ≠ 0.

(** From [w] to [w'] nothing but the job object [rjob] (and the failure
    schedule) has changed. *)
Definition only_job (rjob : ptr) (w w' : world) : Prop :=
  cores w' = cores w ∧ fences w' = fences w ∧ resvs w' = resvs w ∧
  next_ptr w' = next_ptr w ∧ rr_next w' = rr_next w ∧ trace w' = trace w ∧
  ∀ p, p ≠ rjob → jobs w' !! p = jobs w !! p.

(** A client context with two buffers, handles 1 and 2, whose process
    memory holds, at address 8192, a job of two tasks (the task array being
    at address 4096) that reads buffer 1 and writes buffer 2. *)
Definition ex_file_ok : drm_file :=
  mk_file {[ 1 := 100%nat; 2 := 200%nat ]} 5
    (mk_user_mem
       {[ 4096 := [drm_rocket_task.mk 65536 16 0; drm_rocket_task.mk 69632 7 0] ]}
       {[ 20480 := [1]; 24576 := [2] ]}
       {[ 8192 := [drm_rocket_job.mk 4096 20480 24576 2 1 1 0] ]}).

(** No object lives at an address the allocator has not handed out yet. *)
Definition heap_fresh (w : world) : Prop :=
  ∀ p : ptr, (next_ptr w ≤ p)%nat → jobs w !! p = None ∧ fences w !! p = None.

(** Midway through [rocket_ioctl_submit_job]: with respect to the state [w]
    the ioctl started from, [wm] holds in addition the job object [k] at
    address [p] and a fence at address [q], and is otherwise the same. *)
Definition building (w : world) (p q : ptr) (k : rocket_job) (wm : world) : Prop :=
  jobs wm = <[p := k]> (jobs w) ∧
  is_Some (fences wm !! q) ∧
  (∀ f, f ≠ q → fences wm !! f = fences w !! f) ∧
  cores wm = cores w ∧ resvs wm = resvs w ∧ trace wm = trace w.

(** ** Invariants of the engine *)

(** A computation that keeps the state invariant [I] and relates the state
    it starts from to the state it returns in by [R], whenever it returns. *)
Definition preserves (I : world → Prop) (R : world → world → Prop)
    {A} (m : M A) : Prop :=
  ∀ w r w', I w → m w = Some (r, w') → I w' ∧ R w w'.





(** ** Runtime-PM accounting *)

(** What an event does to the runtime-PM usage counter of [core]:
    [pm_runtime_get_sync] takes a reference, [pm_runtime_put_autosuspend]
    and [pm_runtime_put_noidle] drop one. *)
Definition pm_delta (core : nat) (e : event) : Z :=
  match e with
  | EvPm c pm_runtime_get_sync => if decide (c = core) then 1 else 0
  | EvPm c pm_runtime_put_autosuspend | EvPm c pm_runtime_put_noidle =>
      if decide (c = core) then -1 else 0
  | _ => 0
  end.

(** The usage counter of [core] after the events of a trace. *)
Definition pm_usage (core : nat) (t : list event) : Z :=
  foldr (λ e n, pm_delta core e + n) 0 t.

(** The references the job engine is meant to hold on a core: one while a
    job is in flight there. *)
Definition slot_refs (c : rocket_core) : Z :=
  match in_flight_job c with Some _ => 1 | None => 0 end.

Definition pm_balanced (w : world) : Prop :=
  ∀ core c, cores w !! core = Some c → pm_usage core (trace w) = slot_refs c.

Definition pm_inv (w : world) : Prop := env_fail w = [] ∧ pm_balanced w.

Definition any_change (w w' : world) : Prop := True.

(** Modelled from the spec: the scheduler hands a job to [run_job] only
    while the hardware queue of its core has room (sched_main.c is not
    among the sources; [rocket_job_init] sets the credit limit of each
    scheduler to one job). *)
Definition sched_run_job (job : ptr) : M unit :=
  j ← get_job job;
  c ← get_core (base_sched j);
  match in_flight_job c with
  | Some _ => mret tt
  | None => rocket_job_run job ;; mret tt
  end.

(** The operations of the engine, with dispatch going through the
    scheduler. *)
Definition run_sched_op (o : op) : M unit :=
  match o with
  | OpRunJob job => sched_run_job job
  | o => run_op o
  end.

Fixpoint run_sched_ops (l : list op) : M unit :=
  match l with
  | [] => mret tt
  | o :: l => run_sched_op o ;; run_sched_ops l
  end.

(** ** Well-formed states *)

(** A job object is well formed: its cursor is within its task array, whose
    length is its task count; it is armed on a core of the device; its
    scheduler fence exists, and so does its hardware fence once it has
    one. *)
Definition wf_job (w : world) (j : rocket_job) : Prop :=
  0 ≤ next_task_idx j ≤ task_count j ∧
  task_count j = Z.of_nat (length (tasks j)) ∧ task_count j < 2 ^ 32 ∧
  (base_sched j < length (cores w))%nat ∧
  (∃ f, s_fence_finished j = Some f ∧ is_Some (fences w !! f)) ∧
  (∀ f, done_fence j = Some f → is_Some (fences w !! f)).

(** The in-flight slot of a core refers to a job that has been run. *)
Definition wf_core (w : world) (c : rocket_core) : Prop :=
  ∀ job, in_flight_job c = Some job →
    ∃ j, jobs w !! job = Some j ∧ is_Some (done_fence j).

Definition engine_wf (w : world) : Prop :=
  (∀ job j, jobs w !! job = Some j → wf_job w j) ∧
  (∀ core c, cores w !! core = Some c → wf_core w c).

(** The kernel invokes an entry point only on a core of the device or on
    a job the scheduler holds; [timedout_job] only on a job that has been
    run. *)
Definition op_enabled (w : world) (o : op) : Prop :=
  match o with
  | OpRunJob job => is_Some (jobs w !! job)
  | OpTimedout job => ∃ j, jobs w !! job = Some j ∧ is_Some (done_fence j)
  | OpRaiseIrq core _ _ | OpIrqThread core | OpHandleIrq core | OpResetWork core =>
      (core < length (cores w))%nat
  end.

(** From [w] to [w'] the device has the same cores, every job is still
    there, and a job that had a hardware fence still has one. *)
Definition extends (w w' : world) : Prop :=
  length (cores w') = length (cores w) ∧
  ∀ job j, jobs w !! job = Some j →
    ∃ j', jobs w' !! job = Some j' ∧ (is_Some (done_fence j) → is_Some (done_fence j')).

(** The computation returns from [w], in a well-formed state that extends
    [w]. *)
Definition runs {A} (w : world) (m : M A) : Prop :=
  ∃ r w', m w = Some (r, w') ∧ engine_wf w' ∧ extends w w'.

(** * Buffer objects: drivers/accel/rocket/rocket_gem.c *)

Definition s32 (x : Z) : Z := (x + 2 ^ 31) mod 2 ^ 32 - 2 ^ 31.

Definition EBUSY : Z := 16.
Definition ETIMEDOUT : Z := 110.

Inductive dma_data_direction := DMA_BIDIRECTIONAL | DMA_TO_DEVICE | DMA_FROM_DEVICE.

(** [struct rocket_gem_object], as far as the ioctls use it. *)
Record rocket_gem_object := mk_bo {
  bo_domain : Z;
  bo_size : Z;
  bo_offset : Z;
  last_cpu_prep_op : Z;
}.

Definition bo_with_last_cpu_prep_op (op : Z) (bo : rocket_gem_object) : rocket_gem_object :=
  mk_bo (bo_domain bo) (bo_size bo) (bo_offset bo) op.

(** What the buffer ioctls do to the surrounding kernel. *)
Inductive gem_event :=
| EvResvWait (handle : Z) (write : bool) (timeout : Z)
| EvSyncForCpu (core : nat) (handle : Z) (dir : dma_data_direction)
| EvSyncForDevice (core : nat) (handle : Z) (dir : dma_data_direction)
| EvWarnOn.

(** The buffers of a client by handle, the number of cores of the device,
    and the trace of the calls made so far. *)
Record gem_state := mk_gem {
  gem_objects : gmap Z rocket_gem_object;
  num_cores : nat;
  gem_trace : list gem_event;
}.

(** The cores the cache maintenance loops go over:
    [for (core = 1; core < rdev->num_cores; core++)]. *)
Definition sync_cores (n : nat) : list nat := seq 1 (n - 1).

Section rocket_gem.
(** The flag values of drm/rocket_accel.h, which is not among the
    sources. *)
Variables ROCKET_PREP_READ ROCKET_PREP_WRITE : Z.

Definition rocket_op_to_dma_dir (op : Z) : dma_data_direction :=
  let op := Z.land op (Z.lor ROCKET_PREP_READ ROCKET_PREP_WRITE) in
  if bool_decide (op = ROCKET_PREP_READ) then DMA_FROM_DEVICE
  else if bool_decide (op = ROCKET_PREP_WRITE) then DMA_TO_DEVICE
  else DMA_BIDIRECTIONAL.

(** [timeout] is what [drm_timeout_abs_to_jiffies] makes of the deadline
    of the caller, and [wait_ret] what [dma_resv_wait_timeout] returns: the
    time left, 0 when the time ran out, or a negative error. *)
Definition rocket_ioctl_prep_bo (handle op : Z) (timeout wait_ret : Z) (s : gem_state)
  : Z * gem_state :=
  let write := bool_decide (Z.land op ROCKET_PREP_WRITE ≠ 0) in
  if bool_decide (u32 (Z.land op (Z.lnot (Z.lor ROCKET_PREP_READ ROCKET_PREP_WRITE))) ≠ 0)
  then (- EINVAL, s)
  else
    match gem_objects s !! handle with
    | None => (- ENOENT, s)
    | Some bo =>
        let ret := wait_ret in
        let ret :=
          if bool_decide (ret = 0)
          then (if bool_decide (timeout ≠ 0) then - ETIMEDOUT else - EBUSY)
          else ret in
        (s32 ret,
         mk_gem (<[handle := bo_with_last_cpu_prep_op op bo]> (gem_objects s))
                (num_cores s)
                (gem_trace s ++
                 EvResvWait handle write timeout ::
                 map (λ core, EvSyncForCpu core handle (rocket_op_to_dma_dir op))
                     (sync_cores (num_cores s))))
    end.

Definition rocket_ioctl_fini_bo (handle reserved : Z) (s : gem_state) : Z * gem_state :=
  if bool_decide (reserved ≠ 0) then (- EINVAL, s)
  else
    match gem_objects s !! handle with
    | None => (- ENOENT, s)
    | Some bo =>
        (0,
         mk_gem (<[handle := bo_with_last_cpu_prep_op 0 bo]> (gem_objects s))
                (num_cores s)
                (gem_trace s ++
                 (if bool_decide (last_cpu_prep_op bo = 0) then [EvWarnOn] else []) ++
                 map (λ core, EvSyncForDevice core handle
                                (rocket_op_to_dma_dir (last_cpu_prep_op bo)))
                     (sync_cores (num_cores s))))
    end.
End rocket_gem.

(** A two-core device with one buffer, handle 7, that has not been
    prepared for CPU access. *)
Definition ex_gem : gem_state :=
  mk_gem {[ 7 := mk_bo 5 4096 0 0 ]} 2 [].

(** * Bringing a core up and down *)

(** What [rocket_job_init] and [rocket_job_fini] do to the kernel, in
    order.  The interrupt is requested through [devm], so it is released
    with the device and not by this code. *)
Inductive setup_event :=
| EvInitWork
| EvSpinLockInit
| EvPlatformGetIrq
| EvRequestThreadedIrq (irq : Z)
| EvDevErr
| EvAllocOrderedWorkqueue (obtained : bool)
| EvFenceContextAlloc
| EvSchedInit (ret : Z)
| EvSchedFini
| EvCancelWorkSync
| EvDestroyWorkqueue.

#[global] Instance setup_event_eq_dec : EqDecision setup_event.
Proof. solve_decision. Defined.

(** [rocket_job_init]: [irq] is what [platform_get_irq] returns,
    [request_ret] what [devm_request_threaded_irq] returns, [wq_obtained]
    whether [alloc_ordered_workqueue] gave a queue and [sched_ret] what
    [drm_sched_init] returns.  A service is only asked when the code gets
    to it. *)
Definition rocket_job_init (irq request_ret : Z) (wq_obtained : bool) (sched_ret : Z)
  : Z * list setup_event :=
  let t := [EvInitWork; EvSpinLockInit; EvPlatformGetIrq] in
  if bool_decide (irq < 0) then (irq, t)
  else
    let ret := request_ret in
    let t := t ++ [EvRequestThreadedIrq irq] in
    if bool_decide (ret ≠ 0) then (ret, t ++ [EvDevErr])
    else
      let t := t ++ [EvAllocOrderedWorkqueue wq_obtained] in
      if negb wq_obtained then (- ENOMEM, t)
      else
        let t := t ++ [EvFenceContextAlloc] in
        let ret := sched_ret in
        let t := t ++ [EvSchedInit ret] in
        if bool_decide (ret ≠ 0)
        then (ret, t ++ [EvDevErr; EvSchedFini; EvDestroyWorkqueue])
        else (0, t).

Definition rocket_job_fini : list setup_event :=
  [EvSchedFini; EvCancelWorkSync; EvDestroyWorkqueue].

(** The workqueues that a sequence of events obtained and has not
    destroyed; [None] when it destroys one it does not have. *)
Fixpoint live_workqueues (n : nat) (t : list setup_event) : option nat :=
  match t with
  | [] => Some n
  | EvAllocOrderedWorkqueue true :: t => live_workqueues (S n) t
  | EvDestroyWorkqueue :: t =>
      match n with
      | O => None
      | S n => live_workqueues n t
      end
  | _ :: t => live_workqueues n t
  end.

(** The schedulers [drm_sched_init] was called on and [drm_sched_fini] has
    not been; [None] when [drm_sched_fini] is called on one that
    [drm_sched_init] never saw. *)
Fixpoint open_schedulers (n : nat) (t : list setup_event) : option nat :=
  match t with
  | [] => Some n
  | EvSchedInit _ :: t => open_schedulers (S n) t
  | EvSchedFini :: t =>
      match n with
      | O => None
      | S n => open_schedulers n t
      end
  | _ :: t => open_schedulers n t
  end.

(** * Properties of the job engine *)

Arguments u32 : simpl never.
Arguments u64 : simpl never.

(** ** Stepping through monadic code *)

Ltac munfold :=
  unfold rocket_pc_writel, rocket_cna_writel, rocket_core_writel, rocket_pc_readl,
    emit, get_core, put_core, get_job, put_job, get_fence, put_fence,
    modify, get, put, deref, oops, mbind, M_bind, mret, M_ret in *.

Lemma add_events_app l1 l2 w :
  add_events l2 (add_events l1 w) = add_events (l1 ++ l2) w.
Proof. unfold add_events, set_trace; simpl. by rewrite <- app_assoc. Qed.

Lemma add_events_nil w : add_events [] w = w.
Proof. destruct w; unfold add_events, set_trace; simpl. by rewrite app_nil_r. Qed.

(** Events are moved outermost, so that a world reads as the trace
    extension of a state update. *)
Lemma set_cores_add_events f l w :
  set_cores f (add_events l w) = add_events l (set_cores f w).
Proof. reflexivity. Qed.
Lemma set_jobs_add_events f l w :
  set_jobs f (add_events l w) = add_events l (set_jobs f w).
Proof. reflexivity. Qed.
Lemma set_fences_add_events f l w :
  set_fences f (add_events l w) = add_events l (set_fences f w).
Proof. reflexivity. Qed.
Lemma set_resvs_add_events f l w :
  set_resvs f (add_events l w) = add_events l (set_resvs f w).
Proof. reflexivity. Qed.
Lemma set_next_ptr_add_events n l w :
  set_next_ptr n (add_events l w) = add_events l (set_next_ptr n w).
Proof. reflexivity. Qed.
Lemma set_env_fail_add_events n l w :
  set_env_fail n (add_events l w) = add_events l (set_env_fail n w).
Proof. reflexivity. Qed.
Lemma set_rr_next_add_events n l w :
  set_rr_next n (add_events l w) = add_events l (set_rr_next n w).
Proof. reflexivity. Qed.

Create Rewrite HintDb world_norm.
#[local] Hint Rewrite add_events_app set_cores_add_events set_jobs_add_events
  set_fences_add_events set_resvs_add_events set_next_ptr_add_events
  set_env_fail_add_events set_rr_next_add_events : world_norm.

Ltac wnorm := autorewrite with world_norm.

Lemma bind_eq {A B} (m : M A) (f : A → M B) w :
  (m ≫= f) w = match m w with Some (x, w') => f x w' | None => None end.
Proof. reflexivity. Qed.
Lemma mret_eq {A} (x : A) w : (mret x : M A) w = Some (x, w).
Proof. reflexivity. Qed.
Lemma get_eq w : get w = Some (w, w).
Proof. reflexivity. Qed.
Lemma modify_eq f w : modify f w = Some (tt, f w).
Proof. reflexivity. Qed.
Lemma emit_eq e w : emit e w = Some (tt, add_events [e] w).
Proof. reflexivity. Qed.
Lemma put_core_eq core c w :
  put_core core c w = Some (tt, set_cores (insert core c) w).
Proof. reflexivity. Qed.
Lemma put_job_eq job j w :
  put_job job j w = Some (tt, set_jobs (insert job j) w).
Proof. reflexivity. Qed.
Lemma put_fence_eq f d w :
  put_fence f d w = Some (tt, set_fences (insert f d) w).
Proof. reflexivity. Qed.
Lemma deref_some {A} (x : A) (w : world) : deref (Some x) w = Some (x, w).
Proof. reflexivity. Qed.

Lemma env_fails_none w : env_fail w = [] → env_fails w = Some (false, w).
Proof. intros H. unfold env_fails. by rewrite H. Qed.
Lemma env_fails_eq w :
  env_fails w = Some (hd false (env_fail w), set_env_fail (tl (env_fail w)) w).
Proof. destruct w as [? ? ? ? ? ? l ?]. by destruct l. Qed.
Lemma get_core_eq w core c : cores w !! core = Some c → get_core core w = Some (c, w).
Proof. intros H. unfold get_core. by rewrite H. Qed.
Lemma get_job_eq w job j : jobs w !! job = Some j → get_job job w = Some (j, w).
Proof. intros H. unfold get_job. by rewrite H. Qed.
Lemma get_fence_eq w f d : fences w !! f = Some d → get_fence f w = Some (d, w).
Proof. intros H. unfold get_fence. by rewrite H. Qed.

(** Projections of updated worlds, and lookups in updated heaps. *)
Ltac wsimpl :=
  cbn [cores jobs fences resvs env_fail next_ptr trace rr_next
       add_events set_trace set_cores set_jobs set_fences set_resvs
       set_next_ptr set_env_fail set_rr_next].

Ltac lookup_tac :=
  wsimpl;
  first [ eassumption
        | by (apply list_lookup_insert_eq; rewrite ?length_insert)
        | by (apply list_lookup_insert_eq; rewrite ?length_insert;
              eapply lookup_lt_Some)
        | by apply lookup_insert_eq
        | by (rewrite lookup_insert_ne by done)
        | by (rewrite list_lookup_insert_ne by done) ].

(** One step of symbolic execution: the head action of the computation is
    replaced by its result. *)
Ltac mstep :=
  rewrite ?bind_eq;
  first [ rewrite mret_eq | rewrite get_eq | rewrite modify_eq | rewrite emit_eq
        | rewrite put_core_eq | rewrite put_job_eq | rewrite put_fence_eq
        | rewrite deref_some
        | rewrite env_fails_none by lookup_tac
        | erewrite get_core_eq by lookup_tac
        | erewrite get_job_eq by lookup_tac
        | erewrite get_fence_eq by lookup_tac ];
  cbv beta iota; wsimpl.

(** Case analysis on the next entry of the failure schedule. *)
Ltac menv :=
  rewrite ?bind_eq; rewrite env_fails_eq;
  lazymatch goal with
  | |- context [hd false ?l] => destruct (hd false l)
  end;
  cbv beta iota; wsimpl.

Lemma u32_small x : 0 ≤ x < 2 ^ 32 → u32 x = x.
Proof. intros H. unfold u32. by apply Z.mod_small. Qed.

(** *** Dispatch *)

Lemma hw_submit_reset_pending w core c job :
  cores w !! core = Some c → reset_pending c = true →
  rocket_job_hw_submit core job w = Some (tt, w).
Proof.
  intros Hc Hp. unfold rocket_job_hw_submit. munfold. by rewrite Hc, Hp.
Qed.

Lemma hw_submit_issue w core c job j task :
  cores w !! core = Some c → reset_pending c = false →
  jobs w !! job = Some j →
  tasks j !! Z.to_nat (next_task_idx j) = Some task →
  rocket_job_hw_submit core job w =
    Some (tt, add_events (hw_submit_events core task)
                (set_jobs (insert job (job_with_next_task_idx (u32 (next_task_idx j + 1)) j)) w)).
Proof.
  intros Hc Hp Hj Ht. unfold rocket_job_hw_submit. munfold.
  rewrite Hc, Hp, Hj, Ht.
  by rewrite !add_events_app.
Qed.

(** *** Completion *)

Lemma handle_done_next w core c job j task :
  cores w !! core = Some c → reset_pending c = false →
  jobs w !! job = Some j →
  next_task_idx j < task_count j →
  tasks j !! Z.to_nat (next_task_idx j) = Some task →
  rocket_job_handle_done core job w =
    Some (tt, add_events (hw_submit_events core task)
                (set_jobs (insert job (job_with_next_task_idx (u32 (next_task_idx j + 1)) j)) w)).
Proof.
  intros Hc Hp Hj Hlt Ht. unfold rocket_job_handle_done.
  unfold get_job, deref, mbind, M_bind at 1. rewrite Hj. simpl.
  rewrite bool_decide_true by done.
  by eapply hw_submit_issue.
Qed.

Lemma handle_done_deferred w core c job j :
  cores w !! core = Some c → reset_pending c = true →
  jobs w !! job = Some j →
  next_task_idx j < task_count j →
  rocket_job_handle_done core job w = Some (tt, w).
Proof.
  intros Hc Hp Hj Hlt. unfold rocket_job_handle_done.
  unfold get_job, deref, mbind, M_bind at 1. rewrite Hj. simpl.
  rewrite bool_decide_true by done.
  by eapply hw_submit_reset_pending.
Qed.

Lemma handle_done_complete w core c job j f d :
  cores w !! core = Some c →
  jobs w !! job = Some j →
  ¬ next_task_idx j < task_count j →
  done_fence j = Some f →
  fences w !! f = Some d → f_signaled d = false →
  rocket_job_handle_done core job w =
    Some (tt, add_events [EvIommuDetach core; EvFenceSignal f;
                          EvPm core pm_runtime_put_autosuspend]
                (set_fences (insert f (fence_with_signaled true d))
                   (set_cores (insert core (core_with_in_flight_job None c)) w))).
Proof.
  intros Hc Hj Hge Hf Hd Hs. unfold rocket_job_handle_done, dma_fence_signal_locked.
  munfold. rewrite Hj. simpl. rewrite bool_decide_false by done.
  rewrite Hc. simpl. rewrite Hf. simpl. rewrite Hd, Hs. simpl.
  by wnorm.
Qed.

Lemma handle_irq_eq w core :
  rocket_job_handle_irq core w =
    match cores w !! core with
    | Some c =>
        match in_flight_job c with
        | Some job => rocket_job_handle_done core job (add_events (handle_irq_events core) w)
        | None => Some (tt, add_events (handle_irq_events core) w)
        end
    | None => None
    end.
Proof.
  unfold rocket_job_handle_irq. munfold. simpl.
  replace (add_events _ (add_events _ (add_events _ (add_events _ (add_events _ w)))))
    with (add_events (handle_irq_events core) w)
    by (rewrite !add_events_app; reflexivity).
  destruct (cores w !! core) as [c|]; [|done].
  by destruct (in_flight_job c).
Qed.

Lemma task_starts_app l1 l2 : task_starts (l1 ++ l2) = (task_starts l1 + task_starts l2)%nat.
Proof. unfold task_starts. by rewrite List.filter_app, length_app. Qed.


Lemma task_starts_hw_submit core task : task_starts (hw_submit_events core task) = 1%nat.
Proof. reflexivity. Qed.

Lemma task_starts_handle_irq core : task_starts (handle_irq_events core) = 0%nat.
Proof. reflexivity. Qed.

Lemma signal_count_hw_submit f core task : signal_count f (hw_submit_events core task) = 0%nat.
Proof. reflexivity. Qed.

Lemma signal_count_handle_irq f core : signal_count f (handle_irq_events core) = 0%nat.
Proof. reflexivity. Qed.

(** ** The completion handler *)

Lemma handle_irq_idle w core c :
  cores w !! core = Some c →
  in_flight_job c = None →
  rocket_job_handle_irq core w = Some (tt, add_events (handle_irq_events core) w).
Proof. intros Hc Hn. by rewrite handle_irq_eq, Hc, Hn. Qed.

(** C10: when the completion handler runs while the in-flight slot of the
    core is empty, it changes no job state: the job heap, the fences and
    the cores (so the in-flight slot, which stays empty) are as before, and
    the only effects are the status reads and the interrupt acknowledgement,
    none of which signals a fence or starts a task. *)
Theorem handle_irq_empty_slot (w : world) (core : nat) (c : rocket_core) :
  cores w !! core = Some c →
  in_flight_job c = None →
  ∃ w', rocket_job_handle_irq core w = Some (tt, w') ∧
        jobs w' = jobs w ∧ fences w' = fences w ∧ cores w' = cores w ∧
        trace w' = trace w ++ handle_irq_events core ∧
        task_starts (handle_irq_events core) = 0%nat ∧
        Forall (λ e, is_fence_signal e = false) (handle_irq_events core).
Proof.
  intros Hc Hn. exists (add_events (handle_irq_events core) w).
  split; [by apply handle_irq_idle with c|].
  repeat split; repeat constructor.
Qed.

Lemma handle_irq_empty_slot_witness :
  ∃ w', rocket_job_handle_irq 0%nat ex_world = Some (tt, w') ∧
        jobs w' = jobs ex_world ∧ fences w' = fences ex_world ∧
        cores w' = cores ex_world ∧
        trace w' = trace ex_world ++ handle_irq_events 0%nat ∧
        task_starts (handle_irq_events 0%nat) = 0%nat ∧
        Forall (λ e, is_fence_signal e = false) (handle_irq_events 0%nat).
Proof.
  apply (handle_irq_empty_slot ex_world 0%nat ex_core); reflexivity.
Defined.

Lemma handle_irq_next w core c job j task :
  cores w !! core = Some c → in_flight_job c = Some job → jobs w !! job = Some j →
  next_task_idx j < task_count j → reset_pending c = false →
  tasks j !! Z.to_nat (next_task_idx j) = Some task →
  rocket_job_handle_irq core w =
    Some (tt, add_events (handle_irq_events core ++ hw_submit_events core task)
                (set_jobs (insert job
                   (job_with_next_task_idx (u32 (next_task_idx j + 1)) j)) w)).
Proof.
  intros Hc Hin Hj Hlt Hp Ht. rewrite handle_irq_eq, Hc, Hin.
  erewrite handle_done_next by eauto. by wnorm.
Qed.

Lemma handle_irq_deferred w core c job j :
  cores w !! core = Some c → in_flight_job c = Some job → jobs w !! job = Some j →
  next_task_idx j < task_count j → reset_pending c = true →
  rocket_job_handle_irq core w = Some (tt, add_events (handle_irq_events core) w).
Proof.
  intros Hc Hin Hj Hlt Hp. rewrite handle_irq_eq, Hc, Hin.
  by erewrite handle_done_deferred by eauto.
Qed.

Lemma handle_irq_done w core c job j f d :
  cores w !! core = Some c → in_flight_job c = Some job → jobs w !! job = Some j →
  next_task_idx j = task_count j →
  done_fence j = Some f → fences w !! f = Some d → f_signaled d = false →
  rocket_job_handle_irq core w =
    Some (tt, add_events (handle_irq_events core ++
                          [EvIommuDetach core; EvFenceSignal f;
                           EvPm core pm_runtime_put_autosuspend])
                (set_fences (insert f (fence_with_signaled true d))
                   (set_cores (insert core (core_with_in_flight_job None c)) w))).
Proof.
  intros Hc Hin Hj Heq Hf Hd Hs. rewrite handle_irq_eq, Hc, Hin.
  erewrite handle_done_complete by (eauto; simpl; lia).
  by wnorm.
Qed.

(** C6, as the code has it: for a completion handled with a job in the
    in-flight slot, (1) if the cursor is below the task count and no reset
    is pending on the core, the next task of the same job is issued on the
    same core and the cursor advances, the cores (in-flight slot and
    scheduler queues) being left as they are; (2) if the cursor is below
    the task count while a reset is pending, nothing is issued and the job
    is left as it is; (3) if the cursor has reached the task count, the
    in-flight slot is cleared, the IOMMU group is detached and the
    done-fence of the job is signaled. *)
Theorem handle_irq_in_flight (w : world) (core : nat) (c : rocket_core)
    (job : ptr) (j : rocket_job) :
  cores w !! core = Some c →
  in_flight_job c = Some job →
  jobs w !! job = Some j →
  (∀ task,
     next_task_idx j < task_count j → reset_pending c = false →
     tasks j !! Z.to_nat (next_task_idx j) = Some task →
     rocket_job_handle_irq core w =
       Some (tt, add_events (handle_irq_events core ++ hw_submit_events core task)
                   (set_jobs (insert job
                      (job_with_next_task_idx (u32 (next_task_idx j + 1)) j)) w))) ∧
  (next_task_idx j < task_count j → reset_pending c = true →
     rocket_job_handle_irq core w =
       Some (tt, add_events (handle_irq_events core) w)) ∧
  (∀ f d,
     next_task_idx j = task_count j →
     done_fence j = Some f → fences w !! f = Some d → f_signaled d = false →
     rocket_job_handle_irq core w =
       Some (tt, add_events (handle_irq_events core ++
                             [EvIommuDetach core; EvFenceSignal f;
                              EvPm core pm_runtime_put_autosuspend])
                   (set_fences (insert f (fence_with_signaled true d))
                      (set_cores (insert core (core_with_in_flight_job None c)) w)))).
Proof.
  intros Hc Hin Hj. split_and!.
  - intros task Hlt Hp Ht. by eapply handle_irq_next.
  - intros Hlt Hp. by eapply handle_irq_deferred.
  - intros f d Heq Hf Hd Hs. by eapply handle_irq_done.
Qed.

Lemma handle_irq_in_flight_witness :
  rocket_job_handle_irq 0%nat (ex_running 1 false) =
    Some (tt, add_events (handle_irq_events 0%nat ++ hw_submit_events 0%nat (mk_task 8192 3))
                (set_jobs (insert 10%nat
                   (job_with_next_task_idx 2
                      (job_with_done_fence (Some 1%nat) (job_with_next_task_idx 1 ex_job))))
                   (ex_running 1 false))).
Proof.
  refine (proj1 (handle_irq_in_flight (ex_running 1 false) 0%nat _ 10%nat _ _ _ _)
            (mk_task 8192 3) _ _ _); vm_compute; reflexivity.
Defined.

(** C6 as stated fails while a reset is pending: the in-flight job below
    has issued one of its two tasks, and the completion handler neither
    issues the second one nor touches the job. *)
Lemma handle_irq_reset_pending_no_dispatch :
  ∃ c j w',
    cores (ex_running 1 true) !! 0%nat = Some c ∧
    in_flight_job c = Some 10%nat ∧
    jobs (ex_running 1 true) !! 10%nat = Some j ∧
    next_task_idx j < task_count j ∧
    rocket_job_handle_irq 0%nat (ex_running 1 true) = Some (tt, w') ∧
    jobs w' = jobs (ex_running 1 true) ∧
    task_starts (trace w') = 0%nat.
Proof.
  eexists _, _, _. repeat split; try (vm_compute; reflexivity).
Qed.

(** ** Running a job *)

Lemma world_eq w1 w2 :
  cores w1 = cores w2 → jobs w1 = jobs w2 → fences w1 = fences w2 →
  resvs w1 = resvs w2 → next_ptr w1 = next_ptr w2 → rr_next w1 = rr_next w2 →
  env_fail w1 = env_fail w2 → trace w1 = trace w2 → w1 = w2.
Proof. destruct w1, w2; simpl; congruence. Qed.

Lemma kalloc_ok w :
  env_fail w = [] →
  kalloc w = Some (Some (next_ptr w), set_next_ptr (S (next_ptr w)) w).
Proof. intros He. unfold kalloc. by do 4 mstep. Qed.

Lemma fence_create_ok w core c :
  cores w !! core = Some c → env_fail w = [] →
  rocket_fence_create core w =
    Some (Fence (next_ptr w),
          set_fences (insert (next_ptr w)
                        (mk_fence (fence_context c) (u64 (emit_seqno c + 1)) false 0))
            (set_cores (insert core (core_with_emit_seqno (u64 (emit_seqno c + 1)) c))
               (set_next_ptr (S (next_ptr w)) w))).
Proof.
  intros Hc He. unfold rocket_fence_create.
  rewrite bind_eq, kalloc_ok by done. cbv beta iota.
  by do 3 mstep.
Qed.

Lemma job_run_issue w job j core c fin dfin task :
  jobs w !! job = Some j →
  base_sched j = core → cores w !! core = Some c → reset_pending c = false →
  s_fence_finished j = Some fin → fences w !! fin = Some dfin → f_error dfin = 0 →
  next_task_idx j ≠ task_count j →
  tasks j !! Z.to_nat (next_task_idx j) = Some task →
  env_fail w = [] →
  rocket_job_run job w = Some (Fence (next_ptr w), job_run_world w job j core c task).
Proof.
  intros Hj Hs Hc Hp Hfin Hdfin Herr Hne Ht Henv.
  apply lookup_lt_Some in Hc as Hlt.
  unfold rocket_job_run.
  mstep. mstep. rewrite Hfin. mstep. mstep.
  rewrite Herr, bool_decide_false by (by intros H; apply H).
  rewrite bool_decide_false by done.
  unfold sched_to_core. rewrite Hs, decide_True by done.
  mstep.
  rewrite bind_eq, (fence_create_ok _ _ c) by done. cbv beta iota.
  do 7 mstep.
  rewrite bind_eq.
  erewrite hw_submit_issue; [| lookup_tac | done | lookup_tac | done].
  cbv beta iota. rewrite mret_eq. do 2 f_equal.
  unfold job_run_world. apply world_eq; wsimpl; try done.
  - by rewrite list_insert_insert_eq.
  - by rewrite insert_insert_eq.
  - by rewrite <- !app_assoc.
Qed.


(** ** A job driven to completion by its interrupts *)






(** *** What a dispatch or a completion can do to a state *)

Lemma hw_submit_cases w core job w' :
  rocket_job_hw_submit core job w = Some (tt, w') →
  (∃ c, cores w !! core = Some c ∧ reset_pending c = true ∧ w' = w) ∨
  (∃ c j task,
     cores w !! core = Some c ∧ reset_pending c = false ∧
     jobs w !! job = Some j ∧
     tasks j !! Z.to_nat (next_task_idx j) = Some task ∧
     w' = add_events (hw_submit_events core task)
            (set_jobs (insert job (job_with_next_task_idx (u32 (next_task_idx j + 1)) j)) w)).
Proof.
  intros Hrun.
  destruct (cores w !! core) as [c|] eqn:Hc;
    [|by unfold rocket_job_hw_submit, get_core in Hrun; rewrite bind_eq, Hc in Hrun].
  destruct (reset_pending c) eqn:Hp.
  - left. exists c. erewrite hw_submit_reset_pending in Hrun by done. by simplify_eq.
  - right.
    destruct (jobs w !! job) as [j|] eqn:Hj;
      [|by unfold rocket_job_hw_submit, get_core, get_job in Hrun;
           rewrite !bind_eq, Hc in Hrun; simpl in Hrun; rewrite Hp, !bind_eq, Hj in Hrun].
    destruct (tasks j !! Z.to_nat (next_task_idx j)) as [task|] eqn:Ht.
    + erewrite hw_submit_issue in Hrun by done. simplify_eq. by exists c, j, task.
    + unfold rocket_job_hw_submit, get_core, get_job in Hrun.
      rewrite !bind_eq, Hc in Hrun; simpl in Hrun.
      by rewrite Hp, !bind_eq, Hj in Hrun; simpl in Hrun; rewrite !bind_eq, Ht in Hrun.
Qed.

Lemma hw_submit_no_signal w core job w' :
  rocket_job_hw_submit core job w = Some (tt, w') →
  fences w' = fences w ∧ cores w' = cores w ∧
  ∃ evs, trace w' = trace w ++ evs ∧ Forall (λ e, is_fence_signal e = false) evs.
Proof.
  intros [(c & _ & _ & ->)|(c & j & task & _ & _ & _ & _ & ->)]%hw_submit_cases.
  - repeat split. exists []. by rewrite app_nil_r.
  - repeat split. eexists. split; [wsimpl; reflexivity|]. repeat constructor.
Qed.

Lemma deref_none {A} (w : world) : deref (None : option A) w = None.
Proof. reflexivity. Qed.

(** Case analysis on the head action when its outcome is not known: an
    unmapped pointer ends the run, which contradicts the run having
    returned. *)
Ltac mcase_on o :=
  let H := fresh "Hlk" in
  destruct o eqn:H;
  [ rewrite deref_some | rewrite deref_none; cbv beta iota; try discriminate ].

Ltac mcase :=
  rewrite ?bind_eq;
  first
    [ match goal with
      | |- context [get_core ?c ?w] => unfold get_core at 1; mcase_on (cores w !! c)
      end
    | match goal with
      | |- context [get_job ?j ?w] => unfold get_job at 1; mcase_on (jobs w !! j)
      end
    | match goal with
      | |- context [get_fence ?f ?w] => unfold get_fence at 1; mcase_on (fences w !! f)
      end
    | match goal with
      | |- context [deref ?o ?w] => mcase_on o
      end ];
  cbv beta iota; wsimpl.

Lemma handle_done_inv w core job w' :
  rocket_job_handle_done core job w = Some (tt, w') →
  ∃ j, jobs w !! job = Some j ∧
    ((next_task_idx j < task_count j ∧ rocket_job_hw_submit core job w = Some (tt, w')) ∨
     (task_count j ≤ next_task_idx j ∧
      ∃ c f d, cores w !! core = Some c ∧ done_fence j = Some f ∧ fences w !! f = Some d ∧
        w' = if f_signaled d
             then add_events [EvIommuDetach core; EvPm core pm_runtime_put_autosuspend]
                    (set_cores (insert core (core_with_in_flight_job None c)) w)
             else add_events [EvIommuDetach core; EvFenceSignal f;
                              EvPm core pm_runtime_put_autosuspend]
                    (set_fences (insert f (fence_with_signaled true d))
                       (set_cores (insert core (core_with_in_flight_job None c)) w)))).
Proof.
  unfold rocket_job_handle_done. mcase.
  case_bool_decide as Hlt; [by eauto|].
  mcase. do 2 mstep. mcase.
  unfold dma_fence_signal_locked. wsimpl. mcase.
  intros Hrun. eexists. split; [done|]. right. split; [lia|].
  eexists _, _, _. repeat split; try done.
  destruct (f_signaled _); revert Hrun; repeat mstep; wnorm; by intros [= <-].
Qed.





(** ** The cursor invariant *)

Lemma advances_refl w : advances w w.
Proof. intros job j Hj. by exists j. Qed.

Lemma advances_trans w1 w2 w3 : advances w1 w2 → advances w2 w3 → advances w1 w3.
Proof.
  intros H12 H23 job j Hj.
  destruct (H12 _ _ Hj) as (j2 & Hj2 & Ht2 & Hc2 & Hi2).
  destruct (H23 _ _ Hj2) as (j3 & Hj3 & Ht3 & Hc3 & Hi3).
  exists j3. repeat split; [done|congruence..|lia].
Qed.

Lemma keeps_cursors_same_jobs {A} (m : M A) :
  (∀ w r w', m w = Some (r, w') → jobs w' = jobs w) → keeps_cursors m.
Proof.
  intros Hsame w r w' Hok Hrun. apply Hsame in Hrun.
  unfold jobs_ok, advances. rewrite Hrun. split; [done|]. intros job j Hj. by exists j.
Qed.

Lemma keeps_cursors_bind {A B} (m : M A) (f : A → M B) :
  keeps_cursors m → (∀ x, keeps_cursors (f x)) → keeps_cursors (m ≫= f).
Proof.
  intros Hm Hf w r w' Hok. rewrite bind_eq.
  destruct (m w) as [[x w1]|] eqn:Hrun; [|done].
  intros Hrun'. destruct (Hm _ _ _ Hok Hrun) as [Hok1 Hadv1].
  destruct (Hf x _ _ _ Hok1 Hrun') as [Hok2 Hadv2].
  split; [done|]. by eapply advances_trans.
Qed.

Lemma keeps_cursors_mret {A} (x : A) : keeps_cursors (mret x : M A).
Proof. apply keeps_cursors_same_jobs. by intros w r w' [= _ <-]. Qed.
Lemma keeps_cursors_oops {A} : keeps_cursors (oops : M A).
Proof. by intros w r w' _ ?. Qed.
Lemma keeps_cursors_get : keeps_cursors get.
Proof. apply keeps_cursors_same_jobs. by intros w r w' [= _ <-]. Qed.
Lemma keeps_cursors_deref {A} (o : option A) : keeps_cursors (deref o).
Proof. destruct o; [apply keeps_cursors_mret | apply keeps_cursors_oops]. Qed.
Lemma keeps_cursors_emit e : keeps_cursors (emit e).
Proof. apply keeps_cursors_same_jobs. by intros w r w' [= _ <-]. Qed.
Lemma keeps_cursors_get_core core : keeps_cursors (get_core core).
Proof.
  apply keeps_cursors_same_jobs. unfold get_core. intros w r w'.
  by destruct (cores w !! core); intros [= _ <-].
Qed.
Lemma keeps_cursors_put_core core c : keeps_cursors (put_core core c).
Proof. apply keeps_cursors_same_jobs. by intros w r w' [= _ <-]. Qed.
Lemma keeps_cursors_get_job job : keeps_cursors (get_job job).
Proof.
  apply keeps_cursors_same_jobs. unfold get_job. intros w r w'.
  by destruct (jobs w !! job); intros [= _ <-].
Qed.
Lemma keeps_cursors_get_fence f : keeps_cursors (get_fence f).
Proof.
  apply keeps_cursors_same_jobs. unfold get_fence. intros w r w'.
  by destruct (fences w !! f); intros [= _ <-].
Qed.
Lemma keeps_cursors_put_fence f d : keeps_cursors (put_fence f d).
Proof. apply keeps_cursors_same_jobs. by intros w r w' [= _ <-]. Qed.
Lemma keeps_cursors_env_fails : keeps_cursors env_fails.
Proof.
  apply keeps_cursors_same_jobs. unfold env_fails. intros w r w'.
  by destruct (env_fail w); intros [= _ <-].
Qed.

(** A job may be rewritten as long as its tasks stay and its cursor does
    not go back nor past the task count. *)
Lemma jobs_ok_insert w job j j' :
  jobs_ok w → jobs w !! job = Some j →
  tasks j' = tasks j → task_count j' = task_count j →
  next_task_idx j ≤ next_task_idx j' ≤ task_count j →
  jobs_ok (set_jobs (insert job j') w) ∧ advances w (set_jobs (insert job j') w).
Proof.
  intros Hok Hj Ht Hc Hi. split.
  - intros job2 j2. wsimpl. destruct (decide (job = job2)) as [<-|Hne].
    + rewrite lookup_insert_eq. intros [= <-]. destruct (Hok _ _ Hj). lia.
    + rewrite lookup_insert_ne by done. apply Hok.
  - intros job2 j2 Hj2. wsimpl. destruct (decide (job = job2)) as [<-|Hne].
    + rewrite lookup_insert_eq. exists j'. simplify_eq. repeat split; (done || lia).
    + rewrite lookup_insert_ne by done. by exists j2.
Qed.

Lemma hw_submit_guarded w core job j w' :
  jobs_ok w → jobs w !! job = Some j → next_task_idx j < task_count j →
  rocket_job_hw_submit core job w = Some (tt, w') →
  jobs_ok w' ∧ advances w w'.
Proof.
  intros Hok Hj Hlt
    [(c & _ & _ & ->)|(c & j' & task & _ & _ & Hj' & _ & ->)]%hw_submit_cases.
  - split; [done|apply advances_refl].
  - simplify_eq. destruct (Hok _ _ Hj).
    destruct (jobs_ok_insert w job j (job_with_next_task_idx (u32 (next_task_idx j + 1)) j))
      as [Hok' Hadv]; try done.
    { simpl. rewrite u32_small by lia. lia. }
Qed.

Lemma jobs_ok_same w w' : jobs w' = jobs w → jobs_ok w → jobs_ok w'.
Proof. unfold jobs_ok. by intros ->. Qed.
Lemma advances_same w w' : jobs w' = jobs w → advances w w'.
Proof. unfold advances. intros -> job j ?. by exists j. Qed.

Ltac same_jobs := split; [by eapply jobs_ok_same | by apply advances_same].

Lemma keeps_cursors_handle_done core job :
  keeps_cursors (rocket_job_handle_done core job).
Proof.
  intros w [] w' Hok (j & Hj & Hcases)%handle_done_inv.
  destruct Hcases as [[Hlt Hsub]|(_ & c & f & d & _ & _ & _ & ->)].
  - by eapply hw_submit_guarded.
  - split; [by destruct (f_signaled d)|].
    intros job2 j2 Hj2. exists j2. by destruct (f_signaled d).
Qed.

Create HintDb keeps_cursors.
#[local] Hint Resolve keeps_cursors_handle_done : keeps_cursors.

Ltac keeps_cursors_tac :=
  repeat first
    [ solve [auto 1 with keeps_cursors nocore]
    | apply keeps_cursors_mret | apply keeps_cursors_oops
    | apply keeps_cursors_get | apply keeps_cursors_deref | apply keeps_cursors_emit
    | apply keeps_cursors_get_core | apply keeps_cursors_put_core
    | apply keeps_cursors_get_job | apply keeps_cursors_get_fence
    | apply keeps_cursors_put_fence | apply keeps_cursors_env_fails
    | apply keeps_cursors_bind; [|intros ?]
    | match goal with
      | |- keeps_cursors (match ?x with _ => _ end) => destruct x
      end ].

Lemma keeps_cursors_handle_irq core : keeps_cursors (rocket_job_handle_irq core).
Proof.
  unfold rocket_job_handle_irq, rocket_pc_writel, rocket_pc_readl. keeps_cursors_tac.
Qed.
#[local] Hint Resolve keeps_cursors_handle_irq : keeps_cursors.

Lemma keeps_cursors_job_run job : keeps_cursors (rocket_job_run job).
Proof.
  intros w r w' Hok. unfold rocket_job_run.
  mcase. mstep. mcase. mcase.
  case_bool_decide; [mstep; intros [= _ <-]; same_jobs|].
  case_bool_decide as Hne; [mstep; intros [= _ <-]; same_jobs|].
  mcase. unfold rocket_fence_create, kalloc.
  menv; [mstep; mstep; intros [= _ <-]; same_jobs|].
  do 3 mstep. mcase. do 5 mstep.
  match goal with H : jobs w !! job = Some ?j |- _ =>
    destruct (jobs_ok_insert w job j (job_with_done_fence (Some (next_ptr w)) j))
      as [Hok1 Hadv1]; [done..|destruct (Hok _ _ H); simpl; lia|];
    destruct (Hok _ _ H)
  end.
  menv; [mstep; intros [= _ <-]; split; [by eapply jobs_ok_same | done]|].
  mstep.
  menv; [mstep; intros [= _ <-]; split; [by eapply jobs_ok_same | done]|].
  mcase. mstep. rewrite bind_eq.
  match goal with |- context [rocket_job_hw_submit ?c ?j ?W] =>
    destruct (rocket_job_hw_submit c j W) as [[[] w1]|] eqn:Hsub; [|done]
  end.
  mstep. intros [= _ <-].
  eapply hw_submit_guarded in Hsub as [Hok2 Hadv2];
    [| by eapply jobs_ok_same | wsimpl; apply lookup_insert_eq | simpl; lia].
  split; [done|]. eapply advances_trans; [|done]. done.
Qed.
#[local] Hint Resolve keeps_cursors_job_run : keeps_cursors.

Lemma keeps_cursors_increase_karma core bad :
  keeps_cursors (drm_sched_increase_karma core bad).
Proof.
  intros w r w' Hok. unfold drm_sched_increase_karma.
  mcase. do 2 mstep. intros [= _ <-].
  match goal with H : jobs w !! bad = Some ?j |- _ =>
    destruct (jobs_ok_insert w bad j (job_with_karma (karma j + 1) j))
      as [Hok1 Hadv1]; [done..|destruct (Hok _ _ H); simpl; lia|]
  end.
  split; [by eapply jobs_ok_same | done].
Qed.
#[local] Hint Resolve keeps_cursors_increase_karma : keeps_cursors.

Lemma keeps_cursors_run_irq_thread core : keeps_cursors (run_irq_thread core).
Proof. unfold run_irq_thread, rocket_job_irq_handler_thread. keeps_cursors_tac. Qed.
#[local] Hint Resolve keeps_cursors_run_irq_thread : keeps_cursors.

Lemma keeps_cursors_raise_irq core dpu_0 dpu_1 :
  keeps_cursors (raise_irq core dpu_0 dpu_1).
Proof.
  unfold raise_irq, rocket_job_irq_handler, rocket_pc_readl, rocket_pc_writel.
  keeps_cursors_tac.
Qed.

Lemma keeps_cursors_synchronize_irq core : keeps_cursors (synchronize_irq core).
Proof. unfold synchronize_irq. keeps_cursors_tac. Qed.
#[local] Hint Resolve keeps_cursors_synchronize_irq : keeps_cursors.

Lemma keeps_cursors_reset core bad : keeps_cursors (rocket_reset core bad).
Proof.
  unfold rocket_reset, drm_sched_stop, drm_sched_resubmit_jobs, drm_sched_start,
    rocket_pc_writel.
  keeps_cursors_tac.
Qed.
#[local] Hint Resolve keeps_cursors_reset : keeps_cursors.

Lemma keeps_cursors_timedout job : keeps_cursors (rocket_job_timedout job).
Proof.
  unfold rocket_job_timedout, dma_fence_is_signaled. keeps_cursors_tac.
Qed.

Lemma keeps_cursors_run_op o : keeps_cursors (run_op o).
Proof.
  destruct o; unfold run_op, rocket_reset_work, rocket_job_irq_handler_thread;
    first [ apply keeps_cursors_raise_irq
          | keeps_cursors_tac; apply keeps_cursors_timedout
          | keeps_cursors_tac ].
Qed.

Lemma keeps_cursors_run_ops l : keeps_cursors (run_ops l).
Proof.
  induction l as [|o l IH]; simpl.
  - apply keeps_cursors_mret.
  - apply keeps_cursors_bind; [apply keeps_cursors_run_op | done].
Qed.

Lemma job_run_complete w job j r w' :
  jobs w !! job = Some j → next_task_idx j = task_count j →
  rocket_job_run job w = Some (r, w') → r = FenceNull ∧ w' = w.
Proof.
  intros Hj Heq. unfold rocket_job_run. mstep. mstep. mcase. mcase.
  case_bool_decide; [by mstep; intros [= <- <-]|].
  rewrite bool_decide_true by done. by mstep; intros [= <- <-].
Qed.

Lemma handle_done_complete_quiet w core job j w' :
  jobs w !! job = Some j → next_task_idx j = task_count j →
  rocket_job_handle_done core job w = Some (tt, w') →
  jobs w' = jobs w ∧ ∃ evs, trace w' = trace w ++ evs ∧ task_starts evs = 0%nat.
Proof.
  intros Hj Heq (j' & Hj' & Hcases)%handle_done_inv. simplify_eq.
  destruct Hcases as [[Hlt _]|(_ & c & f & d & _ & _ & _ & ->)]; [lia|].
  destruct (f_signaled d); (split; [done|]); eexists; (split; [wsimpl; reflexivity|done]).
Qed.

(** C9: along every sequence of dispatches, interrupts, completion
    handlings, timeouts and resets that the code carries out, starting from
    a state where every cursor is within its task count, every cursor stays
    within its task count and never moves backwards, the tasks and task
    count of a job never change, and a job whose cursor equals its task
    count stays so.  For such a complete job no task is issued: running it
    returns NULL and leaves the state untouched, and handling a completion
    for it writes no task start.  While a reset is pending on a core,
    dispatch is a no-op that leaves the whole state, cursor included, as it
    is. *)
Theorem cursor_monotone_and_bounded (l : list op) (w w' : world) :
  jobs_ok w →
  run_ops l w = Some (tt, w') →
  jobs_ok w' ∧ advances w w' ∧
  (∀ job j, jobs w !! job = Some j → next_task_idx j = task_count j →
     ∃ j', jobs w' !! job = Some j' ∧ task_count j' = task_count j ∧
           next_task_idx j' = task_count j') ∧
  (∀ w1 job j, jobs w1 !! job = Some j → next_task_idx j = task_count j →
     (∀ r w2, rocket_job_run job w1 = Some (r, w2) → r = FenceNull ∧ w2 = w1) ∧
     (∀ core w2, rocket_job_handle_done core job w1 = Some (tt, w2) →
        jobs w2 = jobs w1 ∧
        ∃ evs, trace w2 = trace w1 ++ evs ∧ task_starts evs = 0%nat)) ∧
  (∀ w1 core c job, cores w1 !! core = Some c → reset_pending c = true →
     rocket_job_hw_submit core job w1 = Some (tt, w1)).
Proof.
  intros Hok Hrun.
  destruct (keeps_cursors_run_ops l w tt w' Hok Hrun) as [Hok' Hadv].
  split; [done|]. split; [done|]. split; [|split].
  - intros job j Hj Heq. destruct (Hadv _ _ Hj) as (j' & Hj' & _ & Hc & Hi).
    exists j'. destruct (Hok' _ _ Hj'). repeat split; (done || lia).
  - intros w1 job j Hj Heq. split.
    + intros r w2. by apply job_run_complete with j.
    + intros core w2. by apply handle_done_complete_quiet with j.
  - intros w1 core c job. apply hw_submit_reset_pending.
Qed.

Lemma jobs_ok_ex_world : jobs_ok ex_world.
Proof.
  intros job j. unfold ex_world. wsimpl.
  intros [<- <-]%lookup_singleton_Some. simpl. lia.
Qed.

Lemma cursor_monotone_and_bounded_witness :
  ∃ w', run_ops [OpRunJob 10%nat; OpHandleIrq 0%nat; OpHandleIrq 0%nat;
                 OpResetWork 0%nat; OpRunJob 10%nat] ex_world = Some (tt, w') ∧
        jobs_ok w' ∧ advances ex_world w'.
Proof.
  eexists. split; [vm_compute; reflexivity|].
  edestruct (cursor_monotone_and_bounded
               [OpRunJob 10%nat; OpHandleIrq 0%nat; OpHandleIrq 0%nat;
                OpResetWork 0%nat; OpRunJob 10%nat] ex_world)
    as (Hok & Hadv & _); [exact jobs_ok_ex_world | vm_compute; reflexivity |].
  split; [exact Hok | exact Hadv].
Defined.

(** ** Reset and timeout *)

Lemma core_with_same_slot c : core_with_in_flight_job (in_flight_job c) c = c.
Proof. by destruct c. Qed.

(** The completion handler while a reset is pending: it may complete the
    in-flight job, and leaves everything else alone. *)
Lemma handle_irq_pending w core c :
  cores w !! core = Some c → reset_pending c = true → slot_ok w c →
  ∃ w' slot evs,
    rocket_job_handle_irq core w = Some (tt, w') ∧
    jobs w' = jobs w ∧ resvs w' = resvs w ∧ next_ptr w' = next_ptr w ∧
    rr_next w' = rr_next w ∧ env_fail w' = env_fail w ∧
    cores w' = <[core := core_with_in_flight_job slot c]> (cores w) ∧
    (slot = None ∨ slot = in_flight_job c) ∧
    (∀ f, is_Some (fences w' !! f) ↔ is_Some (fences w !! f)) ∧
    trace w' = trace w ++ evs ∧
    Forall (λ e, is_reset_event e = false) evs ∧ task_starts evs = 0%nat.
Proof.
  intros Hc Hp Hslot. unfold slot_ok in Hslot.
  destruct (in_flight_job c) as [job|] eqn:Hin.
  - destruct Hslot as (j & Hj & Hcase).
    destruct (decide (next_task_idx j < task_count j)) as [Hlt|Hge].
    + exists (add_events (handle_irq_events core) w), (Some job), (handle_irq_events core).
      rewrite (handle_irq_deferred w core c job j) by done. wsimpl. rewrite <- Hin, core_with_same_slot.
      rewrite list_insert_id by done.
      repeat split; try done; [by right | repeat constructor].
    + destruct Hcase as [?|(f & d & Hf & Hd)]; [done|].
      rewrite handle_irq_eq, Hc, Hin.
      destruct (rocket_job_handle_done core job (add_events (handle_irq_events core) w))
        as [[[] w']|] eqn:Hdone.
      * apply handle_done_inv in Hdone as (j' & Hj' & [[? _]|(_ & c' & f' & d' & Hc' & Hf' & Hd' & ->)]);
          revert Hj' ; wsimpl; intros Hj'; simplify_eq; [done|].
        revert Hc' Hd'; wsimpl; intros Hc' Hd'. simplify_eq.
        destruct (f_signaled d) eqn:Hsig;
          [ eexists _, None,
              (handle_irq_events core ++
               [EvIommuDetach core; EvPm core pm_runtime_put_autosuspend])
          | eexists _, None,
              (handle_irq_events core ++
               [EvIommuDetach core; EvFenceSignal f;
                EvPm core pm_runtime_put_autosuspend]) ];
          (split; [reflexivity|]);
          (split_and!; wsimpl; try done; try (by left);
           try (by rewrite <- app_assoc); try (by repeat constructor)).
        intros f0. destruct (decide (f = f0)) as [<-|Hne].
        -- rewrite lookup_insert_eq, Hd. by split.
        -- by rewrite lookup_insert_ne.
      * exfalso. unfold rocket_job_handle_done, dma_fence_signal_locked in Hdone.
        revert Hdone. mstep. rewrite bool_decide_false by done.
        do 3 mstep. rewrite Hf. do 2 mstep.
        destruct (f_signaled d); by repeat mstep.
  - exists (add_events (handle_irq_events core) w), None, (handle_irq_events core).
    rewrite handle_irq_eq, Hc, Hin. wsimpl. rewrite <- Hin, core_with_same_slot.
    rewrite list_insert_id by done.
    repeat split; try done; [by left | repeat constructor].
Qed.

Lemma slot_ok_transfer w w' c c' :
  slot_ok w c →
  (∀ job j, jobs w !! job = Some j →
     ∃ j', jobs w' !! job = Some j' ∧ next_task_idx j' = next_task_idx j ∧
           task_count j' = task_count j ∧ done_fence j' = done_fence j) →
  (∀ f, is_Some (fences w !! f) → is_Some (fences w' !! f)) →
  in_flight_job c' = None ∨ in_flight_job c' = in_flight_job c →
  slot_ok w' c'.
Proof.
  unfold slot_ok. intros Hslot Hjobs Hfences [->| ->]; [done|].
  destruct (in_flight_job c) as [job|]; [|done].
  destruct Hslot as (j & Hj & Hcase).
  destruct (Hjobs _ _ Hj) as (j' & Hj' & Hi & Hc & Hf).
  exists j'. split; [done|]. rewrite Hi, Hc, Hf.
  destruct Hcase as [?|(f & d & Hdf & Hd)]; [by left|right].
  destruct (Hfences f) as [d' Hd']; [by eexists|]. by exists f, d'.
Qed.

Lemma same_jobs_cursors w w' :
  jobs w' = jobs w →
  ∀ job j, jobs w !! job = Some j →
    ∃ j', jobs w' !! job = Some j' ∧ next_task_idx j' = next_task_idx j ∧
          task_count j' = task_count j ∧ done_fence j' = done_fence j.
Proof. intros -> job j Hj. by exists j. Qed.

(** Synchronising with the interrupt handler while a reset is pending. *)
Lemma synchronize_irq_pending w core c :
  cores w !! core = Some c → reset_pending c = true → slot_ok w c →
  ∃ w' slot evs,
    synchronize_irq core w = Some (tt, w') ∧
    jobs w' = jobs w ∧ resvs w' = resvs w ∧ next_ptr w' = next_ptr w ∧
    rr_next w' = rr_next w ∧ env_fail w' = env_fail w ∧
    cores w' = <[core := core_with_irq_thread_pending false
                            (core_with_in_flight_job slot c)]> (cores w) ∧
    (slot = None ∨ slot = in_flight_job c) ∧
    (∀ f, is_Some (fences w' !! f) ↔ is_Some (fences w !! f)) ∧
    trace w' = trace w ++ evs ∧
    Forall (λ e, is_reset_event e = false) evs ∧ task_starts evs = 0%nat.
Proof.
  intros Hc Hp Hslot. apply lookup_lt_Some in Hc as Hlen.
  unfold synchronize_irq, run_irq_thread, rocket_job_irq_handler_thread.
  do 2 mstep. destruct (irq_thread_pending c) eqn:Hirq.
  - mstep.
    edestruct (handle_irq_pending
                 (set_cores <[core:=core_with_irq_thread_pending false c]>
                    (add_events [EvSynchronizeIrq core] w)) core
                 (core_with_irq_thread_pending false c))
      as (w' & slot & evs & Hrun & Hjobs & Hresvs & Hnext & Hrr & Henv & Hcores
          & Hs & Hfences & Htr & Hq & Hst); [lookup_tac | done | done |].
    rewrite !bind_eq, Hrun. cbv beta iota. do 2 mstep.
    exists w', slot, (EvSynchronizeIrq core :: evs).
    split; [done|]. revert Hcores Htr. wsimpl. intros Hcores Htr.
    split_and!; try done.
    + by rewrite Hcores, list_insert_insert_eq.
    + by rewrite Htr, <- app_assoc.
    + by constructor.
  - mstep. exists (add_events [EvSynchronizeIrq core] w), (in_flight_job c),
             [EvSynchronizeIrq core].
    split; [done|]. wsimpl. rewrite core_with_same_slot.
    replace (core_with_irq_thread_pending false c) with c
      by (by destruct c; simpl in *; subst).
    rewrite list_insert_id by done.
    split_and!; try done; [by right | repeat constructor].
Qed.

Lemma jobs_after_reset_lookup bad js job j :
  js !! job = Some j →
  ∃ j', jobs_after_reset bad js !! job = Some j' ∧
        tasks j' = tasks j ∧ task_count j' = task_count j ∧
        next_task_idx j' = next_task_idx j ∧ done_fence j' = done_fence j ∧
        base_sched j' = base_sched j ∧ s_fence_finished j' = s_fence_finished j.
Proof.
  intros Hj. destruct bad as [b|]; simpl; [|by exists j].
  destruct (decide (b = job)) as [->|Hne].
  - rewrite lookup_alter_eq, Hj. by eexists.
  - rewrite lookup_alter_ne by done. by exists j.
Qed.

(** The reset path, run with the reset flag set. *)
Lemma rocket_reset_spec w core c bad :
  cores w !! core = Some c → reset_pending c = true →
  slot_ok w c → bad_ok w bad →
  ∃ w' evs,
    rocket_reset core bad w = Some (tt, w') ∧
    cores w' = <[core := core_after_reset c]> (cores w) ∧
    jobs w' = jobs_after_reset bad (jobs w) ∧
    resvs w' = resvs w ∧ next_ptr w' = next_ptr w ∧
    rr_next w' = rr_next w ∧ env_fail w' = env_fail w ∧
    (∀ f, is_Some (fences w' !! f) ↔ is_Some (fences w !! f)) ∧
    trace w' = trace w ++ evs ∧
    EvPm core pm_runtime_force_suspend ∈ evs ∧ task_starts evs = 0%nat.
Proof.
  intros Hc Hp Hslot Hbad. apply lookup_lt_Some in Hc as Hlen.
  unfold rocket_reset. mstep. rewrite Hp. cbn [negb].
  unfold drm_sched_stop. do 3 mstep.
  set (c1 := core_with_sched (sched_with_stopped true (sched c)) c).
  (* the state once the guilty job has been blamed *)
  assert (∃ w1 evs1,
    (match bad with
     | Some b => drm_sched_increase_karma core b
     | None => mret tt
     end) (add_events [EvSched core drm_sched_stop_op] (set_cores <[core:=c1]> w))
      = Some (tt, w1) ∧
    cores w1 = <[core:=c1]> (cores w) ∧ jobs w1 = jobs_after_reset bad (jobs w) ∧
    fences w1 = fences w ∧ resvs w1 = resvs w ∧ next_ptr w1 = next_ptr w ∧
    rr_next w1 = rr_next w ∧ env_fail w1 = env_fail w ∧
    trace w1 = trace w ++ evs1 ∧ task_starts evs1 = 0%nat)
    as (w1 & evs1 & Hrun1 & Hcores1 & Hjobs1 & Hfences1 & Hresvs1 & Hnext1 & Hrr1
        & Henv1 & Htr1 & Hst1).
  { destruct bad as [b|]; simpl in *.
    - destruct Hbad as [jb Hjb]. unfold drm_sched_increase_karma. do 3 mstep.
      eexists _, _. split; [reflexivity|]. wsimpl.
      split_and!; try done; [|by rewrite <- app_assoc|done].
      apply map_eq. intros i. destruct (decide (b = i)) as [->|Hne].
      + by rewrite lookup_insert_eq, lookup_alter_eq, Hjb.
      + by rewrite lookup_insert_ne, lookup_alter_ne.
    - eexists _, _. split; [reflexivity|]. wsimpl. by split_and!. }
  rewrite bind_eq, Hrun1. cbv beta iota. unfold rocket_pc_writel. mstep.
  assert (slot_ok w1 c1) as Hslot1.
  { eapply slot_ok_transfer; [done| |by rewrite Hfences1|by right].
    intros job j Hj. rewrite Hjobs1.
    destruct (jobs_after_reset_lookup bad _ _ _ Hj) as (j' & ? & ? & ? & ? & ? & _).
    by exists j'. }
  edestruct (synchronize_irq_pending
               (add_events [EvWritel core PC INTERRUPT_MASK (Lit 0)] w1) core c1)
    as (w2 & slot2 & evs2 & Hrun2 & Hjobs2 & Hresvs2 & Hnext2 & Hrr2 & Henv2 & Hcores2
        & Hs2 & Hfences2 & Htr2 & Hq2 & Hst2);
    [wsimpl; rewrite Hcores1; by apply list_lookup_insert_eq | done | done |].
  rewrite bind_eq, Hrun2. cbv beta iota.
  revert Hjobs2 Hresvs2 Hnext2 Hrr2 Henv2 Hcores2 Hfences2 Htr2. wsimpl.
  intros Hjobs2 Hresvs2 Hnext2 Hrr2 Henv2 Hcores2 Hfences2 Htr2.
  set (c2 := core_with_irq_thread_pending false (core_with_in_flight_job slot2 c1)) in *.
  assert (cores w2 !! core = Some c2) as Hc2.
  { rewrite Hcores2. apply list_lookup_insert_eq. by rewrite Hcores1, length_insert. }
  edestruct (handle_irq_pending w2 core c2)
    as (w3 & slot3 & evs3 & Hrun3 & Hjobs3 & Hresvs3 & Hnext3 & Hrr3 & Henv3 & Hcores3
        & Hs3 & Hfences3 & Htr3 & Hq3 & Hst3); [done | done | |].
  { eapply slot_ok_transfer; [exact Hslot1 | by apply same_jobs_cursors
      | by intros f ?; apply Hfences2 | done]. }
  rewrite bind_eq, Hrun3. cbv beta iota.
  set (c3 := core_with_in_flight_job slot3 c2) in *.
  assert (cores w3 !! core = Some c3) as Hc3.
  { rewrite Hcores3. apply list_lookup_insert_eq. by apply lookup_lt_Some in Hc2. }
  mstep.
  assert (core_after_reset c =
          core_with_sched
            (sched_with_stopped false
               (sched_with_pending_list []
                  (sched_with_queue (pending_list (sched c3) ++ sched_queue (sched c3))
                     (sched c3))))
            (core_with_reset_pending false (core_with_in_flight_job None c3)))
    as Hfinal.
  { unfold c3, c2, c1. by destruct c as [? ? ? ? ? []]. }
  assert (trace w3 = trace w ++ evs1 ++ [EvWritel core PC INTERRUPT_MASK (Lit 0)]
                             ++ evs2 ++ evs3) as Htr.
  { rewrite Htr3, Htr2, Htr1. by rewrite <- !app_assoc. }
  assert (∀ f, is_Some (fences w3 !! f) ↔ is_Some (fences w !! f)) as Hfences.
  { intros f. by rewrite Hfences3, Hfences2, Hfences1. }
  unfold drm_sched_resubmit_jobs, drm_sched_start.
  destruct (in_flight_job c3);
    repeat mstep; wnorm;
    (eexists _, _; split; [reflexivity|]); wsimpl;
    rewrite Hcores3, Hcores2, Hcores1, !list_insert_insert_eq, Hfinal,
            Hjobs3, Hjobs2, Hjobs1, Hresvs3, Hresvs2, Hresvs1, Hnext3, Hnext2, Hnext1,
            Hrr3, Hrr2, Hrr1, Henv3, Henv2, Henv1, Htr, <- !app_assoc;
    (split_and!; try done);
    rewrite ?task_starts_app, ?Hst1, ?Hst2, ?Hst3; try done;
    rewrite !elem_of_app, !elem_of_cons; eauto 12.
Qed.

(** C8: when the reset path has run on a core whose reset flag was set, the
    reset flag of the core is clear and its in-flight slot is empty, the
    jobs that had been handed to the core and had not finished are back on
    the queue of its scheduler, which is started again, and every job has
    the cursor, tasks and task count it had before.  Run again on that
    core, a job whose cursor is below its task count has the task at its
    cursor issued (and its cursor advanced by one), and a job whose cursor
    equals its task count has nothing issued: the run returns NULL and
    leaves the state as it is. *)
Theorem reset_recovery (w : world) (core : nat) (c : rocket_core) (bad : option ptr) :
  cores w !! core = Some c → reset_pending c = true →
  slot_ok w c → bad_ok w bad →
  ∃ w' c',
    rocket_reset core bad w = Some (tt, w') ∧
    cores w' !! core = Some c' ∧
    reset_pending c' = false ∧ in_flight_job c' = None ∧
    sched_queue (sched c') = pending_list (sched c) ++ sched_queue (sched c) ∧
    pending_list (sched c') = [] ∧ sched_stopped (sched c') = false ∧
    (∀ job j, jobs w !! job = Some j →
       ∃ j', jobs w' !! job = Some j' ∧ next_task_idx j' = next_task_idx j ∧
             tasks j' = tasks j ∧ task_count j' = task_count j) ∧
    (∀ job j' fin dfin task,
       jobs w' !! job = Some j' → base_sched j' = core →
       s_fence_finished j' = Some fin → fences w' !! fin = Some dfin → f_error dfin = 0 →
       env_fail w = [] →
       0 ≤ next_task_idx j' < task_count j' → task_count j' < 2 ^ 32 →
       tasks j' !! Z.to_nat (next_task_idx j') = Some task →
       ∃ w2 j2,
         rocket_job_run job w' = Some (Fence (next_ptr w'), w2) ∧
         trace w2 = trace w' ++ [EvPm core pm_runtime_get_sync;
                                 EvIommuAttach (domain j') core]
                             ++ hw_submit_events core task ∧
         jobs w2 !! job = Some j2 ∧ next_task_idx j2 = next_task_idx j' + 1 ∧
         ∃ c2, cores w2 !! core = Some c2 ∧ in_flight_job c2 = Some job) ∧
    (∀ job j' fin dfin,
       jobs w' !! job = Some j' →
       s_fence_finished j' = Some fin → fences w' !! fin = Some dfin →
       next_task_idx j' = task_count j' →
       rocket_job_run job w' = Some (FenceNull, w')).
Proof.
  intros Hc Hp Hslot Hbad. apply lookup_lt_Some in Hc as Hlen.
  destruct (rocket_reset_spec w core c bad Hc Hp Hslot Hbad)
    as (w' & evs & Hrun & Hcores & Hjobs & Hresvs & Hnext & Hrr & Henv & Hfences & Htr & _).
  assert (cores w' !! core = Some (core_after_reset c)) as Hc'.
  { rewrite Hcores. by apply list_lookup_insert_eq. }
  exists w', (core_after_reset c). split_and!; try done.
  - intros job j Hj. rewrite Hjobs.
    destruct (jobs_after_reset_lookup bad _ _ _ Hj) as (j' & ? & ? & ? & ? & _).
    by exists j'.
  - intros job j' fin dfin task Hj' Hs Hfin Hdfin Herr Henv0 Hi Hmax Ht.
    eexists _, _. split.
    { eapply job_run_issue; try done; [lia | congruence]. }
    unfold job_run_world. wsimpl. rewrite lookup_insert_eq.
    split_and!; try done.
    + simpl. apply u32_small. lia.
    + eexists. split; [by apply list_lookup_insert_eq; rewrite Hcores, length_insert|done].
  - intros job j' fin dfin Hj' Hfin Hdfin Heq.
    unfold rocket_job_run. mstep. mstep. rewrite Hfin. do 2 mstep.
    case_bool_decide; [done|]. by rewrite bool_decide_true.
Qed.

Lemma reset_recovery_witness :
  ∃ w' c',
    rocket_reset 0%nat (Some 10%nat) (ex_running 1 true) = Some (tt, w') ∧
    cores w' !! 0%nat = Some c' ∧
    reset_pending c' = false ∧ in_flight_job c' = None ∧
    sched_queue (sched c') = [10%nat] ∧
    ∃ j', jobs w' !! 10%nat = Some j' ∧ next_task_idx j' = 1.
Proof.
  destruct (reset_recovery (ex_running 1 true) 0%nat
              (mk_core (Some 10%nat) true 7 1 false (mk_sched [] [10%nat] false))
              (Some 10%nat) eq_refl eq_refl)
    as (w' & c' & Hrun & Hc' & Hp & Hin & Hq & _ & _ & Hjobs & _).
  - eexists. split; [reflexivity|]. left. simpl. lia.
  - eexists. reflexivity.
  - exists w', c'. split_and!; try done.
    destruct (Hjobs 10%nat _ eq_refl) as (j' & Hj' & Hi & _). by exists j'.
Defined.

(** *** The timeout handler *)

Lemma irq_frame_refl w : irq_frame w w.
Proof.
  split_and!; try done; [by eauto|]. exists []. by rewrite app_nil_r.
Qed.

Lemma irq_frame_trans w1 w2 w3 : irq_frame w1 w2 → irq_frame w2 w3 → irq_frame w1 w3.
Proof.
  intros (Hj1 & Hf1 & Hp1 & Hs1 & evs1 & Ht1 & Hq1) (Hj2 & Hf2 & Hp2 & Hs2 & evs2 & Ht2 & Hq2).
  split_and!; [|by eauto|congruence|congruence|].
  - intros job j Hj. destruct (Hj1 _ _ Hj) as (j' & Hj' & Hd).
    destruct (Hj2 _ _ Hj') as (j'' & Hj'' & Hd'). exists j''. split; [done|congruence].
  - exists (evs1 ++ evs2). rewrite Ht2, Ht1, app_assoc. split; [done|].
    by apply Forall_app.
Qed.

Lemma irq_frame_events l w :
  Forall (λ e, is_reset_event e = false) l → irq_frame w (add_events l w).
Proof. intros Hl. split_and!; try done; [by eauto|]. by exists l. Qed.

Lemma irq_frame_put_core w core c c' :
  cores w !! core = Some c →
  reset_pending c' = reset_pending c → sched c' = sched c →
  irq_frame w (set_cores (insert core c') w).
Proof.
  intros Hc Hp Hs. split_and!; wsimpl; try done; [by eauto| | |].
  - rewrite list_fmap_insert, Hp. apply list_insert_id. by rewrite list_lookup_fmap, Hc.
  - rewrite list_fmap_insert, Hs. apply list_insert_id. by rewrite list_lookup_fmap, Hc.
  - exists []. by rewrite app_nil_r.
Qed.

Lemma irq_frame_put_job w job j j' :
  jobs w !! job = Some j → done_fence j' = done_fence j →
  irq_frame w (set_jobs (insert job j') w).
Proof.
  intros Hj Hd. split_and!; wsimpl; try done.
  - intros job2 j2 Hj2. destruct (decide (job = job2)) as [<-|Hne].
    + rewrite lookup_insert_eq. exists j'. split; [done|congruence].
    + rewrite lookup_insert_ne by done. by exists j2.
  - exists []. by rewrite app_nil_r.
Qed.

Lemma irq_frame_put_fence w f d :
  irq_frame w (set_fences (insert f d) w).
Proof.
  split_and!; wsimpl; try done; [by eauto| |].
  - intros f2 Hf2. destruct (decide (f = f2)) as [<-|Hne].
    + by rewrite lookup_insert_eq.
    + by rewrite lookup_insert_ne.
  - exists []. by rewrite app_nil_r.
Qed.

Lemma handle_irq_frame w core w' :
  rocket_job_handle_irq core w = Some (tt, w') → irq_frame w w'.
Proof.
  rewrite handle_irq_eq.
  destruct (cores w !! core) as [c|] eqn:Hc; [|done].
  assert (irq_frame w (add_events (handle_irq_events core) w)) as Hirq
    by (apply irq_frame_events; repeat constructor).
  destruct (in_flight_job c) as [job|] eqn:Hin; [|by intros [= <-]].
  intros (j & Hj & Hcases)%handle_done_inv. revert Hj; wsimpl; intros Hj.
  eapply irq_frame_trans; [exact Hirq|].
  destruct Hcases as [[Hlt Hsub]|(Hge & c' & f & d & Hc' & Hf & Hd & ->)].
  - apply hw_submit_cases in Hsub
      as [(? & _ & _ & ->)|(? & j' & task & _ & _ & Hj' & _ & ->)];
      [apply irq_frame_refl|].
    eapply irq_frame_trans;
      [by eapply (irq_frame_put_job _ job j' (job_with_next_task_idx _ j'))|].
    apply irq_frame_events. repeat constructor.
  - revert Hc'; wsimpl; intros Hc'. simplify_eq.
    destruct (f_signaled d).
    + eapply irq_frame_trans;
        [by eapply (irq_frame_put_core _ core c (core_with_in_flight_job None c))|].
      apply irq_frame_events. repeat constructor.
    + eapply irq_frame_trans;
        [by eapply (irq_frame_put_core _ core c (core_with_in_flight_job None c))|].
      eapply irq_frame_trans; [apply irq_frame_put_fence|].
      apply irq_frame_events. repeat constructor.
Qed.

Lemma synchronize_irq_frame w core w' :
  synchronize_irq core w = Some (tt, w') → irq_frame w w'.
Proof.
  unfold synchronize_irq, run_irq_thread, rocket_job_irq_handler_thread.
  mstep. mcase.
  assert (irq_frame w (add_events [EvSynchronizeIrq core] w)) as Hsync
    by (apply irq_frame_events; repeat constructor).
  match goal with |- context [irq_thread_pending ?c] =>
    destruct (irq_thread_pending c) eqn:Hirq end; [|by mstep; intros [= <-]].
  mstep. rewrite !bind_eq.
  match goal with |- context [rocket_job_handle_irq ?c ?W] =>
    destruct (rocket_job_handle_irq c W) as [[[] w1]|] eqn:Hrun; [|done]
  end.
  do 2 mstep. intros [= <-].
  eapply irq_frame_trans; [exact Hsync|].
  eapply irq_frame_trans; [|by eapply handle_irq_frame].
  match goal with H : cores _ !! core = Some ?c |- _ =>
    by eapply (irq_frame_put_core _ core c (core_with_irq_thread_pending false c))
  end.
Qed.

(** C7: the timeout handler resets the hardware only if the done-fence of
    the job is unsignaled when the timeout fires and still unsignaled after
    the interrupt handler has been synchronized with.  If the fence is
    signaled at the first check, the handler returns with the state
    untouched.  If it is signaled at the second check, the handler returns
    with the state the synchronization left, in which no reset flag and no
    scheduler has changed and no event of the reset path has happened.  If
    it is unsignaled at both, the handler sets the reset flag and runs the
    reset path, which power-cycles the core and leaves it with an empty slot
    and a clear reset flag. *)
Theorem timeout_resets_only_if_still_unsignaled
    (w : world) (job : ptr) (j : rocket_job) (f : ptr) (d : dma_fence) (core : nat) :
  jobs w !! job = Some j → done_fence j = Some f → fences w !! f = Some d →
  sched_to_core w (base_sched j) = Some core →
  (f_signaled d = true →
     rocket_job_timedout job w = Some (DRM_GPU_SCHED_STAT_NOMINAL, w)) ∧
  (f_signaled d = false →
     ∀ w1, synchronize_irq core w = Some (tt, w1) →
       irq_frame w w1 ∧
       (fence_signaled w1 f = true →
          rocket_job_timedout job w = Some (DRM_GPU_SCHED_STAT_NOMINAL, w1)) ∧
       (fence_signaled w1 f = false →
          rocket_job_timedout job w = timedout_reset core job w1 ∧
          ∀ c1, cores w1 !! core = Some c1 → slot_ok w1 c1 →
            ∃ w' evs,
              rocket_job_timedout job w = Some (DRM_GPU_SCHED_STAT_NOMINAL, w') ∧
              trace w' = trace w1 ++ evs ∧
              EvPm core pm_runtime_force_suspend ∈ evs ∧
              cores w' = <[core := core_after_reset c1]> (cores w1))).
Proof.
  intros Hj Hf Hd Hcore. split.
  - intros Hs. unfold rocket_job_timedout, dma_fence_is_signaled.
    do 2 mstep. rewrite Hf. do 3 mstep. by rewrite Hs.
  - intros Hs w1 Hsync.
    pose proof (synchronize_irq_frame _ _ _ Hsync) as Hframe.
    split; [done|].
    destruct Hframe as (Hjobs & Hfences & _).
    destruct (Hjobs _ _ Hj) as (j1 & Hj1 & Hf1). rewrite Hf in Hf1.
    destruct (Hfences f) as [d1 Hd1]; [by eexists|].
    assert (rocket_job_timedout job w =
            if f_signaled d1 then Some (DRM_GPU_SCHED_STAT_NOMINAL, w1)
            else timedout_reset core job w1) as Heq.
    { unfold rocket_job_timedout, dma_fence_is_signaled.
      do 2 mstep. rewrite Hf. do 3 mstep. rewrite Hs, Hcore. mstep.
      rewrite bind_eq, Hsync. cbv beta iota. mstep. rewrite Hf1. do 3 mstep.
      by destruct (f_signaled d1). }
    unfold fence_signaled. rewrite Hd1, Heq. split; [by intros ->|].
    intros ->. split; [done|].
    intros c1 Hc1 Hslot.
    apply lookup_lt_Some in Hc1 as Hlen.
    edestruct (rocket_reset_spec
                 (set_cores <[core:=core_with_reset_pending true c1]> w1) core
                 (core_with_reset_pending true c1) (Some job))
      as (w' & evs & Hrun & Hcores & _ & _ & _ & _ & _ & _ & Htr & Hin & _);
      [lookup_tac | done | | by wsimpl; eexists |].
    { eapply slot_ok_transfer; [exact Hslot | by apply same_jobs_cursors
        | done | by right]. }
    unfold timedout_reset. do 2 mstep. rewrite bind_eq, Hrun. cbv beta iota.
    do 2 mstep. eexists _, (evs ++ [EvIommuDetach core]).
    split; [done|]. revert Hcores Htr. wsimpl. intros Hcores Htr.
    split_and!.
    + by rewrite Htr, app_assoc.
    + apply elem_of_app. by left.
    + by rewrite Hcores, list_insert_insert_eq.
Qed.

Lemma timeout_resets_only_if_still_unsignaled_witness :
  rocket_job_timedout 10%nat
      (set_fences (insert 1%nat (mk_fence 7 1 true 0)) (ex_running 2 false)) =
    Some (DRM_GPU_SCHED_STAT_NOMINAL,
          set_fences (insert 1%nat (mk_fence 7 1 true 0)) (ex_running 2 false)) ∧
  ∃ w', rocket_job_timedout 10%nat (ex_running 1 false) =
          Some (DRM_GPU_SCHED_STAT_NOMINAL, w') ∧
        EvPm 0%nat pm_runtime_force_suspend ∈ trace w' ∧
        (in_flight_job <$> cores w') = [None] ∧
        (reset_pending <$> cores w') = [false].
Proof.
  split.
  - refine (proj1 (timeout_resets_only_if_still_unsignaled
                     (set_fences (insert 1%nat (mk_fence 7 1 true 0)) (ex_running 2 false))
                     10%nat _ 1%nat (mk_fence 7 1 true 0) 0%nat _ _ _ _) _);
      reflexivity.
  - destruct (timeout_resets_only_if_still_unsignaled
                (ex_running 1 false) 10%nat _ 1%nat (mk_fence 7 1 false 0) 0%nat
                eq_refl eq_refl eq_refl eq_refl) as [_ Hrun].
    edestruct (Hrun eq_refl) as (_ & _ & Hreset); [vm_compute; reflexivity|].
    destruct (Hreset eq_refl) as [_ Hgo].
    edestruct Hgo as (w' & evs & Hw' & Htr & Hev & Hcores); [reflexivity| |].
    { eexists. split; [reflexivity|]. left. simpl. lia. }
    exists w'. split; [exact Hw'|]. rewrite Htr, Hcores. split.
    + apply elem_of_app. by right.
    + by split.
Defined.
(** ** Dependency tracking *)

Lemma resv_of_same w w' bo : resvs w' = resvs w → resv_of w' bo = resv_of w bo.
Proof. unfold resv_of. by intros ->. Qed.

(** What acquiring the fences of some buffers does, whatever the failure
    schedule: only the dependencies of the job grow, and on success they
    grow by the wait set of the buffers. *)
Lemma acquire_inv bos job is_write w r w' k :
  rocket_acquire_object_fences bos job is_write w = Some (r, w') →
  jobs w !! job = Some k →
  ∃ extra,
    jobs w' = <[job := job_with_dependencies (dependencies k ++ extra) k]> (jobs w) ∧
    (r = 0 → extra = wait_set w bos is_write) ∧
    cores w' = cores w ∧ fences w' = fences w ∧ resvs w' = resvs w ∧
    next_ptr w' = next_ptr w ∧ rr_next w' = rr_next w ∧ trace w' = trace w.
Proof.
  revert w k. induction bos as [|bo bos IH]; intros w k; simpl.
  - intros [= <- <-] Hk. exists []. rewrite app_nil_r.
    replace (job_with_dependencies (dependencies k) k) with k by (by destruct k).
    by rewrite insert_id.
  - unfold dma_resv_reserve_fences, drm_sched_job_add_implicit_dependencies.
    intros Hrun Hk. revert Hrun.
    menv.
    { mstep. rewrite bool_decide_true by done. mstep. intros [= <- <-].
      exists []. rewrite app_nil_r.
      replace (job_with_dependencies (dependencies k) k) with k by (by destruct k).
      rewrite insert_id by done. by split_and!. }
    mstep. rewrite bool_decide_false by (by intros H; apply H).
    menv.
    { mstep. rewrite bool_decide_true by done. mstep. intros [= <- <-].
      exists []. rewrite app_nil_r.
      replace (job_with_dependencies (dependencies k) k) with k by (by destruct k).
      rewrite insert_id by done. by split_and!. }
    do 4 mstep. rewrite bool_decide_false by (by intros H; apply H).
    intros Hrun.
    eapply IH in Hrun as (extra & Hjobs & Hextra & Hcores & Hfences & Hresvs & Hnext & Hrr & Htr);
      [|lookup_tac].
    revert Hjobs Hextra Hcores Hfences Hresvs Hnext Hrr Htr. wsimpl.
    intros Hjobs Hextra Hcores Hfences Hresvs Hnext Hrr Htr.
    exists (implicit_fences (resv_of w bo) is_write ++ extra).
    split_and!; try done.
    + rewrite Hjobs, insert_insert_eq. simpl. by rewrite app_assoc.
    + intros ->%Hextra. unfold wait_set. simpl. by f_equal.
Qed.

Lemma wait_set_same w w' bos wr :
  resvs w' = resvs w → wait_set w' bos wr = wait_set w bos wr.
Proof. unfold wait_set, resv_of. by intros ->. Qed.

Lemma attach_eq bos fence w :
  rocket_attach_object_fences bos fence w =
    Some (tt, set_resvs (attach_all fence bos) w).
Proof.
  revert w. induction bos as [|bo bos IH]; intros w; simpl.
  - rewrite mret_eq. do 2 f_equal. by destruct w.
  - unfold dma_resv_add_fence. do 2 mstep. rewrite IH. by destruct w.
Qed.

Lemma attach_all_out fence bos rs bo :
  bo ∈ bos → attach_all fence bos rs !! bo = Some (mk_resv (Some fence) []).
Proof.
  unfold attach_all. revert rs. induction bos as [|b bos IH] using rev_ind; intros rs.
  - by intros ?%elem_of_nil.
  - rewrite foldl_snoc. intros [Hin| ->%list_elem_of_singleton]%elem_of_app.
    + destruct (decide (b = bo)) as [->|Hne].
      * by rewrite lookup_insert_eq.
      * rewrite lookup_insert_ne by done. by apply IH.
    + by rewrite lookup_insert_eq.
Qed.

Lemma attach_all_other fence bos rs bo :
  bo ∉ bos → attach_all fence bos rs !! bo = rs !! bo.
Proof.
  unfold attach_all. revert rs. induction bos as [|b bos IH]; intros rs; simpl; [done|].
  intros [Hne Hnin]%not_elem_of_cons. rewrite IH by done. by rewrite lookup_insert_ne.
Qed.

(** What pushing a job does, whatever the failure schedule. *)
Lemma push_inv job w r w' k :
  rocket_job_push job w = Some (r, w') →
  jobs w !! job = Some k →
  ∃ k' extra,
    jobs w' = <[job := k']> (jobs w) ∧
    tasks k' = tasks k ∧ task_count k' = task_count k ∧
    next_task_idx k' = next_task_idx k ∧
    in_bos k' = in_bos k ∧ out_bos k' = out_bos k ∧
    s_fence_finished k' = s_fence_finished k ∧ done_fence k' = done_fence k ∧
    dependencies k' = dependencies k ++ extra ∧
    trace w' = trace w ∧
    (r = 0 →
       ∃ fin c,
         s_fence_finished k = Some fin ∧ inference_done_fence k' = Some fin ∧
         extra = wait_set w (in_bos k) false ++ wait_set w (out_bos k) true ∧
         resvs w' = attach_all fin (out_bos k) (resvs w) ∧
         cores w !! base_sched k' = Some c ∧
         cores w' = <[base_sched k' :=
                        core_with_sched
                          (sched_with_queue (sched_queue (sched c) ++ [job]) (sched c)) c]>
                      (cores w)) ∧
    (r ≠ 0 → resvs w' = resvs w ∧ cores w' = cores w).
Proof.
  intros Hrun Hk. revert Hrun. unfold rocket_job_push.
  mstep. unfold kvmalloc_array.
  assert (∀ l (P : Prop),
    (∀ w1, jobs w1 = jobs w → cores w1 = cores w → fences w1 = fences w →
           resvs w1 = resvs w → rr_next w1 = rr_next w → trace w1 = trace w →
           l w1 = Some (r, w') → P) →
    ((if bool_decide (Z.of_nat (length (in_bos k ++ out_bos k)) = 0)
      then mret true else env_fails ≫= λ failed, mret (negb failed)) ≫=
     (λ allocated : bool, if negb allocated then oops else l)) w = Some (r, w') → P)
    as Halloc.
  { intros l P HP. case_bool_decide.
    - mstep. cbn [negb]. by apply HP.
    - menv; mstep; cbn [negb]; [done|]. by apply HP. }
  apply Halloc. clear Halloc. intros w1 Hjobs1 Hcores1 Hfences1 Hresvs1 Hrr1 Htr1.
  unfold drm_gem_lock_reservations.
  assert (jobs w1 !! job = Some k) as Hk1 by (by rewrite Hjobs1).
  menv.
  { mstep. rewrite bool_decide_true by done. mstep. intros [= <- <-].
    exists k, []. rewrite app_nil_r. wsimpl. rewrite Hjobs1, insert_id by done.
    split_and!; try done. }
  mstep. rewrite bool_decide_false by (by intros H; apply H).
  unfold drm_sched_job_arm. mstep. mstep. mcase. mcase. do 5 mstep.
  set (k1 := job_with_inference_done_fence _ _).
  rewrite bind_eq.
  match goal with |- context [rocket_acquire_object_fences ?b ?j ?wr ?W] =>
    destruct (rocket_acquire_object_fences b j wr W) as [[r1 wa]|] eqn:Hacq1; [|done]
  end.
  eapply (acquire_inv _ _ _ _ _ _ k1) in Hacq1
    as (extra1 & Hjobsa & Hextra1 & Hcoresa & Hfencesa & Hresvsa & Hnexta & Hrra & Htra);
    [|lookup_tac].
  revert Hjobsa Hextra1 Hcoresa Hfencesa Hresvsa Hnexta Hrra Htra. wsimpl.
  rewrite insert_insert_eq.
  intros Hjobsa Hextra1 Hcoresa Hfencesa Hresvsa Hnexta Hrra Htra.
  cbv beta iota. case_bool_decide as Hr1.
  { mstep. intros [= <- <-]. eexists _, extra1.
    rewrite Hjobsa, Hjobs1, Htra, Htr1, Hresvsa, Hresvs1, Hcoresa, Hcores1.
    rewrite insert_insert_eq. split_and!; try done. }
  subst r1.
  rewrite (wait_set_same w) in Hextra1 by (wsimpl; done).
  specialize (Hextra1 eq_refl). cbn [in_bos job_with_base_sched] in Hextra1.
  rewrite bind_eq.
  match goal with |- context [rocket_acquire_object_fences ?b ?j ?wr ?W] =>
    destruct (rocket_acquire_object_fences b j wr W) as [[r2 wb]|] eqn:Hacq2; [|done]
  end.
  eapply (acquire_inv _ _ _ _ _ _ (job_with_dependencies (dependencies k1 ++ extra1) k1))
    in Hacq2
    as (extra2 & Hjobsb & Hextra2 & Hcoresb & Hfencesb & Hresvsb & Hnextb & Hrrb & Htrb);
    [|rewrite Hjobsa; apply lookup_insert_eq].
  rewrite Hjobsa, insert_insert_eq in Hjobsb.
  rewrite (wait_set_same w) in Hextra2 by congruence.
  cbn [out_bos job_with_base_sched] in Hextra2.
  cbv beta iota. case_bool_decide as Hr2.
  { mstep. intros [= <- <-]. eexists _, (extra1 ++ extra2).
    rewrite Hjobsb, Hjobs1, Htrb, Htra, Htr1, Hresvsb, Hresvsa, Hresvs1,
            Hcoresb, Hcoresa, Hcores1.
    rewrite insert_insert_eq. split_and!; try done.
    simpl. by rewrite app_assoc. }
  subst r2.
  specialize (Hextra2 eq_refl).
  set (k2 := job_with_dependencies ((dependencies k1 ++ extra1) ++ extra2) k1) in *.
  assert (jobs wb !! job = Some k2) as Hk2 by (rewrite Hjobsb; apply lookup_insert_eq).
  do 2 mstep. unfold drm_sched_entity_push_job. mstep. mcase. mstep.
  cbn [inference_done_fence job_with_dependencies k2 k1 job_with_inference_done_fence
       s_fence_finished job_with_base_sched].
  rewrite Hlk. mstep. rewrite bind_eq, attach_eq. cbv beta iota. mstep.
  intros [= <- <-]. eexists _, (extra1 ++ extra2). wsimpl.
  rewrite Hjobsb, Hjobs1, Htrb, Htra, Htr1, Hresvsb, Hresvsa, Hresvs1,
          Hcoresb, Hcoresa, Hcores1, !insert_insert_eq.
  split_and!; try done.
  { simpl. by rewrite app_assoc. }
  intros _. eexists _, _. split_and!; try done.
  - by rewrite Hextra1, Hextra2.
  - revert Hlk1. wsimpl. by rewrite Hcoresb, Hcoresa, Hcores1.
  - simpl. by rewrite Hcores1.
Qed.

Lemma push_deps_kept job w r w' :
  rocket_job_push job w = Some (r, w') → deps_kept w w'.
Proof.
  intros Hrun job2 j2 Hj2.
  destruct (jobs w !! job) as [k|] eqn:Hk;
    [|by revert Hrun; unfold rocket_job_push, get_job; rewrite bind_eq, Hk].
  destruct (push_inv _ _ _ _ _ Hrun Hk)
    as (k' & extra & Hjobs & _ & _ & _ & _ & _ & Hfin & _ & Hdeps & _).
  rewrite Hjobs. destruct (decide (job = job2)) as [<-|Hne].
  - rewrite lookup_insert_eq. exists k'. simplify_eq.
    split_and!; [done..|]. rewrite Hdeps. set_solver.
  - rewrite lookup_insert_ne by done. by exists j2.
Qed.

Lemma deps_kept_refl w : deps_kept w w.
Proof. intros job j Hj. by exists j. Qed.

Lemma deps_kept_trans w1 w2 w3 : deps_kept w1 w2 → deps_kept w2 w3 → deps_kept w1 w3.
Proof.
  intros H12 H23 job j Hj.
  destruct (H12 _ _ Hj) as (j2 & Hj2 & Hf2 & Hd2).
  destruct (H23 _ _ Hj2) as (j3 & Hj3 & Hf3 & Hd3).
  exists j3. split_and!; [done|congruence|set_solver].
Qed.

Lemma waits_for_mono w w' f g :
  deps_kept w w' → waits_for w f g → waits_for w' f g.
Proof.
  intros Hkept. induction 1 as [f|job j f f' g Hj Hf Hin _ IH]; [constructor|].
  destruct (Hkept _ _ Hj) as (j' & Hj' & Hf' & Hd').
  eapply waits_for_step; [exact Hj'|congruence|by apply Hd'|done].
Qed.

Lemma ready_elem w j f :
  drm_sched_job_ready w j = true → f ∈ dependencies j → fence_signaled w f = true.
Proof.
  unfold drm_sched_job_ready. rewrite forallb_forall.
  intros Hall Hin. apply Hall. by apply list_elem_of_In.
Qed.

Lemma waits_for_signaled w f g :
  sched_discipline w → waits_for w f g →
  fence_signaled w f = true → fence_signaled w g = true.
Proof.
  intros Hdisc. induction 1 as [f|job j f f' g Hj Hf Hin _ IH]; [done|].
  intros Hsig. apply IH. eapply ready_elem; [|done]. by eapply Hdisc.
Qed.

Lemma wait_set_writer w bos bo f wr :
  bo ∈ bos → resv_writer (resv_of w bo) = Some f → f ∈ wait_set w bos wr.
Proof.
  intros Hin Hw. unfold wait_set. apply list_elem_of_In, in_flat_map.
  exists bo. split; [by apply list_elem_of_In|].
  unfold implicit_fences. rewrite Hw. simpl. by left.
Qed.

Lemma wait_set_reader w bos bo f :
  bo ∈ bos → f ∈ resv_readers (resv_of w bo) → f ∈ wait_set w bos true.
Proof.
  intros Hin Hr. unfold wait_set. apply list_elem_of_In, in_flat_map.
  exists bo. split; [by apply list_elem_of_In|].
  unfold implicit_fences. apply in_or_app. right. by apply list_elem_of_In.
Qed.

Lemma resv_of_attach_out w w' fence bos bo :
  resvs w' = attach_all fence bos (resvs w) → bo ∈ bos →
  resv_of w' bo = mk_resv (Some fence) [].
Proof. intros Hr Hin. unfold resv_of. by rewrite Hr, attach_all_out. Qed.

Lemma resv_of_attach_other w w' fence bos bo :
  resvs w' = attach_all fence bos (resvs w) → bo ∉ bos →
  resv_of w' bo = resv_of w bo.
Proof. intros Hr Hin. unfold resv_of. by rewrite Hr, attach_all_other. Qed.

(** The writer fence of buffer [B] belongs to a job that waits for [g]:
    kept by every push. *)
Lemma push_keeps_writer_chain job w r w' B g :
  rocket_job_push job w = Some (r, w') →
  (∃ f, resv_writer (resv_of w B) = Some f ∧ waits_for w f g) →
  ∃ f, resv_writer (resv_of w' B) = Some f ∧ waits_for w' f g.
Proof.
  intros Hrun (f & Hw & Hchain).
  pose proof (push_deps_kept _ _ _ _ Hrun) as Hkept.
  destruct (jobs w !! job) as [k|] eqn:Hk;
    [|by revert Hrun; unfold rocket_job_push, get_job; rewrite bind_eq, Hk].
  destruct (push_inv _ _ _ _ _ Hrun Hk)
    as (k' & extra & Hjobs & _ & _ & _ & _ & Hout & Hfin & _ & Hdeps & _ & Hok & Hfail).
  destruct (decide (r = 0)) as [->|Hr].
  - destruct (Hok eq_refl) as (fin & c & Hfink & Hinf & Hextra & Hresvs & _).
    destruct (decide (B ∈ out_bos k)) as [Hin|Hnin].
    + exists fin. split; [by erewrite resv_of_attach_out|].
      eapply (waits_for_step w' job k' fin f).
      * rewrite Hjobs. apply lookup_insert_eq.
      * congruence.
      * rewrite Hdeps, Hextra. rewrite !elem_of_app. right. right.
        by eapply wait_set_writer.
      * by eapply waits_for_mono.
    + exists f. split; [by erewrite resv_of_attach_other|by eapply waits_for_mono].
  - destruct (Hfail Hr) as [Hresvs _]. exists f.
    split; [by erewrite resv_of_same|by eapply waits_for_mono].
Qed.

Lemma push_jobs_keeps_writer_chain l w rets w' B g :
  push_jobs l w = Some (rets, w') →
  (∃ f, resv_writer (resv_of w B) = Some f ∧ waits_for w f g) →
  ∃ f, resv_writer (resv_of w' B) = Some f ∧ waits_for w' f g.
Proof.
  revert w rets. induction l as [|job l IH]; intros w rets; simpl.
  - by intros [= _ <-].
  - rewrite bind_eq.
    destruct (rocket_job_push job w) as [[r w1]|] eqn:Hpush; [|done].
    rewrite bind_eq. destruct (push_jobs l w1) as [[rs w2]|] eqn:Hrest; [|done].
    intros [= _ <-] Hchain. eapply IH; [done|]. by eapply push_keeps_writer_chain.
Qed.

Lemma acquire_ok bos job is_write w k :
  env_fail w = [] → jobs w !! job = Some k →
  ∃ w', rocket_acquire_object_fences bos job is_write w = Some (0, w') ∧
        env_fail w' = [].
Proof.
  revert w k. induction bos as [|bo bos IH]; intros w k Henv Hk; simpl.
  - by exists w.
  - unfold dma_resv_reserve_fences, drm_sched_job_add_implicit_dependencies.
    do 2 mstep. rewrite bool_decide_false by (by intros H; apply H).
    do 5 mstep. rewrite bool_decide_false by (by intros H; apply H).
    eapply IH; [done|lookup_tac].
Qed.

(** With no failure injected, a job that has its scheduler fence is pushed
    on a device that has a core. *)
Lemma push_ok job w k fin d c :
  jobs w !! job = Some k →
  s_fence_finished k = Some fin → fences w !! fin = Some d →
  cores w !! (rr_next w `mod` length (cores w))%nat = Some c →
  env_fail w = [] →
  ∃ w', rocket_job_push job w = Some (0, w').
Proof.
  intros Hk Hfin Hd Hc Henv. unfold rocket_job_push, kvmalloc_array.
  mstep.
  assert (∀ (l : M Z) (P : option (Z * world) → Prop),
    P (l w) →
    P (((if bool_decide (Z.of_nat (length (in_bos k ++ out_bos k)) = 0)
         then mret true else env_fails ≫= λ failed, mret (negb failed)) ≫=
        (λ allocated : bool, if negb allocated then oops else l)) w)) as Halloc.
  { intros l P HP. case_bool_decide; repeat mstep; done. }
  apply Halloc. clear Halloc.
  unfold drm_gem_lock_reservations. do 2 mstep.
  rewrite bool_decide_false by (by intros H; apply H).
  unfold drm_sched_job_arm. do 2 mstep. rewrite Hfin. do 7 mstep.
  set (k1 := job_with_inference_done_fence _ _).
  rewrite bind_eq.
  match goal with |- context [rocket_acquire_object_fences ?b ?j ?wr ?W] =>
    destruct (acquire_ok b j wr W k1) as (wa & Hacq1 & Henva); [done|lookup_tac|];
    destruct (acquire_inv _ _ _ _ _ _ k1 Hacq1)
      as (extra1 & Hjobsa & _ & Hcoresa & Hfencesa & _); [lookup_tac|]
  end.
  rewrite Hacq1. cbv beta iota.
  rewrite bool_decide_false by (by intros H; apply H).
  set (k2 := job_with_dependencies _ k1) in *.
  assert (jobs wa !! job = Some k2) as Hk2 by (rewrite Hjobsa; apply lookup_insert_eq).
  rewrite bind_eq.
  match goal with |- context [rocket_acquire_object_fences ?b ?j ?wr ?W] =>
    destruct (acquire_ok b j wr W k2) as (wb & Hacq2 & Henvb); [done..|];
    destruct (acquire_inv _ _ _ _ _ _ k2 Hacq2)
      as (extra2 & Hjobsb & _ & Hcoresb & Hfencesb & _); [done|]
  end.
  rewrite Hacq2. cbv beta iota.
  rewrite bool_decide_false by (by intros H; apply H).
  set (k3 := job_with_dependencies _ k2) in *.
  assert (jobs wb !! job = Some k3) as Hk3 by (rewrite Hjobsb; apply lookup_insert_eq).
  do 2 mstep. unfold drm_sched_entity_push_job. mstep.
  assert (cores wb !! base_sched (job_with_refcount (refcount k3 + 1) k3) = Some c) as Hcb.
  { rewrite Hcoresb, Hcoresa. wsimpl. done. }
  do 2 mstep.
  cbn [inference_done_fence k3 k2 k1 job_with_dependencies job_with_inference_done_fence
       s_fence_finished job_with_base_sched].
  rewrite Hfin. mstep. rewrite bind_eq, attach_eq. cbv beta iota. mstep.
  by eexists.
Qed.

Lemma run_job_work_not_ready w core c job queue j :
  cores w !! core = Some c → sched_queue (sched c) = job :: queue →
  jobs w !! job = Some j → drm_sched_job_ready w j = false →
  drm_sched_run_job_work core w = Some (false, w).
Proof.
  intros Hc Hq Hj Hready. unfold drm_sched_run_job_work. mstep.
  destruct (sched_stopped (sched c)); [done|].
  destruct (in_flight_job c); [done|]. rewrite Hq.
  do 2 mstep. by rewrite Hready.
Qed.

(** C3, as the code has it: when a job is pushed, the fence it publishes is
    the finished fence of its scheduler job, and it is published to the
    output set only.  For each buffer in the output set the fence becomes
    the writer fence of the buffer, the prior writer being replaced and the
    reader set cleared; the record of every other buffer, and so of a buffer
    that is only in the input set, is left as it was.  With no failure
    injected the push of an armed job goes through. *)
Theorem push_publishes_fence_to_outputs (w : world) (job : ptr) (k : rocket_job) :
  jobs w !! job = Some k →
  (∀ w', rocket_job_push job w = Some (0, w') →
     ∃ fin k',
       s_fence_finished k = Some fin ∧
       jobs w' !! job = Some k' ∧ inference_done_fence k' = Some fin ∧
       (∀ bo, bo ∈ out_bos k → resv_of w' bo = mk_resv (Some fin) []) ∧
       (∀ bo, bo ∉ out_bos k → resv_of w' bo = resv_of w bo)) ∧
  (∀ fin d c,
     s_fence_finished k = Some fin → fences w !! fin = Some d →
     cores w !! (rr_next w `mod` length (cores w))%nat = Some c →
     env_fail w = [] →
     ∃ w', rocket_job_push job w = Some (0, w')).
Proof.
  intros Hk. split.
  - intros w' Hrun.
    destruct (push_inv _ _ _ _ _ Hrun Hk)
      as (k' & extra & Hjobs & _ & _ & _ & _ & _ & _ & _ & _ & _ & Hok & _).
    destruct (Hok eq_refl) as (fin & c & Hfin & Hinf & _ & Hresvs & _).
    exists fin, k'. split_and!; try done.
    + rewrite Hjobs. apply lookup_insert_eq.
    + intros bo Hin. by eapply resv_of_attach_out.
    + intros bo Hnin. by eapply resv_of_attach_other.
  - intros fin d c Hfin Hd Hc Henv. by eapply push_ok.
Qed.

Lemma push_publishes_fence_to_outputs_witness :
  ∃ w', rocket_job_push 10%nat ex_push_world = Some (0, w') ∧
        resv_of w' 200%nat = mk_resv (Some 0%nat) [] ∧
        resv_of w' 100%nat = resv_of ex_push_world 100%nat.
Proof.
  destruct (push_publishes_fence_to_outputs ex_push_world 10%nat ex_job_a eq_refl)
    as [Hpub Hok].
  destruct (Hok 0%nat (mk_fence 0 0 false 0) ex_core eq_refl eq_refl eq_refl eq_refl)
    as [w' Hrun].
  destruct (Hpub w' Hrun) as (fin & k' & Hfin & _ & _ & Hout & Hother).
  injection Hfin as <-.
  exists w'. split_and!; [done| |].
  - apply Hout. simpl. apply list_elem_of_here.
  - apply Hother. simpl. intros Hin%list_elem_of_singleton. discriminate Hin.
Defined.

(** C3 as stated fails for the input set: job 10 reads buffer 100, and
    after it has been pushed the reader set of buffer 100 is still empty;
    its fence, fence 0, has only become the writer of output buffer 200. *)
Lemma push_leaves_input_records :
  ∃ w', rocket_job_push 10%nat ex_push_world = Some (0, w') ∧
        in_bos ex_job_a = [100%nat] ∧
        resv_of w' 100%nat = mk_resv None [] ∧
        resv_of w' 200%nat = mk_resv (Some 0%nat) [].
Proof. eexists. split_and!; vm_compute; reflexivity. Qed.

(** C2: a job that has been pushed waits for the prior writer fence of
    every buffer in its input set and for the prior writer fence and all
    the prior reader fences of every buffer in its output set: these are
    exactly the dependencies the push adds.  Consequently, if job [J1] has
    been pushed with buffer [B] in its output set and job [J2], which reads
    or writes [B], is pushed after it, whatever jobs are pushed in between,
    [J2] waits for a fence that is the fence of [J1] or belongs to a job
    that in turn waits for it; and in every later state in which [J1]'s
    fence is not signaled, the scheduler does not dispatch [J2]: its step
    leaves the state as it is. *)
Theorem job_waits_for_prior_fences
    (w0 w1 w2 w3 : world) (J1 J2 : ptr) (Ks : list ptr) (rets : list Z)
    (k1 k2 : rocket_job) (B : ptr) :
  jobs w0 !! J1 = Some k1 → B ∈ out_bos k1 →
  rocket_job_push J1 w0 = Some (0, w1) →
  push_jobs Ks w1 = Some (rets, w2) →
  jobs w2 !! J2 = Some k2 → B ∈ in_bos k2 ∨ B ∈ out_bos k2 →
  rocket_job_push J2 w2 = Some (0, w3) →
  ∃ fin1 k2',
    s_fence_finished k1 = Some fin1 ∧ jobs w3 !! J2 = Some k2' ∧
    dependencies k2' =
      dependencies k2 ++ wait_set w2 (in_bos k2) false ++ wait_set w2 (out_bos k2) true ∧
    (∀ bo f, bo ∈ in_bos k2 → resv_writer (resv_of w2 bo) = Some f →
       f ∈ dependencies k2') ∧
    (∀ bo f, bo ∈ out_bos k2 →
       resv_writer (resv_of w2 bo) = Some f ∨ f ∈ resv_readers (resv_of w2 bo) →
       f ∈ dependencies k2') ∧
    (∃ f, f ∈ dependencies k2' ∧ waits_for w3 f fin1) ∧
    (∀ w4 core c queue,
       deps_kept w3 w4 → sched_discipline w4 →
       fence_signaled w4 fin1 = false →
       cores w4 !! core = Some c → sched_queue (sched c) = J2 :: queue →
       drm_sched_run_job_work core w4 = Some (false, w4)).
Proof.
  intros Hk1 HB1 Hpush1 Hmid Hk2 HB2 Hpush2.
  destruct (push_inv _ _ _ _ _ Hpush1 Hk1)
    as (k1' & extra1 & Hjobs1 & _ & _ & _ & _ & _ & _ & _ & _ & _ & Hok1 & _).
  destruct (Hok1 eq_refl) as (fin1 & c1 & Hfin1 & _ & _ & Hresvs1 & _).
  destruct (push_inv _ _ _ _ _ Hpush2 Hk2)
    as (k2' & extra2 & Hjobs2 & _ & _ & _ & _ & _ & Hfin2 & _ & Hdeps2 & _ & Hok2 & _).
  destruct (Hok2 eq_refl) as (fin2 & c2 & _ & _ & Hextra2 & _).
  assert (jobs w3 !! J2 = Some k2') as Hk2' by (rewrite Hjobs2; apply lookup_insert_eq).
  (* the writer of [B] when [J2] is pushed *)
  destruct (push_jobs_keeps_writer_chain Ks w1 rets w2 B fin1 Hmid)
    as (f & Hwriter & Hchain).
  { exists fin1. split; [|constructor]. by erewrite resv_of_attach_out. }
  assert (f ∈ dependencies k2') as Hdep.
  { rewrite Hdeps2, Hextra2, !elem_of_app. right.
    destruct HB2; [left|right]; by eapply wait_set_writer. }
  assert (waits_for w3 f fin1) as Hchain3.
  { eapply waits_for_mono; [|done]. by eapply push_deps_kept. }
  exists fin1, k2'. split_and!; try done.
  - by rewrite Hdeps2, Hextra2.
  - intros bo g Hin Hw. rewrite Hdeps2, Hextra2, !elem_of_app. right. left.
    by eapply wait_set_writer.
  - intros bo g Hin [Hw|Hr]; rewrite Hdeps2, Hextra2, !elem_of_app; right; right.
    + by eapply wait_set_writer.
    + by eapply wait_set_reader.
  - by exists f.
  - intros w4 core c queue Hkept Hdisc Hunsig Hc Hq.
    destruct (Hkept _ _ Hk2') as (k4 & Hk4 & _ & Hsub).
    eapply run_job_work_not_ready; [done..|].
    destruct (drm_sched_job_ready w4 k4) eqn:Hready; [|done].
    rewrite <- Hunsig. symmetry.
    eapply waits_for_signaled; [done| |].
    + eapply waits_for_mono; [exact Hkept|exact Hchain3].
    + eapply ready_elem; [done|]. by apply Hsub.
Qed.

Lemma job_waits_for_prior_fences_witness :
  ∃ k2',
    rocket_job_push 10%nat ex_push_world = Some (0, ex_pushed_a) ∧
    rocket_job_push 11%nat ex_pushed_a = Some (0, ex_pushed_ab) ∧
    jobs ex_pushed_ab !! 11%nat = Some k2' ∧
    ∃ f, f ∈ dependencies k2' ∧ waits_for ex_pushed_ab f 0%nat.
Proof.
  assert (rocket_job_push 10%nat ex_push_world = Some (0, ex_pushed_a)) as Hpush1
    by (vm_compute; reflexivity).
  assert (rocket_job_push 11%nat ex_pushed_a = Some (0, ex_pushed_ab)) as Hpush2
    by (vm_compute; reflexivity).
  destruct (job_waits_for_prior_fences ex_push_world ex_pushed_a ex_pushed_a ex_pushed_ab
              10%nat 11%nat [] [] ex_job_a ex_job_b 200%nat eq_refl)
    as (fin1 & k2' & Hfin1 & Hk2' & _ & _ & _ & Hchain & _);
    [ apply list_elem_of_here
    | exact Hpush1
    | reflexivity
    | vm_compute; reflexivity
    | left; apply list_elem_of_here
    | exact Hpush2
    | ].
  injection Hfin1 as <-.
  exists k2'. split_and!; assumption.
Defined.

(** ** Submission *)

Lemma copy_tasks_loop_malformed tasks acc :
  Exists task_malformed tasks → (copy_tasks_loop tasks acc).1 = - EINVAL.
Proof.
  revert acc. induction tasks as [|t tasks IH]; intros acc; [by intros ?%Exists_nil|].
  intros [Hbad|Hrest]%Exists_cons; simpl.
  - case_bool_decide; [done|]. case_bool_decide; [done|]. by destruct Hbad.
  - case_bool_decide; [done|]. case_bool_decide; [done|]. by apply IH.
Qed.

Lemma EINVAL_nonzero : - EINVAL ≠ 0.
Proof. done. Qed.
Lemma ENOMEM_nonzero : - ENOMEM ≠ 0.
Proof. done. Qed.
Lemma EFAULT_nonzero : - EFAULT ≠ 0.
Proof. done. Qed.

(** A job with a malformed task, submitted with no failure injected. *)
Lemma submit_job_malformed file job w tl :
  drm_rocket_job.task_count job ≠ 0 →
  copy_from_user (um_tasks (user file)) (drm_rocket_job.tasks job)
                 (drm_rocket_job.task_count job) = Some tl →
  Exists task_malformed tl →
  env_fail w = [] →
  ∃ w', rocket_ioctl_submit_job file job w = Some (- EINVAL, w') ∧
        cores w' = cores w ∧ resvs w' = resvs w ∧
        jobs w' = delete (next_ptr w) (jobs w) ∧ trace w' = trace w.
Proof.
  intros Hcount Hcopy Hbad Henv.
  unfold rocket_ioctl_submit_job. rewrite bool_decide_false by done.
  rewrite bind_eq, kalloc_ok by done. cbv beta iota. mstep.
  unfold drm_sched_job_init. rewrite !bind_eq, kalloc_ok by done. cbv beta iota.
  do 4 mstep. rewrite bool_decide_false by (by intros H; apply H).
  unfold rocket_copy_tasks, kvmalloc_array. do 2 mstep.
  rewrite !bool_decide_false by done. do 2 mstep. cbn [negb].
  rewrite Hcopy. do 2 mstep. cbn [negb].
  pose proof (copy_tasks_loop_malformed tl [] Hbad) as Hret.
  destruct (copy_tasks_loop tl []) as [ret copied]. simpl in Hret. subst ret.
  do 3 mstep. rewrite bool_decide_true by done.
  unfold out_cleanup_job. rewrite bool_decide_true by done.
  unfold drm_sched_job_cleanup, rocket_job_put, rocket_job_cleanup.
  mstep. cbn [s_fence_finished job_with_tasks job_with_task_count]. do 2 mstep.
  cbn [refcount job_with_tasks job_with_task_count kzalloc_rocket_job].
  rewrite bool_decide_true by done. do 2 mstep.
  eexists. split; [reflexivity|]. wsimpl. split_and!; try done.
  by rewrite !delete_insert_eq.
Qed.

(** The exit path of a refused job: its scheduler fence is released and the
    job, which nobody else holds, is freed. *)
Ltac refused_job_exit :=
  mstep; cbn [s_fence_finished job_with_tasks job_with_task_count kzalloc_rocket_job];
  do 2 mstep;
  cbn [refcount job_with_tasks job_with_task_count kzalloc_rocket_job];
  rewrite bool_decide_true by done;
  do 2 mstep;
  by intros [= <- <-].

(** The same, whatever fails on the way: the job is refused and no queue
    and no fence record is touched. *)
Lemma submit_job_malformed_any file job w tl r w' :
  drm_rocket_job.task_count job ≠ 0 →
  copy_from_user (um_tasks (user file)) (drm_rocket_job.tasks job)
                 (drm_rocket_job.task_count job) = Some tl →
  Exists task_malformed tl →
  rocket_ioctl_submit_job file job w = Some (r, w') →
  r ≠ 0 ∧ cores w' = cores w ∧ resvs w' = resvs w.
Proof.
  intros Hcount Hcopy Hbad.
  pose proof (copy_tasks_loop_malformed tl [] Hbad) as Hret.
  unfold rocket_ioctl_submit_job, kalloc. rewrite bool_decide_false by done.
  menv; [by do 2 mstep; intros [= <- <-]|].
  do 4 mstep.
  unfold drm_sched_job_init, kalloc.
  menv.
  { do 2 mstep. rewrite bool_decide_true by done.
    unfold rocket_job_put, rocket_job_cleanup. mstep.
    cbn [refcount kzalloc_rocket_job]. rewrite bool_decide_true by done.
    do 2 mstep. by intros [= <- <-]. }
  do 7 mstep. rewrite bool_decide_false by (by intros H; apply H).
  unfold rocket_copy_tasks, kvmalloc_array. do 2 mstep.
  rewrite !bool_decide_false by done.
  unfold out_cleanup_job, drm_sched_job_cleanup, rocket_job_put, rocket_job_cleanup.
  menv.
  { mstep. cbn [negb]. mstep. rewrite !(bool_decide_true _ ENOMEM_nonzero).
    refused_job_exit. }
  mstep. cbn [negb]. rewrite Hcopy.
  menv.
  { mstep. cbn [negb]. mstep. rewrite !(bool_decide_true _ ENOMEM_nonzero).
    refused_job_exit. }
  mstep. cbn [negb].
  destruct (copy_tasks_loop tl []) as [ret copied]. simpl in Hret. subst ret.
  do 3 mstep. rewrite !(bool_decide_true _ EINVAL_nonzero).
  refused_job_exit.
Qed.

Lemma submit_jobs_loop_reserved file before bad after ret w ret1 w1 :
  Forall (λ j, drm_rocket_job.reserved j = 0) before →
  drm_rocket_job.reserved bad ≠ 0 →
  submit_jobs_loop file before ret w = Some (ret1, w1) →
  submit_jobs_loop file (before ++ bad :: after) ret w = Some (- EINVAL, w1).
Proof.
  intros Hbefore Hbad. revert w.
  induction Hbefore as [|j before Hj _ IH]; intros w; simpl.
  - intros [= _ <-]. by rewrite bool_decide_true.
  - rewrite !bool_decide_false by (by rewrite Hj; intros H; apply H).
    rewrite !bind_eq. destruct (rocket_ioctl_submit_job file j w) as [[r w2]|]; [|done].
    apply IH.
Qed.

(** C4: a job is rejected with EINVAL, and is never queued, if its task
    list is empty, if one of its tasks has no command, or if a reserved
    field is not zero.  (1) With an empty task list the per-job submit
    routine returns -EINVAL and leaves the state untouched.  (2) With a
    task that has no command or a reserved field set, it returns -EINVAL
    when nothing else fails first, and whatever fails it returns an error
    and leaves every scheduler queue and every buffer fence record as it
    was.  (3) With the reserved field of the job itself set, the ioctl
    returns -EINVAL when it reaches the job, the state being the one the
    jobs before it left.  (4) With the reserved field of the submission set,
    the ioctl returns -EINVAL and leaves the state untouched. *)
Theorem malformed_job_rejected (file : drm_file) (w : world) :
  (∀ job, drm_rocket_job.task_count job = 0 →
     rocket_ioctl_submit_job file job w = Some (- EINVAL, w)) ∧
  (∀ job tl,
     drm_rocket_job.task_count job ≠ 0 →
     copy_from_user (um_tasks (user file)) (drm_rocket_job.tasks job)
                    (drm_rocket_job.task_count job) = Some tl →
     Exists task_malformed tl →
     (env_fail w = [] →
        ∃ w', rocket_ioctl_submit_job file job w = Some (- EINVAL, w') ∧
              cores w' = cores w ∧ resvs w' = resvs w ∧
              jobs w' = delete (next_ptr w) (jobs w) ∧ trace w' = trace w) ∧
     (∀ r w', rocket_ioctl_submit_job file job w = Some (r, w') →
        r ≠ 0 ∧ cores w' = cores w ∧ resvs w' = resvs w)) ∧
  (∀ args before bad after ret1 w1,
     drm_rocket_submit.reserved args = 0 →
     copy_from_user (um_jobs (user file)) (drm_rocket_submit.jobs args)
                    (drm_rocket_submit.job_count args) = Some (before ++ bad :: after) →
     Forall (λ j, drm_rocket_job.reserved j = 0) before →
     drm_rocket_job.reserved bad ≠ 0 →
     env_fail w = [] →
     submit_jobs_loop file before 0 w = Some (ret1, w1) →
     rocket_ioctl_submit file args w = Some (- EINVAL, w1)) ∧
  (∀ args, drm_rocket_submit.reserved args ≠ 0 →
     rocket_ioctl_submit file args w = Some (- EINVAL, w)).
Proof.
  split_and!.
  - intros job Hcount. unfold rocket_ioctl_submit_job. by rewrite bool_decide_true.
  - intros job tl Hcount Hcopy Hbad. split.
    + intros Henv. by eapply submit_job_malformed.
    + intros r w'. by eapply submit_job_malformed_any.
  - intros args before bad after ret1 w1 Hres Hcopy Hbefore Hbad Henv Hloop.
    unfold rocket_ioctl_submit, kvmalloc_array.
    rewrite bool_decide_false by (by rewrite Hres; intros H; apply H).
    case_bool_decide; repeat mstep; cbn [negb]; rewrite Hcopy;
      by eapply submit_jobs_loop_reserved.
  - intros args Hres. unfold rocket_ioctl_submit. by rewrite bool_decide_true.
Qed.

Lemma malformed_job_rejected_witness :
  rocket_ioctl_submit_job ex_file (drm_rocket_job.mk 0 0 0 0 0 0 0) ex_world =
    Some (- EINVAL, ex_world) ∧
  (∃ w', rocket_ioctl_submit_job ex_file (drm_rocket_job.mk 4096 0 0 1 0 0 0) ex_world =
           Some (- EINVAL, w') ∧ cores w' = cores ex_world) ∧
  rocket_ioctl_submit ex_file (drm_rocket_submit.mk 16384 1 0) ex_world =
    Some (- EINVAL, ex_world).
Proof.
  destruct (malformed_job_rejected ex_file ex_world) as (Hempty & Htask & Hjob & _).
  split_and!.
  - apply Hempty. reflexivity.
  - destruct (Htask (drm_rocket_job.mk 4096 0 0 1 0 0 0) [drm_rocket_task.mk 65536 0 0])
      as [Hok _]; [done | reflexivity | |].
    { apply Exists_cons_hd. by right. }
    destruct (Hok eq_refl) as (w' & Hrun & Hcores & _). by exists w'.
  - eapply (Hjob _ [] _ []); [reflexivity | reflexivity | constructor | done
                              | reflexivity | reflexivity].
Defined.

(** The ioctl does not look at what the per-job submit routine returns:
    when no job has its reserved field set, the loop ends with the value it
    was started with. *)
Lemma submit_jobs_loop_ret file jobs ret w r w' :
  Forall (λ j, drm_rocket_job.reserved j = 0) jobs →
  submit_jobs_loop file jobs ret w = Some (r, w') → r = ret.
Proof.
  intros Hjobs. revert w. induction Hjobs as [|j jobs Hj _ IH]; intros w; simpl.
  - by intros [= <- _].
  - rewrite bool_decide_false by (by rewrite Hj; intros H; apply H).
    rewrite bind_eq. destruct (rocket_ioctl_submit_job file j w) as [[r1 w1]|]; [|done].
    apply IH.
Qed.

(** C5: the submit entry point does not hand the error of a malformed job
    back to its caller.  A submission of one job with an empty task list:
    the per-job routine returns -EINVAL, the ioctl returns 0.  A submission
    of one job whose only task has no command: the per-job routine returns
    -EINVAL, the ioctl returns 0.  In both cases no job is queued. *)
Theorem submit_ioctl_drops_job_error :
  rocket_ioctl_submit_job ex_file (drm_rocket_job.mk 0 0 0 0 0 0 0) ex_world =
    Some (- EINVAL, ex_world) ∧
  rocket_ioctl_submit ex_file (drm_rocket_submit.mk 8192 1 0) ex_world =
    Some (0, ex_world) ∧
  ∃ w',
    rocket_ioctl_submit_job ex_file (drm_rocket_job.mk 4096 0 0 1 0 0 0) ex_world =
      Some (- EINVAL, w') ∧
    rocket_ioctl_submit ex_file (drm_rocket_submit.mk 12288 1 0) ex_world =
      Some (0, w') ∧
    cores w' = cores ex_world.
Proof.
  split_and!; [vm_compute; reflexivity..|].
  eexists. split_and!; vm_compute; reflexivity.
Qed.

(** * Further properties of the driver *)

(** ** Hardware fences *)

Lemma kalloc_inv w p w' :
  kalloc w = Some (p, w') →
  (p = None ∧ w' = set_env_fail (tl (env_fail w)) w) ∨
  (p = Some (next_ptr w) ∧
   w' = set_next_ptr (S (next_ptr w)) (set_env_fail (tl (env_fail w)) w)).
Proof.
  unfold kalloc. menv.
  - mstep. intros [= <- <-]. by left.
  - do 3 mstep. intros [= <- <-]. by right.
Qed.

Lemma fence_create_inv w core r w' :
  rocket_fence_create core w = Some (r, w') →
  (r = FenceErr (- ENOMEM) ∧ w' = set_env_fail (tl (env_fail w)) w) ∨
  (∃ c, cores w !! core = Some c ∧ r = Fence (next_ptr w) ∧
        w' = set_fences (insert (next_ptr w)
                           (mk_fence (fence_context c) (u64 (emit_seqno c + 1)) false 0))
               (set_cores (insert core (core_with_emit_seqno (u64 (emit_seqno c + 1)) c))
                  (set_next_ptr (S (next_ptr w)) (set_env_fail (tl (env_fail w)) w)))).
Proof.
  unfold rocket_fence_create. rewrite bind_eq.
  destruct (kalloc w) as [[p w1]|] eqn:Hk; [|done].
  apply kalloc_inv in Hk as [[-> ->]|[-> ->]]; cbv beta iota.
  - mstep. intros [= <- <-]. by left.
  - mcase. do 3 mstep. intros [= <- <-]. right. by eexists.
Qed.

(** X1: the hardware fences of a core form a timeline.  A creation that
    fails for want of memory returns ERR_PTR(-ENOMEM) and uses up no
    sequence number; two creations in a row on one core give two distinct
    unsignaled fences on the same context, the second with the sequence
    number that follows the first one's. *)
Theorem fence_create_timeline (w : world) (core : nat) :
  (∀ e w1, rocket_fence_create core w = Some (FenceErr e, w1) →
     e = - ENOMEM ∧ cores w1 = cores w ∧ fences w1 = fences w ∧
     next_ptr w1 = next_ptr w) ∧
  (∀ f1 w1 f2 w2,
     rocket_fence_create core w = Some (Fence f1, w1) →
     rocket_fence_create core w1 = Some (Fence f2, w2) →
     f1 ≠ f2 ∧
     ∃ d1 d2, fences w2 !! f1 = Some d1 ∧ fences w2 !! f2 = Some d2 ∧
       f_signaled d1 = false ∧ f_signaled d2 = false ∧
       f_context d2 = f_context d1 ∧ f_seqno d2 = u64 (f_seqno d1 + 1)).
Proof.
  split.
  - intros e w1 [[[= ->] ->]|(c & _ & [=] & _)]%fence_create_inv. by repeat split.
  - intros f1 w1 f2 w2 [[[=] _]|(c & Hc & [= ->] & ->)]%fence_create_inv Hsnd.
    apply fence_create_inv in Hsnd as [[[=] _]|(c1 & Hc1 & [= ->] & ->)].
    revert Hc1. wsimpl. apply lookup_lt_Some in Hc as Hlen.
    rewrite list_lookup_insert_eq by done. intros [= <-].
    split; [lia|]. eexists _, _. wsimpl.
    rewrite lookup_insert_ne by lia. rewrite !lookup_insert_eq.
    by repeat split.
Qed.

Lemma fence_create_timeline_witness :
  ∃ d1 d2 w2,
    (rocket_fence_create 0%nat ;; rocket_fence_create 0%nat) ex_world =
      Some (Fence 21%nat, w2) ∧
    fences w2 !! 20%nat = Some d1 ∧ fences w2 !! 21%nat = Some d2 ∧
    f_seqno d1 = 1 ∧ f_seqno d2 = 2.
Proof.
  destruct (proj2 (fence_create_timeline ex_world 0%nat) 20%nat _ 21%nat _
              eq_refl eq_refl) as (_ & d1 & d2 & H1 & H2 & _).
  exists d1, d2. eexists. split; [vm_compute; reflexivity|].
  split; [exact H1|]. split; [exact H2|].
  vm_compute in H1, H2. by simplify_eq.
Defined.

(** ** Running a job, whatever the outcome of the services it calls *)

(** X2: however the allocation, the runtime-PM call and the IOMMU attach
    turn out, [rocket_job_run] starts a task only after it has put the job
    in the in-flight slot of its core, and only if no reset is pending
    there.  A NULL result leaves the state untouched; ERR_PTR(-ENOMEM) is
    returned before anything is written; a fence result is the fresh,
    unsignaled fence that has become the done-fence of the job, and then
    either exactly one task has been started and the cursor has advanced
    by one, or no task has been started and the cursor has not moved. *)
Theorem job_run_outcomes (w : world) (job : ptr) (r : fence_ptr) (w' : world) :
  rocket_job_run job w = Some (r, w') →
  ∃ j evs,
    jobs w !! job = Some j ∧ trace w' = trace w ++ evs ∧
    match r with
    | FenceNull => w' = w
    | FenceErr e =>
        e = - ENOMEM ∧ evs = [] ∧
        jobs w' = jobs w ∧ cores w' = cores w ∧ fences w' = fences w
    | Fence f =>
        f = next_ptr w ∧
        (∃ d, fences w' !! f = Some d ∧ f_signaled d = false) ∧
        ∃ j', jobs w' !! job = Some j' ∧ done_fence j' = Some f ∧
          ((task_starts evs = 1%nat ∧
            next_task_idx j' = u32 (next_task_idx j + 1) ∧
            ∃ c', cores w' !! base_sched j = Some c' ∧
                  in_flight_job c' = Some job ∧ reset_pending c' = false) ∨
           (task_starts evs = 0%nat ∧ next_task_idx j' = next_task_idx j ∧
            ((in_flight_job <$> cores w') = (in_flight_job <$> cores w) ∨
             ∃ c', cores w' !! base_sched j = Some c' ∧
                   in_flight_job c' = Some job ∧ reset_pending c' = true)))
    end.
Proof.
  unfold rocket_job_run. mcase. mstep. mcase. mcase.
  case_bool_decide as Herr.
  { mstep. intros [= <- <-]. eexists _, []. by rewrite app_nil_r. }
  case_bool_decide as Hdone.
  { mstep. intros [= <- <-]. eexists _, []. by rewrite app_nil_r. }
  unfold sched_to_core. case_decide as Hrange; [mstep|by rewrite bind_eq].
  rewrite bind_eq.
  destruct (rocket_fence_create _ w) as [[r1 w1]|] eqn:Hf; [|done].
  apply fence_create_inv in Hf as [[-> ->]|(c & Hc & -> & ->)]; cbv beta iota.
  { mstep. intros [= <- <-]. eexists _, []. rewrite app_nil_r. by repeat split. }
  do 2 mstep.
  assert (in_flight_job <$>
            <[base_sched r0 := core_with_emit_seqno (u64 (emit_seqno c + 1)) c]> (cores w)
          = in_flight_job <$> cores w) as Hslots.
  { rewrite list_fmap_insert. apply list_insert_id. by rewrite list_lookup_fmap, Hc. }
  menv.
  { mstep. intros [= <- <-]. exists r0, [EvPm (base_sched r0) pm_runtime_get_sync].
    wsimpl. rewrite !lookup_insert_eq.
    split_and!; try done; [by eexists|]. eexists. split_and!; try done.
    right. split_and!; try done. by left. }
  mstep. menv.
  { mstep. intros [= <- <-].
    exists r0, [EvPm (base_sched r0) pm_runtime_get_sync;
                EvIommuAttach (domain r0) (base_sched r0)].
    wsimpl. rewrite <- ?app_assoc, !lookup_insert_eq.
    split_and!; try done; [by eexists|]. eexists. split_and!; try done.
    right. split_and!; try done. by left. }
  do 2 mstep. rewrite bind_eq.
  match goal with |- context [rocket_job_hw_submit ?c ?j ?W] =>
    destruct (rocket_job_hw_submit c j W) as [[[] w2]|] eqn:Hsub; [|done]
  end.
  mstep. intros [= <- <-].
  apply hw_submit_cases in Hsub
    as [(c1 & Hc1 & Hp & ->)|(c1 & j1 & task & Hc1 & Hp & Hj1 & Ht & ->)];
    revert Hc1; wsimpl; rewrite list_insert_insert_eq;
    rewrite list_lookup_insert_eq by done; intros [= <-].
  - exists r0, [EvPm (base_sched r0) pm_runtime_get_sync;
                EvIommuAttach (domain r0) (base_sched r0)].
    rewrite <- ?app_assoc, !lookup_insert_eq, list_lookup_insert_eq by done.
    split_and!; try done; [by eexists|]. eexists. split_and!; try done.
    right. split_and!; try done. right. by eexists.
  - revert Hj1. wsimpl. rewrite lookup_insert_eq. intros [= <-].
    exists r0, ([EvPm (base_sched r0) pm_runtime_get_sync;
                 EvIommuAttach (domain r0) (base_sched r0)]
                ++ hw_submit_events (base_sched r0) task).
    rewrite <- ?app_assoc, !lookup_insert_eq, list_lookup_insert_eq by done.
    split_and!; try done; [by eexists|].
    eexists. split_and!; try done.
    left. split_and!; try done. by eexists.
Qed.

Lemma job_run_outcomes_witness :
  ∃ w' j', rocket_job_run 10%nat ex_world = Some (Fence 20%nat, w') ∧
           jobs w' !! 10%nat = Some j' ∧ done_fence j' = Some 20%nat.
Proof.
  eexists. 
  edestruct (job_run_outcomes ex_world 10%nat (Fence 20%nat))
    as (j & evs & _ & _ & _ & _ & j' & Hj' & Hd & _); [vm_compute; reflexivity|].
  exists j'. split; [vm_compute; reflexivity|]. split; [exact Hj' | exact Hd].
Defined.

(** ** Copying the tasks of a job in *)

Lemma copy_tasks_loop_inv tl acc ret copied :
  copy_tasks_loop tl acc = (ret, copied) →
  (ret = 0 ∧
   Forall task_well_formed tl ∧
   copied = acc ++ (kernel_task <$> tl)) ∨
  (ret = - EINVAL ∧ Exists task_malformed tl).
Proof.
  revert acc. induction tl as [|t tl IH]; intros acc; simpl.
  - intros [= <- <-]. left. by rewrite app_nil_r.
  - case_bool_decide as Hres.
    { intros [= <- <-]. right. split; [done|]. left. by left. }
    case_bool_decide as Hcnt.
    { intros [= <- <-]. right. split; [done|]. left. by right. }
    intros [(-> & Hall & ->)|[-> Hex]]%IH.
    + left. split_and!; [done| |by rewrite <- app_assoc].
      constructor; [|done]. split; [|done].
      destruct (decide (drm_rocket_task.reserved t = 0)); [done|by destruct Hres].
    + right. split; [done|]. by right.
Qed.

Lemma copy_tasks_inv file job rjob w r w' :
  rocket_copy_tasks file job rjob w = Some (r, w') →
  let n := drm_rocket_job.task_count job in
  let copy := copy_from_user (um_tasks (user file)) (drm_rocket_job.tasks job) n in
  ∃ j j',
    jobs w !! rjob = Some j ∧ jobs w' = <[rjob := j']> (jobs w) ∧ only_job rjob w w' ∧
    ((n = 0 ∧ r = 0 ∧ j' = job_with_task_count n j) ∨
     (n ≠ 0 ∧ r = - ENOMEM ∧ j' = job_with_task_count n j) ∨
     (n ≠ 0 ∧ r = - EFAULT ∧ copy = None ∧ j' = job_with_task_count n j) ∨
     (n ≠ 0 ∧ ∃ tl copied, copy = Some tl ∧ copy_tasks_loop tl [] = (r, copied) ∧
        j' = job_with_tasks copied (job_with_task_count n j))).
Proof.
  intros Hrun n copy. revert Hrun. unfold rocket_copy_tasks. fold n. fold copy.
  mcase. mstep.
  assert (∀ (js : gmap ptr rocket_job) (x : rocket_job) q, q ≠ rjob →
            <[rjob := x]> js !! q = js !! q) as Hother
    by (intros; by rewrite lookup_insert_ne).
  case_bool_decide as Hn.
  { mstep. intros [= <- <-]. eexists _, _. split_and!; try done; [|by left].
    by repeat split; wsimpl; auto. }
  unfold kvmalloc_array. rewrite bool_decide_false by done.
  menv; mstep; cbn [negb].
  { mstep. intros [= <- <-]. eexists _, _. split_and!; try done; [|by right; left].
    by repeat split; wsimpl; auto. }
  destruct copy as [tl|] eqn:Hcopy.
  2: { mstep. intros [= <- <-]. eexists _, _. split_and!; try done;
         [|by right; right; left].
       by repeat split; wsimpl; auto. }
  menv; mstep; cbn [negb].
  { mstep. intros [= <- <-]. eexists _, _. split_and!; try done; [|by right; left].
    by repeat split; wsimpl; auto. }
  destruct (copy_tasks_loop tl []) as [ret copied] eqn:Hloop.
  do 3 mstep. intros [= <- <-]. eexists _, _. wsimpl.
  rewrite insert_insert_eq.
  split_and!; try done.
  - repeat split; wsimpl; auto. intros q Hq. by rewrite !lookup_insert_ne.
  - right; right; right. split; [done|]. by eexists _, _.
Qed.

Lemma copy_from_user_length {A} (mem : gmap Z (list A)) p n tl :
  copy_from_user mem p n = Some tl → 0 ≤ n → Z.of_nat (length tl) = n.
Proof.
  unfold copy_from_user. case_bool_decide as Hn; [by intros [= <-]|].
  destruct (mem !! p) as [arr|]; [|done].
  case_bool_decide as Hlen; [|done].
  intros [= <-] H0. rewrite length_take. lia.
Qed.

(** X3: when [rocket_copy_tasks] returns 0, the user's task array was
    readable, every task in it has a zero reserved field and at least one
    command, and the job holds a faithful copy of it: as many tasks as the
    user's task count says, each with the user's command address and
    command count.  A job without tasks is accepted as it is, with nothing
    read from user memory.  Nothing but the job has changed. *)
Theorem copy_tasks_accepts
    (file : drm_file) (job : drm_rocket_job.t) (rjob : ptr) (w w' : world) :
  0 ≤ drm_rocket_job.task_count job →
  rocket_copy_tasks file job rjob w = Some (0, w') →
  ∃ j tl,
    jobs w !! rjob = Some j ∧
    copy_from_user (um_tasks (user file)) (drm_rocket_job.tasks job)
                   (drm_rocket_job.task_count job) = Some tl ∧
    Forall task_well_formed tl ∧
    Z.of_nat (length tl) = drm_rocket_job.task_count job ∧
    jobs w' !! rjob =
      Some (job_with_tasks
              (if bool_decide (drm_rocket_job.task_count job = 0) then tasks j
               else kernel_task <$> tl)
              (job_with_task_count (drm_rocket_job.task_count job) j)) ∧
    only_job rjob w w'.
Proof.
  intros H0 (j & j' & Hj & Hjobs & Hframe & Hcases)%copy_tasks_inv.
  rewrite Hjobs, lookup_insert_eq.
  destruct Hcases as [(Hn & _ & ->)|[(_ & [=] & _)|[(_ & [=] & _)|
    (Hn & tl & copied & Hcopy & Hloop & ->)]]].
  - exists j, []. rewrite Hn, bool_decide_true by done.
    by split_and!.
  - apply copy_tasks_loop_inv in Hloop as [(_ & Hall & ->)|[[=] _]].
    exists j, tl. rewrite bool_decide_false by done.
    split_and!; try done. by eapply copy_from_user_length.
Qed.

Lemma copy_tasks_accepts_witness :
  ∃ w' j',
    rocket_copy_tasks ex_file_ok (drm_rocket_job.mk 4096 20480 24576 2 1 1 0) 10%nat
                      ex_world = Some (0, w') ∧
    jobs w' !! 10%nat = Some j' ∧
    tasks j' = [mk_task 65536 16; mk_task 69632 7] ∧ task_count j' = 2.
Proof.
  eexists.
  edestruct (copy_tasks_accepts ex_file_ok (drm_rocket_job.mk 4096 20480 24576 2 1 1 0)
               10%nat ex_world) as (j & tl & Hj & Hcopy & _ & _ & Hj' & _);
    [simpl; lia | vm_compute; reflexivity |].
  eexists. split; [vm_compute; reflexivity|].
  split; [exact Hj'|]. vm_compute in Hj, Hcopy. by simplify_eq.
Defined.

(** X4: the error codes of [rocket_copy_tasks] are exact.  It fails only
    for a job that has tasks; -EFAULT means that the task array could not
    be read from user memory, and -EINVAL that it was read and holds a task
    with a reserved field set or with no command; the only other error is
    -ENOMEM.  Whatever the outcome, nothing but the job has changed. *)
Theorem copy_tasks_errors
    (file : drm_file) (job : drm_rocket_job.t) (rjob : ptr) (r : Z) (w w' : world) :
  rocket_copy_tasks file job rjob w = Some (r, w') →
  only_job rjob w w' ∧
  (r ≠ 0 →
   drm_rocket_job.task_count job ≠ 0 ∧
   (r = - ENOMEM ∨
    (r = - EFAULT ∧
     copy_from_user (um_tasks (user file)) (drm_rocket_job.tasks job)
                    (drm_rocket_job.task_count job) = None) ∨
    (r = - EINVAL ∧
     ∃ tl, copy_from_user (um_tasks (user file)) (drm_rocket_job.tasks job)
                          (drm_rocket_job.task_count job) = Some tl ∧
           Exists task_malformed tl))).
Proof.
  intros (j & j' & Hj & Hjobs & Hframe & Hcases)%copy_tasks_inv.
  split; [done|]. intros Hr.
  destruct Hcases as [(_ & -> & _)|[(Hn & -> & _)|[(Hn & -> & Hcopy & _)|
    (Hn & tl & copied & Hcopy & Hloop & _)]]]; [done|by auto|by auto|].
  split; [done|].
  apply copy_tasks_loop_inv in Hloop as [(-> & _)|[-> Hex]]; [done|].
  right; right. split; [done|]. by exists tl.
Qed.

Lemma copy_tasks_errors_witness :
  ∃ w', rocket_copy_tasks ex_file (drm_rocket_job.mk 4096 0 0 1 0 0 0) 10%nat ex_world
          = Some (- EINVAL, w') ∧
        Exists task_malformed [drm_rocket_task.mk 65536 0 0].
Proof.
  eexists.
  edestruct (copy_tasks_errors ex_file (drm_rocket_job.mk 4096 0 0 1 0 0 0) 10%nat
               (- EINVAL) ex_world) as [_ Herr]; [vm_compute; reflexivity|].
  split; [vm_compute; reflexivity|].
  destruct Herr as (_ & [[=]|[[[=] _]|(_ & tl & Hcopy & Hex)]]); [done|].
  vm_compute in Hcopy. by simplify_eq.
Defined.

(** ** Pushing a job: what a failure leaves behind *)

Lemma acquire_ret bos job is_write w r w' :
  rocket_acquire_object_fences bos job is_write w = Some (r, w') →
  r = 0 ∨ r = - ENOMEM.
Proof.
  revert w. induction bos as [|bo bos IH]; intros w; simpl.
  - intros [= <- <-]. by left.
  - unfold dma_resv_reserve_fences, drm_sched_job_add_implicit_dependencies.
    menv.
    { mstep. rewrite bool_decide_true by done. mstep. intros [= <- <-]. by right. }
    mstep. rewrite bool_decide_false by (by intros H; apply H).
    menv.
    { mstep. rewrite bool_decide_true by done. mstep. intros [= <- <-]. by right. }
    mcase. do 3 mstep. rewrite bool_decide_false by (by intros H; apply H).
    apply IH.
Qed.

Lemma push_inv_refs job w r w' k :
  rocket_job_push job w = Some (r, w') →
  jobs w !! job = Some k →
  ∃ k',
    jobs w' !! job = Some k' ∧
    refcount k' = (if bool_decide (r = 0) then refcount k + 1 else refcount k) ∧
    domain k' = domain k ∧ karma k' = karma k ∧
    next_ptr w' = next_ptr w ∧
    (∀ f, s_fence_finished k ≠ Some f → fences w' !! f = fences w !! f) ∧
    (∀ f, is_Some (fences w' !! f) ↔ is_Some (fences w !! f)) ∧
    (r = 0 ∨ r = - EINTR ∨ r = - ENOMEM).
Proof.
  intros Hrun Hk. revert Hrun. unfold rocket_job_push.
  mstep. unfold kvmalloc_array.
  assert (∀ l (P : Prop),
    (∀ w1, jobs w1 = jobs w → fences w1 = fences w → next_ptr w1 = next_ptr w →
           l w1 = Some (r, w') → P) →
    ((if bool_decide (Z.of_nat (length (in_bos k ++ out_bos k)) = 0)
      then mret true else env_fails ≫= λ failed, mret (negb failed)) ≫=
     (λ allocated : bool, if negb allocated then oops else l)) w = Some (r, w') → P)
    as Halloc.
  { intros l P HP. case_bool_decide.
    - mstep. cbn [negb]. by apply HP.
    - menv; mstep; cbn [negb]; [done|]. by apply HP. }
  apply Halloc. clear Halloc. intros w1 Hjobs1 Hfences1 Hnext1.
  unfold drm_gem_lock_reservations.
  assert (jobs w1 !! job = Some k) as Hk1 by (by rewrite Hjobs1).
  menv.
  { mstep. rewrite bool_decide_true by done. mstep. intros [= <- <-].
    exists k. wsimpl. rewrite Hjobs1, Hfences1, Hnext1.
    rewrite bool_decide_false by done. split_and!; auto. }
  mstep. rewrite bool_decide_false by (by intros H; apply H).
  unfold drm_sched_job_arm. mstep. mstep. mcase. mcase. do 5 mstep.
  set (k1 := job_with_inference_done_fence _ _).
  assert (∀ f d0, Some p ≠ Some f →
            <[p := d0]> (fences w1) !! f = fences w !! f) as Hother.
  { intros f d0 Hf. rewrite lookup_insert_ne by congruence. by rewrite Hfences1. }
  assert (∀ f d0, is_Some (<[p := d0]> (fences w1) !! f) ↔ is_Some (fences w !! f))
    as Hdom.
  { intros f d0. rewrite <- Hfences1. destruct (decide (p = f)) as [<-|Hne].
    - cbn [fences set_env_fail] in Hlk0. rewrite lookup_insert_eq, Hlk0. split; by eauto.
    - by rewrite lookup_insert_ne. }
  rewrite bind_eq.
  match goal with |- context [rocket_acquire_object_fences ?b ?j ?wr ?W] =>
    destruct (rocket_acquire_object_fences b j wr W) as [[r1 wa]|] eqn:Hacq1; [|done]
  end.
  pose proof (acquire_ret _ _ _ _ _ _ Hacq1) as Hr1.
  eapply (acquire_inv _ _ _ _ _ _ k1) in Hacq1
    as (extra1 & Hjobsa & _ & _ & Hfencesa & _ & Hnexta & _); [|lookup_tac].
  revert Hjobsa Hfencesa Hnexta. wsimpl. rewrite insert_insert_eq.
  intros Hjobsa Hfencesa Hnexta.
  cbv beta iota. case_bool_decide as Hne1.
  { mstep. intros [= <- <-]. eexists.
    rewrite Hjobsa, lookup_insert_eq, Hfencesa, Hnexta.
    rewrite bool_decide_false by done.
    split_and!; [done|done|done|done|done|by auto|by auto|]. destruct Hr1; [done|by auto]. }
  rewrite bind_eq.
  match goal with |- context [rocket_acquire_object_fences ?b ?j ?wr ?W] =>
    destruct (rocket_acquire_object_fences b j wr W) as [[r2 wb]|] eqn:Hacq2; [|done]
  end.
  pose proof (acquire_ret _ _ _ _ _ _ Hacq2) as Hr2.
  eapply (acquire_inv _ _ _ _ _ _ (job_with_dependencies (dependencies k1 ++ extra1) k1))
    in Hacq2 as (extra2 & Hjobsb & _ & _ & Hfencesb & _ & Hnextb & _);
    [|rewrite Hjobsa; apply lookup_insert_eq].
  rewrite Hjobsa, insert_insert_eq in Hjobsb.
  cbv beta iota. case_bool_decide as Hne2.
  { mstep. intros [= <- <-]. eexists.
    rewrite Hjobsb, lookup_insert_eq, Hfencesb, Hfencesa, Hnextb, Hnexta.
    rewrite bool_decide_false by done.
    split_and!; [done|done|done|done|done|by auto|by auto|]. destruct Hr2; [done|by auto]. }
  set (k2 := job_with_dependencies ((dependencies k1 ++ extra1) ++ extra2) k1) in *.
  assert (jobs wb !! job = Some k2) as Hk2 by (rewrite Hjobsb; apply lookup_insert_eq).
  do 2 mstep. unfold drm_sched_entity_push_job. mstep. mcase. mstep.
  cbn [inference_done_fence job_with_dependencies k2 k1 job_with_inference_done_fence
       s_fence_finished job_with_base_sched].
  rewrite Hlk. mstep. rewrite bind_eq, attach_eq. cbv beta iota. mstep.
  intros [= <- <-]. eexists. wsimpl.
  rewrite lookup_insert_eq, Hfencesb, Hfencesa, Hnextb, Hnexta.
  assert (r2 = 0) as -> by (destruct (decide (r2 = 0)); [done|by destruct Hne2]).
  rewrite bool_decide_true by done.
  split_and!; [done|done|done|done|done|by auto|by auto|by left].
Qed.



(** ** The reset path runs once per request *)

Lemma reset_not_pending w core c bad :
  cores w !! core = Some c → reset_pending c = false →
  rocket_reset core bad w = Some (tt, w).
Proof. intros Hc Hp. unfold rocket_reset. mstep. by rewrite Hp. Qed.

(** X6: the reset path acts only on a core whose reset flag is set, and
    one run of it uses the request up.  On a core without a pending reset,
    [rocket_reset] and the reset work item change nothing at all: no
    register is written, the scheduler is not stopped and the core is not
    power-cycled.  After a reset has run on a core whose flag was set, a
    further run, whichever job it is told to blame, changes nothing. *)
Theorem reset_runs_once (w : world) (core : nat) (c : rocket_core) :
  cores w !! core = Some c →
  (reset_pending c = false →
     rocket_reset_work core w = Some (tt, w) ∧
     ∀ bad, rocket_reset core bad w = Some (tt, w)) ∧
  (reset_pending c = true → slot_ok w c →
     ∀ bad, bad_ok w bad →
       ∃ w', rocket_reset core bad w = Some (tt, w') ∧
             rocket_reset_work core w' = Some (tt, w') ∧
             ∀ bad', rocket_reset core bad' w' = Some (tt, w')).
Proof.
  intros Hc. split.
  - intros Hp. split; [|intros bad]; by eapply reset_not_pending.
  - intros Hp Hslot bad Hbad.
    destruct (rocket_reset_spec w core c bad Hc Hp Hslot Hbad)
      as (w' & evs & Hrun & Hcores & _).
    exists w'. split; [done|].
    assert (cores w' !! core = Some (core_after_reset c)) as Hc'.
    { rewrite Hcores. apply list_lookup_insert_eq. by eapply lookup_lt_Some. }
    split; [|intros bad']; by eapply reset_not_pending.
Qed.

Lemma reset_runs_once_witness :
  ∃ w', rocket_reset 0%nat (Some 10%nat) (ex_running 1 true) = Some (tt, w') ∧
        rocket_reset_work 0%nat w' = Some (tt, w') ∧
        rocket_reset_work 0%nat ex_world = Some (tt, ex_world).
Proof.
  destruct (reset_runs_once (ex_running 1 true) 0%nat _ eq_refl) as [_ Hset].
  destruct (Hset eq_refl) with (bad := Some 10%nat) as (w' & Hrun & Hwork & _).
  - eexists. split; [reflexivity|]. left. simpl. lia.
  - by eexists.
  - exists w'. split; [exact Hrun|]. split; [exact Hwork|].
    by destruct (reset_runs_once ex_world 0%nat _ eq_refl) as [[Hidle _] _].
Defined.

(** ** The life of a submitted job *)

(** The head action of a computation that has returned has returned too. *)
Ltac msplit H x w :=
  rewrite bind_eq;
  lazymatch goal with
  | |- match ?m with _ => _ end = _ → _ => destruct m as [[x w]|] eqn:H; [|done]
  end;
  cbv beta iota.

Lemma job_init_inv rjob w r w' :
  drm_sched_job_init rjob w = Some (r, w') →
  (r = - ENOMEM ∧ w' = set_env_fail (tl (env_fail w)) w) ∨
  (∃ j, jobs w !! rjob = Some j ∧ r = 0 ∧
     w' = set_jobs (insert rjob
            (mk_job (tasks j) (task_count j) (next_task_idx j) (in_bos j) (out_bos j)
                    (domain j) (done_fence j) (inference_done_fence j) (refcount j)
                    (base_sched j) (Some (next_ptr w)) [] 0))
            (set_fences (insert (next_ptr w) (mk_fence 0 0 false 0))
               (set_next_ptr (S (next_ptr w)) (set_env_fail (tl (env_fail w)) w)))).
Proof.
  unfold drm_sched_job_init. msplit Hk p0 w0.
  apply kalloc_inv in Hk as [[-> ->]|[-> ->]]; cbv beta iota.
  - mstep. intros [= <- <-]. by left.
  - mstep. mcase. do 2 mstep. intros [= <- <-]. right. by eexists.
Qed.

Lemma objects_lookup_inv file h n w r w' :
  drm_gem_objects_lookup file h n w = Some (r, w') →
  cores w' = cores w ∧ jobs w' = jobs w ∧ fences w' = fences w ∧ resvs w' = resvs w ∧
  next_ptr w' = next_ptr w ∧ rr_next w' = rr_next w ∧ trace w' = trace w ∧
  match r with
  | inl e => e ≠ 0
  | inr objs =>
      ∃ handles, copy_from_user (um_handles (user file)) h n = Some handles ∧
                 mapM (λ h, object_idr file !! h) handles = Some objs
  end.
Proof.
  unfold drm_gem_objects_lookup, kvmalloc_array. case_bool_decide as Hn.
  { mstep. intros [= <- <-]. split_and!; try done. exists [].
    unfold copy_from_user. by rewrite bool_decide_true. }
  menv; mstep; cbn [negb]; [by mstep; intros [= <- <-]|].
  destruct (copy_from_user _ h n) as [handles|] eqn:Hcopy;
    [|by mstep; intros [= <- <-]].
  destruct (mapM _ handles) as [objs|] eqn:Hres; mstep; intros [= <- <-];
    split_and!; try done.
  by exists handles.
Qed.

(** The exit path of [rocket_ioctl_submit_job] for a job that nobody else
    holds: the job is freed, and on an error its scheduler fence is
    released first. *)
Lemma out_cleanup_job_last rjob ret w k fin :
  jobs w !! rjob = Some k → refcount k = 1 → s_fence_finished k = Some fin →
  ret ≠ 0 →
  out_cleanup_job rjob ret w =
    Some (ret, set_jobs (delete rjob) (set_fences (delete fin) w)).
Proof.
  intros Hk Href Hfin Hret. unfold out_cleanup_job.
  rewrite bool_decide_true by done.
  unfold drm_sched_job_cleanup, rocket_job_put, rocket_job_cleanup.
  mstep. rewrite Hfin. do 2 mstep. rewrite Href, bool_decide_true by done.
  by do 2 mstep.
Qed.

Lemma cleanup_restores w p q k wm ret :
  building w p q k wm →
  jobs w !! p = None → fences w !! q = None →
  refcount k = 1 → s_fence_finished k = Some q → ret ≠ 0 →
  ∃ w', out_cleanup_job p ret wm = Some (ret, w') ∧
        jobs w' = jobs w ∧ fences w' = fences w ∧ cores w' = cores w ∧
        resvs w' = resvs w ∧ trace w' = trace w.
Proof.
  intros (Hjobs & _ & Hfences & Hcores & Hresvs & Htr) Hp Hq Href Hfin Hret.
  erewrite out_cleanup_job_last; [| |done..].
  2: { rewrite Hjobs. apply lookup_insert_eq. }
  eexists. split; [done|]. wsimpl. split_and!; try done.
  - by rewrite Hjobs, delete_insert_eq, delete_id.
  - apply map_eq. intros f. destruct (decide (f = q)) as [->|Hne].
    + by rewrite lookup_delete_eq, Hq.
    + rewrite lookup_delete_ne by done. by apply Hfences.
Qed.

Lemma building_frame w p q k wm wm' :
  building w p q k wm →
  jobs wm' = jobs wm → fences wm' = fences wm → cores wm' = cores wm →
  resvs wm' = resvs wm → trace wm' = trace wm →
  building w p q k wm'.
Proof.
  intros (Hjobs & Hq & Hfences & Hcores & Hresvs & Htr) Hj Hf Hc Hr Ht.
  split_and!; try congruence. intros f Hne. rewrite Hf. by apply Hfences.
Qed.

Lemma building_put_job w p q k k' wm :
  building w p q k wm → building w p q k' (set_jobs (insert p k') wm).
Proof.
  intros (Hjobs & Hq & Hfences & Hcores & Hresvs & Htr).
  split_and!; try done. wsimpl. by rewrite Hjobs, insert_insert_eq.
Qed.

Lemma submit_job_inv file job w r w' :
  heap_fresh w →
  rocket_ioctl_submit_job file job w = Some (r, w') →
  (r ≠ 0 ∧ jobs w' = jobs w ∧ fences w' = fences w ∧ cores w' = cores w ∧
   resvs w' = resvs w ∧ trace w' = trace w) ∨
  (r = 0 ∧ drm_rocket_job.task_count job ≠ 0 ∧
   ∃ tl ins outs k c,
     copy_from_user (um_tasks (user file)) (drm_rocket_job.tasks job)
                    (drm_rocket_job.task_count job) = Some tl ∧
     Forall task_well_formed tl ∧
     (∃ hs, copy_from_user (um_handles (user file)) (drm_rocket_job.in_bo_handles job)
                           (drm_rocket_job.in_bo_handle_count job) = Some hs ∧
            mapM (λ h, object_idr file !! h) hs = Some ins) ∧
     (∃ hs, copy_from_user (um_handles (user file)) (drm_rocket_job.out_bo_handles job)
                           (drm_rocket_job.out_bo_handle_count job) = Some hs ∧
            mapM (λ h, object_idr file !! h) hs = Some outs) ∧
     jobs w' = <[next_ptr w := k]> (jobs w) ∧
     tasks k = kernel_task <$> tl ∧ task_count k = drm_rocket_job.task_count job ∧
     next_task_idx k = 0 ∧ in_bos k = ins ∧ out_bos k = outs ∧
     domain k = file_domain file ∧ refcount k = 1 ∧ done_fence k = None ∧
     s_fence_finished k = Some (S (next_ptr w)) ∧
     dependencies k = wait_set w ins false ++ wait_set w outs true ∧
     (∀ f, f ≠ S (next_ptr w) → fences w' !! f = fences w !! f) ∧
     is_Some (fences w' !! S (next_ptr w)) ∧
     cores w !! base_sched k = Some c ∧
     cores w' = <[base_sched k :=
                    core_with_sched
                      (sched_with_queue (sched_queue (sched c) ++ [next_ptr w]) (sched c)) c]>
                  (cores w) ∧
     resvs w' = attach_all (S (next_ptr w)) outs (resvs w) ∧
     trace w' = trace w).
Proof.
  intros Hfresh. unfold rocket_ioctl_submit_job.
  case_bool_decide as Hn; [by mstep; intros [= <- <-]; left|].
  msplit Hk p0 w0. apply kalloc_inv in Hk as [[-> ->]|[-> ->]]; cbv beta iota.
  { mstep. intros [= <- <-]. by left. }
  destruct (Hfresh (next_ptr w)) as [Hjp Hfp]; [done|].
  destruct (Hfresh (S (next_ptr w))) as [_ Hfq]; [lia|].
  set (p := next_ptr w) in *. set (q := S p) in *.
  mstep. msplit Hinit x0 w0.
  apply job_init_inv in Hinit as [[-> ->]|(j0 & Hj0 & -> & ->)].
  { rewrite bool_decide_true by done.
    unfold rocket_job_put, rocket_job_cleanup. mstep.
    cbn [refcount kzalloc_rocket_job]. rewrite bool_decide_true by done.
    do 2 mstep. intros [= <- <-]. left. wsimpl.
    rewrite delete_insert_eq, delete_id by done. by split_and!. }
  revert Hj0. wsimpl. rewrite lookup_insert_eq. intros [= <-].
  rewrite bool_decide_false by (by intros H; apply H).
  cbn [tasks task_count next_task_idx in_bos out_bos domain done_fence
       inference_done_fence refcount base_sched kzalloc_rocket_job].
  fold q.
  match goal with |- _ ?W = _ → _ => remember W as w1 eqn:Hw1 end.
  set (k0 := mk_job [] 0 0 [] [] 0 None None 1 0%nat (Some q) [] 0) in *.
  assert (building w p q k0 w1) as Hb1.
  { subst w1. split_and!; wsimpl; try done.
    - by rewrite insert_insert_eq.
    - by rewrite lookup_insert_eq.
    - intros f Hne. by rewrite lookup_insert_ne. }
  clear Hw1.
  msplit Hcopy x w2.
  apply copy_tasks_inv in Hcopy as (j & j' & Hj & Hjobs2 & Hframe2 & Hcases).
  pose proof Hb1 as (Hjobs1 & _).
  rewrite Hjobs1, lookup_insert_eq in Hj. injection Hj as <-.
  rewrite Hjobs1, insert_insert_eq in Hjobs2.
  destruct Hframe2 as (Hc2 & Hf2 & Hr2 & _ & _ & Ht2 & _).
  assert (building w p q j' w2) as Hb2.
  { destruct Hb1 as (_ & Hq1 & Hf1 & Hc1 & Hr1 & Ht1).
    split_and!; try congruence. intros f Hne. rewrite Hf2. by apply Hf1. }
  clear Hb1 Hjobs1 Hc2 Hf2 Hr2 Ht2 w1.
  assert (refcount j' = 1 ∧ s_fence_finished j' = Some q ∧ in_bos j' = [] ∧
          out_bos j' = [] ∧ next_task_idx j' = 0 ∧ done_fence j' = None ∧
          task_count j' = drm_rocket_job.task_count job ∧
          dependencies j' = [] ∧
          (x = 0 → ∃ tl, copy_from_user (um_tasks (user file)) (drm_rocket_job.tasks job)
                           (drm_rocket_job.task_count job) = Some tl ∧
                         Forall task_well_formed tl ∧ tasks j' = kernel_task <$> tl))
    as (Href & Hfin & Hin0 & Hout0 & Hidx & Hdf & Hcnt & Hdeps & Htasks).
  { destruct Hcases as [(? & _)|[(_ & -> & ->)|[(_ & -> & _ & ->)|
      (_ & tl & copied & Hcp & Hloop & ->)]]]; [done|by split_and!..|].
    split_and!; try done. intros ->.
    apply copy_tasks_loop_inv in Hloop as [(_ & Hall & ->)|[[=] _]].
    by exists tl. }
  clear Hcases.
  assert (∀ k wm ret,
            building w p q k wm → refcount k = 1 → s_fence_finished k = Some q →
            ret ≠ 0 →
            out_cleanup_job p ret wm = Some (r, w') →
            r ≠ 0 ∧ jobs w' = jobs w ∧ fences w' = fences w ∧ cores w' = cores w ∧
            resvs w' = resvs w ∧ trace w' = trace w) as Hrefuse.
  { intros k wm ret Hb Hrc Hsf Hret Hrun.
    destruct (cleanup_restores w p q k wm ret) as (w3 & Hrun3 & ?); try done.
    rewrite Hrun3 in Hrun. by simplify_eq. }
  case_bool_decide as Hx; [by intros Hrun; left; eapply (Hrefuse j' w2 x)|].
  assert (x = 0) as -> by (destruct (decide (x = 0)); [done|by destruct Hx]).
  destruct (Htasks eq_refl) as (tl & Hcp & Hall & Htl). clear Htasks Hx.
  (* the input buffers *)
  msplit Hin r3 w3.
  apply objects_lookup_inv in Hin as (Hc3 & Hj3 & Hf3 & Hr3 & _ & _ & Ht3 & Hres3).
  assert (building w p q j' w3) as Hb3 by (by eapply building_frame).
  destruct r3 as [e|ins]; [by intros Hrun; left; eapply (Hrefuse j' w3 e)|].
  destruct Hres3 as (hs_in & Hcopy_in & Hins).
  assert (jobs w3 !! p = Some j') as Hjw3
    by (destruct Hb3 as [-> _]; apply lookup_insert_eq).
  do 2 mstep.
  pose proof (building_put_job w p q j' (job_with_in_bos ins j') w3 Hb3) as Hb3'.
  (* the output buffers *)
  msplit Hout r4 w4.
  apply objects_lookup_inv in Hout as (Hc4 & Hj4 & Hf4 & Hr4 & _ & _ & Ht4 & Hres4).
  assert (building w p q (job_with_in_bos ins j') w4) as Hb4
    by (by eapply building_frame).
  destruct r4 as [e|outs];
    [by intros Hrun; left; eapply (Hrefuse (job_with_in_bos ins j') w4 e)|].
  destruct Hres4 as (hs_out & Hcopy_out & Houts).
  assert (jobs w4 !! p = Some (job_with_in_bos ins j')) as Hjw4
    by (destruct Hb4 as [-> _]; apply lookup_insert_eq).
  do 2 mstep.
  set (k5 := job_with_domain _ _).
  pose proof (building_put_job w p q _ k5 w4 Hb4) as Hb5.
  (* the push *)
  msplit Hpush ret w6.
  assert (jobs (set_jobs <[p:=k5]> w4) !! p = Some k5) as Hk5 by apply lookup_insert_eq.
  destruct (push_inv _ _ _ _ _ Hpush Hk5)
    as (k' & extra & Hjobs6 & Htasks6 & Hcnt6 & Hidx6 & Hin6 & Hout6 & Hfin6 & Hdf6 &
        Hdeps6 & Htr6 & Hok & Hfail).
  destruct (push_inv_refs _ _ _ _ _ Hpush Hk5)
    as (k2 & Hk2 & Href6 & Hdom6 & _ & _ & Hfother & Hfdom & _).
  rewrite Hjobs6, lookup_insert_eq in Hk2. injection Hk2 as <-.
  destruct Hb5 as (Hjobs5 & Hq5 & Hf5 & Hc5 & Hr5 & Ht5).
  rewrite Hjobs5, insert_insert_eq in Hjobs6.
  assert (is_Some (fences w6 !! q) ∧ ∀ f, f ≠ q → fences w6 !! f = fences w !! f)
    as [Hq6 Hf6].
  { split; [by apply Hfdom|]. intros f Hne. rewrite Hfother; [by apply Hf5|].
    cbn. rewrite Hfin. congruence. }
  destruct (decide (ret = 0)) as [->|Hret].
  2: { intros Hrun. left. destruct (Hfail Hret) as [Hr6 Hc6].
       eapply (Hrefuse k' w6 ret); try done.
       - split_and!; try done; congruence.
       - rewrite bool_decide_false in Href6 by done. by rewrite Href6.
       - by rewrite Hfin6. }
  rewrite bool_decide_true in Href6 by done.
  destruct (Hok eq_refl) as (fin & c & Hsf & Hidf & Hextra & Hresvs6 & Hc6 & Hcores6).
  cbn in Hsf. rewrite Hfin in Hsf. injection Hsf as <-.
  unfold out_cleanup_job, rocket_job_put.
  rewrite bool_decide_false by (by intros H; apply H).
  assert (jobs w6 !! p = Some k') as Hk6 by (rewrite Hjobs6; apply lookup_insert_eq).
  do 2 mstep. rewrite bool_decide_false.
  2: { rewrite Href6. cbn. rewrite Href. lia. }
  do 2 mstep. intros [= <- <-]. right. split; [done|]. split; [done|].
  exists tl, ins, outs, (job_with_refcount (refcount k' - 1) k'), c. wsimpl.
  split_and!; try done.
  - by exists hs_in.
  - by exists hs_out.
  - by rewrite Hjobs6, insert_insert_eq.
  - cbn. by rewrite Htasks6.
  - cbn. by rewrite Hcnt6.
  - cbn. by rewrite Hidx6.
  - cbn. rewrite Href6. cbn. rewrite Href. lia.
  - cbn. by rewrite Hdf6.
  - cbn. by rewrite Hfin6.
  - rewrite !(wait_set_same w _ _ _ Hr5) in Hextra.
    cbn. rewrite Hdeps6, Hextra. cbn. by rewrite Hdeps.
  - by rewrite <- Hc5.
  - by rewrite Hcores6, Hc5.
  - by rewrite Hresvs6, Hr5.
  - by rewrite Htr6, Ht5.
Qed.

Lemma heap_fresh_ex_world : heap_fresh ex_world.
Proof.
  intros p Hp. unfold ex_world in *. revert Hp. wsimpl. intros Hp.
  split; apply lookup_singleton_ne; lia.
Qed.



(** X8: what a successful submission has built.  When
    [rocket_ioctl_submit_job] returns 0, the user's task array was readable
    and well formed and all buffer handles were known to the client; there
    is exactly one new job object, holding a copy of the tasks with its
    cursor at 0, the buffers the input and output handles resolve to, the
    address space of the client and no hardware fence yet; it waits for
    the fences its buffers carried; one reference to it is left, the one
    the scheduler holds; it sits at the tail of the queue of the core it
    was armed on; and its scheduler fence is the writer fence of its output
    buffers. *)
Theorem submit_job_success
    (file : drm_file) (job : drm_rocket_job.t) (w w' : world) :
  heap_fresh w →
  rocket_ioctl_submit_job file job w = Some (0, w') →
  ∃ tl ins outs k c,
    copy_from_user (um_tasks (user file)) (drm_rocket_job.tasks job)
                   (drm_rocket_job.task_count job) = Some tl ∧
    Forall task_well_formed tl ∧
    (∃ hs, copy_from_user (um_handles (user file)) (drm_rocket_job.in_bo_handles job)
                          (drm_rocket_job.in_bo_handle_count job) = Some hs ∧
           mapM (λ h, object_idr file !! h) hs = Some ins) ∧
    (∃ hs, copy_from_user (um_handles (user file)) (drm_rocket_job.out_bo_handles job)
                          (drm_rocket_job.out_bo_handle_count job) = Some hs ∧
           mapM (λ h, object_idr file !! h) hs = Some outs) ∧
    jobs w' = <[next_ptr w := k]> (jobs w) ∧
    tasks k = kernel_task <$> tl ∧ task_count k = drm_rocket_job.task_count job ∧
    next_task_idx k = 0 ∧ in_bos k = ins ∧ out_bos k = outs ∧
    domain k = file_domain file ∧ refcount k = 1 ∧ done_fence k = None ∧
    s_fence_finished k = Some (S (next_ptr w)) ∧
    dependencies k = wait_set w ins false ++ wait_set w outs true ∧
    (∀ f, f ≠ S (next_ptr w) → fences w' !! f = fences w !! f) ∧
    is_Some (fences w' !! S (next_ptr w)) ∧
    cores w !! base_sched k = Some c ∧
    cores w' = <[base_sched k :=
                   core_with_sched
                     (sched_with_queue (sched_queue (sched c) ++ [next_ptr w]) (sched c)) c]>
                 (cores w) ∧
    resvs w' = attach_all (S (next_ptr w)) outs (resvs w) ∧
    trace w' = trace w.
Proof.
  intros Hfresh [([] & _)|(_ & _ & Hbuilt)]%submit_job_inv; done.
Qed.

Lemma submit_job_success_witness :
  ∃ w' k,
    rocket_ioctl_submit_job ex_file_ok (drm_rocket_job.mk 4096 20480 24576 2 1 1 0)
                            ex_world = Some (0, w') ∧
    jobs w' !! 20%nat = Some k ∧
    tasks k = [mk_task 65536 16; mk_task 69632 7] ∧
    in_bos k = [100%nat] ∧ out_bos k = [200%nat] ∧ refcount k = 1.
Proof.
  eexists.
  edestruct (submit_job_success ex_file_ok (drm_rocket_job.mk 4096 20480 24576 2 1 1 0)
               ex_world)
    as (tl & ins & outs & k & c & Htl & _ & (hi & Hhi & Hins) & (ho & Hho & Houts) &
        Hjobs & Htasks & _ & _ & Hin & Hout & _ & Href & _);
    [exact heap_fresh_ex_world | vm_compute; reflexivity |].
  exists k. split; [vm_compute; reflexivity|].
  split; [etrans; [exact (f_equal (.!! 20%nat) Hjobs) | apply lookup_insert_eq]|].
  vm_compute in Htl, Hhi, Hho. simplify_eq.
  vm_compute in Hins, Houts. simplify_eq.
  by rewrite Htasks.
Defined.



(** ** Invariants kept by every entry point *)

Section preserves.
Context (I : world → Prop) (R : world → world → Prop).
Hypothesis R_refl : ∀ w, R w w.
Hypothesis R_trans : ∀ w1 w2 w3, R w1 w2 → R w2 w3 → R w1 w3.

Lemma preserves_bind {A B} (m : M A) (f : A → M B) :
  preserves I R m → (∀ x, preserves I R (f x)) → preserves I R (m ≫= f).
Proof using R_trans.
  intros Hm Hf w r w' Hw. rewrite bind_eq.
  destruct (m w) as [[x w1]|] eqn:Hrun; [|done].
  intros Hrun'. destruct (Hm _ _ _ Hw Hrun) as [Hw1 HR1].
  destruct (Hf x _ _ _ Hw1 Hrun') as [Hw2 HR2]. eauto.
Qed.

Lemma preserves_mret {A} (x : A) : preserves I R (mret x : M A).
Proof using R_refl. intros w r w' Hw [= _ <-]. eauto. Qed.

Lemma preserves_oops {A} : preserves I R (oops : M A).
Proof. by intros w r w' _ ?. Qed.

Lemma preserves_deref {A} (o : option A) : preserves I R (deref o).
Proof using R_refl. destruct o; [apply preserves_mret | apply preserves_oops]. Qed.

Lemma preserves_get : preserves I R get.
Proof using R_refl. intros w r w' Hw [= _ <-]. eauto. Qed.

Lemma preserves_get_core core : preserves I R (get_core core).
Proof using R_refl. intros w. unfold get_core. apply preserves_deref. Qed.

Lemma preserves_get_job job : preserves I R (get_job job).
Proof using R_refl. intros w. unfold get_job. apply preserves_deref. Qed.

Lemma preserves_get_fence f : preserves I R (get_fence f).
Proof using R_refl. intros w. unfold get_fence. apply preserves_deref. Qed.

Lemma preserves_modify (g : world → world) :
  (∀ w, I w → I (g w) ∧ R w (g w)) → preserves I R (modify g).
Proof. intros Hg w r w' Hw [= _ <-]. by apply Hg. Qed.

Lemma preserves_env_fails :
  (∀ l w, I w → I (set_env_fail l w) ∧ R w (set_env_fail l w)) →
  preserves I R env_fails.
Proof using R_refl.
  intros Henv w r w' Hw. unfold env_fails.
  destruct (env_fail w); intros [= _ <-]; eauto.
Qed.
End preserves.

(** *** Fences are signaled at most once *)























(** *** The runtime-PM references are balanced *)

Lemma pm_usage_app core t1 t2 :
  pm_usage core (t1 ++ t2) = pm_usage core t1 + pm_usage core t2.
Proof. unfold pm_usage. induction t1 as [|e t1 IH]; simpl; lia. Qed.

Lemma pm_usage_hw_submit k core task : pm_usage k (hw_submit_events core task) = 0.
Proof. reflexivity. Qed.

Lemma pm_usage_handle_irq k core : pm_usage k (handle_irq_events core) = 0.
Proof. reflexivity. Qed.

(** One step of accounting: the core [core] is rewritten and the events
    [evs] are produced; the usage counter of [core] moves as the slot
    does, and the counters of the other cores do not move. *)
Lemma pm_balanced_step w w' core c c' evs :
  cores w !! core = Some c →
  cores w' = <[core := c']> (cores w) →
  trace w' = trace w ++ evs →
  pm_usage core evs = slot_refs c' - slot_refs c →
  (∀ k, k ≠ core → pm_usage k evs = 0) →
  pm_balanced w → pm_balanced w'.
Proof.
  intros Hc Hcores Htr Hcore Hothers Hbal k ck. rewrite Hcores, Htr, pm_usage_app.
  apply lookup_lt_Some in Hc as Hlen.
  destruct (decide (core = k)) as [<-|Hne].
  - rewrite list_lookup_insert_eq by done. intros [= <-].
    rewrite (Hbal _ _ Hc), Hcore. lia.
  - rewrite list_lookup_insert_ne by done. intros Hk.
    rewrite (Hbal _ _ Hk), Hothers by done. lia.
Qed.

(** The same when no slot changes and no reference is taken or dropped. *)
Lemma pm_balanced_quiet w w' evs :
  in_flight_job <$> cores w' = in_flight_job <$> cores w →
  trace w' = trace w ++ evs →
  (∀ k, pm_usage k evs = 0) →
  pm_balanced w → pm_balanced w'.
Proof.
  intros Hcores Htr Hevs Hbal k ck Hk. rewrite Htr, pm_usage_app, Hevs.
  assert ((in_flight_job <$> cores w) !! k = Some (in_flight_job ck)) as Hslot
    by (by rewrite <- Hcores, list_lookup_fmap, Hk).
  rewrite list_lookup_fmap in Hslot.
  destruct (cores w !! k) as [c|] eqn:Hc; [|done].
  simpl in Hslot. injection Hslot as Hslot. rewrite (Hbal _ _ Hc).
  unfold slot_refs. rewrite Hslot. lia.
Qed.

Ltac pm_count :=
  rewrite ?pm_usage_app, ?pm_usage_hw_submit, ?pm_usage_handle_irq;
  unfold pm_usage, slot_refs; simpl;
  rewrite ?decide_True, ?decide_False by done; simpl; try lia.

Lemma pm_preserves_update_core {A} core (g : rocket_core → rocket_core)
    (rest : rocket_core → M A) :
  (∀ c, in_flight_job (g c) = in_flight_job c) →
  (∀ c, preserves pm_inv any_change (rest c)) →
  preserves pm_inv any_change (c ← get_core core; put_core core (g c) ;; rest c).
Proof.
  intros Hg Hrest w r w' [Henv Hbal]. mcase. mstep. intros Hrun.
  split; [|done]. eapply Hrest; [|exact Hrun]. split; [done|].
  eapply (pm_balanced_step w _ core _ (g _) []); wsimpl; try done.
  - by rewrite app_nil_r.
  - unfold slot_refs, pm_usage. rewrite Hg. simpl. lia.
Qed.

Lemma pm_preserves_update_core_last core (g : rocket_core → rocket_core) :
  (∀ c, in_flight_job (g c) = in_flight_job c) →
  preserves pm_inv any_change (c ← get_core core; put_core core (g c)).
Proof.
  intros Hg w r w' [Henv Hbal]. mcase. mstep. intros [= _ <-].
  split; [|done]. split; [done|].
  eapply (pm_balanced_step w _ core _ (g _) []); wsimpl; try done.
  - by rewrite app_nil_r.
  - unfold slot_refs, pm_usage. rewrite Hg. simpl. lia.
Qed.

Lemma pm_preserves_quiet {A} (m : M A) :
  (∀ w r w', m w = Some (r, w') →
     (env_fail w = [] → env_fail w' = []) ∧ cores w' = cores w ∧
     ∃ evs, trace w' = trace w ++ evs ∧ ∀ k, pm_usage k evs = 0) →
  preserves pm_inv any_change m.
Proof.
  intros Hm w r w' [Henv Hbal] Hrun.
  destruct (Hm _ _ _ Hrun) as (He & Hc & evs & Htr & Hevs).
  split; [|done]. split; [by auto|].
  eapply pm_balanced_quiet; [by rewrite Hc|done..].
Qed.

Ltac pm_quiet :=
  apply pm_preserves_quiet; unfold emit, put_job, put_fence, modify, env_fails;
  intros ? ? ?; try (destruct (env_fail _) eqn:?); intros [= _ <-];
  (split; [done|]); (split; [done|]);
  first [ by exists []; rewrite app_nil_r
        | eexists; (split; [wsimpl; reflexivity|]); intros ?; reflexivity ].

Lemma any_change_trans w1 w2 w3 : any_change w1 w2 → any_change w2 w3 → any_change w1 w3.
Proof. done. Qed.
Lemma any_change_refl w : any_change w w.
Proof. done. Qed.

Lemma pm_preserves_handle_irq core :
  preserves pm_inv any_change (rocket_job_handle_irq core).
Proof.
  intros w [] w' [Henv Hbal]. rewrite handle_irq_eq.
  destruct (cores w !! core) as [c|] eqn:Hc; [|done].
  assert (∀ k, pm_usage k (handle_irq_events core) = 0) as Hirq by done.
  destruct (in_flight_job c) as [job|] eqn:Hin.
  - intros (j & Hj & Hcases)%handle_done_inv. split; [|done].
    destruct Hcases as [[_ Hsub]|(_ & c' & f & d & Hc' & _ & _ & ->)].
    + apply hw_submit_cases in Hsub
        as [(_ & _ & _ & ->)|(_ & j' & task & _ & _ & _ & _ & ->)];
        (split; [done|]).
      * by eapply (pm_balanced_quiet w _ (handle_irq_events core)).
      * eapply (pm_balanced_quiet w _ (handle_irq_events core ++ hw_submit_events core task));
          [done|wsimpl; by rewrite <- app_assoc|intros k; pm_count|done].
    + revert Hc'. wsimpl. rewrite Hc. intros [= <-].
      destruct (f_signaled d); (split; [done|]).
      * eapply (pm_balanced_step w _ core c (core_with_in_flight_job None c)
                  (handle_irq_events core ++
                   [EvIommuDetach core; EvPm core pm_runtime_put_autosuspend]));
          [done|done|wsimpl; by rewrite <- app_assoc| | |done].
        -- unfold slot_refs. simpl. rewrite Hin. pm_count.
        -- intros k Hk. pm_count.
      * eapply (pm_balanced_step w _ core c (core_with_in_flight_job None c)
                  (handle_irq_events core ++
                   [EvIommuDetach core; EvFenceSignal f;
                    EvPm core pm_runtime_put_autosuspend]));
          [done|done|wsimpl; by rewrite <- app_assoc| | |done].
        -- unfold slot_refs. simpl. rewrite Hin. pm_count.
        -- intros k Hk. pm_count.
  - intros [= <-]. split; [|done]. split; [done|].
    by eapply (pm_balanced_quiet w _ (handle_irq_events core)).
Qed.

Lemma pm_preserves_release {A} core (rest : M A) :
  preserves pm_inv any_change rest →
  preserves pm_inv any_change
    (c ← get_core core;
     match in_flight_job c with
     | Some _ => emit (EvPm core pm_runtime_put_noidle)
     | None => mret tt
     end ;;
     put_core core (core_with_in_flight_job None c) ;;
     rest).
Proof.
  intros Hrest w r w' [Henv Hbal]. mcase.
  destruct (in_flight_job _) as [job|] eqn:Hin; do 2 mstep; intros Hrun;
    (split; [|done]); (eapply Hrest; [|exact Hrun]); (split; [done|]).
  - eapply (pm_balanced_step w _ core _ (core_with_in_flight_job None _)
              [EvPm core pm_runtime_put_noidle]); wsimpl; try done.
    + unfold slot_refs. simpl. rewrite Hin. pm_count.
    + intros k Hk. pm_count.
  - eapply (pm_balanced_step w _ core _ (core_with_in_flight_job None _) []);
      wsimpl; try done.
    + by rewrite app_nil_r.
    + unfold slot_refs. simpl. rewrite Hin. pm_count.
Qed.

Ltac pm_step :=
  lazymatch goal with
  | |- preserves _ _ (get_core _ ≫= _) =>
      first [ apply pm_preserves_update_core; [by intros ?|intros ?]
            | apply pm_preserves_update_core_last; by intros ?
            | apply pm_preserves_release
            | apply (preserves_bind _ _ any_change_trans); [|intros ?] ]
  | |- preserves _ _ (_ ≫= _) => apply (preserves_bind _ _ any_change_trans); [|intros ?]
  | |- preserves _ _ (mret _) => apply (preserves_mret _ _ any_change_refl)
  | |- preserves _ _ oops => apply preserves_oops
  | |- preserves _ _ get => apply (preserves_get _ _ any_change_refl)
  | |- preserves _ _ (deref _) => apply (preserves_deref _ _ any_change_refl)
  | |- preserves _ _ (get_core _) => apply (preserves_get_core _ _ any_change_refl)
  | |- preserves _ _ (get_job _) => apply (preserves_get_job _ _ any_change_refl)
  | |- preserves _ _ (get_fence _) => apply (preserves_get_fence _ _ any_change_refl)
  | |- preserves _ _ (emit _) => pm_quiet
  | |- preserves _ _ (put_job _ _) => pm_quiet
  | |- preserves _ _ env_fails => pm_quiet
  | |- preserves _ _ (rocket_job_handle_irq _) => apply pm_preserves_handle_irq
  | |- preserves _ _ (match ?x with _ => _ end) => destruct x
  end.

Ltac pm_tac := repeat pm_step.

Lemma pm_preserves_raise_irq core dpu_0 dpu_1 :
  preserves pm_inv any_change (raise_irq core dpu_0 dpu_1).
Proof.
  unfold raise_irq, rocket_job_irq_handler, rocket_pc_readl, rocket_pc_writel.
  pm_tac.
Qed.

Lemma pm_preserves_run_irq_thread core :
  preserves pm_inv any_change (run_irq_thread core).
Proof.
  intros w r w' [Henv Hbal]. unfold run_irq_thread, rocket_job_irq_handler_thread.
  mcase. destruct (irq_thread_pending _); [|by mstep; intros [= _ <-]].
  mstep. rewrite !bind_eq.
  match goal with |- context [rocket_job_handle_irq ?c ?W] =>
    destruct (rocket_job_handle_irq c W) as [[[] w1]|] eqn:Hrun; [|done]
  end.
  do 2 mstep. intros [= _ <-]. split; [|done].
  eapply pm_preserves_handle_irq; [|exact Hrun]. split; [done|].
  eapply (pm_balanced_step w _ core _ (core_with_irq_thread_pending false _) []);
    wsimpl; try done.
  - by rewrite app_nil_r.
  - unfold slot_refs, pm_usage. simpl. lia.
Qed.

Lemma pm_preserves_synchronize_irq core :
  preserves pm_inv any_change (synchronize_irq core).
Proof.
  unfold synchronize_irq.
  apply (preserves_bind _ _ any_change_trans); [pm_quiet|intros _].
  apply pm_preserves_run_irq_thread.
Qed.

Lemma pm_preserves_reset core bad :
  preserves pm_inv any_change (rocket_reset core bad).
Proof.
  unfold rocket_reset, drm_sched_stop, drm_sched_increase_karma,
    drm_sched_resubmit_jobs, drm_sched_start, rocket_pc_writel.
  pm_tac; apply pm_preserves_synchronize_irq.
Qed.

Lemma pm_preserves_timedout job :
  preserves pm_inv any_change (rocket_job_timedout job).
Proof.
  unfold rocket_job_timedout, dma_fence_is_signaled.
  pm_tac; first [apply pm_preserves_synchronize_irq | apply pm_preserves_reset].
Qed.

Lemma pm_preserves_sched_run_job job :
  preserves pm_inv any_change (sched_run_job job).
Proof.
  intros w r w' [Henv Hbal]. unfold sched_run_job. mcase. mcase.
  match goal with H : cores w !! _ = Some ?c |- _ =>
    rename H into Hc; destruct (in_flight_job c) as [other|] eqn:Hin
  end; [by mstep; intros [= _ <-]|].
  rewrite bind_eq.
  destruct (rocket_job_run job w) as [[res wr]|] eqn:Hrun; [|done].
  mstep. intros [= _ <-]. split; [|done]. revert Hrun.
  unfold rocket_job_run. mstep. mstep. mcase. mcase.
  case_bool_decide; [by mstep; intros [= _ <-]|].
  case_bool_decide; [by mstep; intros [= _ <-]|].
  unfold sched_to_core. case_decide as Hrange; [mstep|by rewrite bind_eq].
  erewrite bind_eq, fence_create_ok by done. cbv beta iota.
  apply lookup_lt_Some in Hc as Hlen.
  do 7 mstep. rewrite bind_eq.
  match goal with |- context [rocket_job_hw_submit ?c ?j ?W] =>
    destruct (rocket_job_hw_submit c j W) as [[[] w2]|] eqn:Hsub; [|done]
  end.
  mstep. intros [= _ <-].
  apply hw_submit_cases in Hsub
    as [(c1 & _ & _ & ->)|(c1 & j1 & task & _ & _ & _ & _ & ->)];
    (split; [done|]).
  - eapply (pm_balanced_step w _ _ _ _
              [EvPm _ pm_runtime_get_sync; EvIommuAttach _ _]);
      [exact Hc|wsimpl; by rewrite list_insert_insert_eq
      |wsimpl; by rewrite <- app_assoc| |intros k Hk; pm_count|done].
    unfold slot_refs. simpl. rewrite Hin. pm_count.
  - eapply (pm_balanced_step w _ _ _ _
              ([EvPm _ pm_runtime_get_sync; EvIommuAttach _ _] ++ hw_submit_events _ task));
      [exact Hc|wsimpl; by rewrite list_insert_insert_eq
      |wsimpl; by rewrite <- !app_assoc| |intros k Hk; pm_count|done].
    unfold slot_refs. simpl. rewrite Hin. pm_count.
Qed.

Lemma pm_preserves_run_sched_op o : preserves pm_inv any_change (run_sched_op o).
Proof.
  destruct o; unfold run_sched_op, run_op, rocket_reset_work, rocket_job_irq_handler_thread;
    first [ apply pm_preserves_sched_run_job | apply pm_preserves_raise_irq
          | apply pm_preserves_run_irq_thread | apply pm_preserves_reset
          | pm_tac; apply pm_preserves_timedout ].
Qed.

Lemma pm_preserves_run_sched_ops l : preserves pm_inv any_change (run_sched_ops l).
Proof.
  induction l as [|o l IH]; simpl.
  - apply (preserves_mret _ _ any_change_refl).
  - apply (preserves_bind _ _ any_change_trans); [apply pm_preserves_run_sched_op | done].
Qed.

(** X11: the runtime-PM references of the job engine stay balanced.  As
    long as the runtime-PM and IOMMU calls succeed and the scheduler only
    dispatches to a core whose slot is free, then along every sequence of
    dispatches, interrupts, completion handlings, timeouts and resets the
    engine holds exactly one runtime-PM reference on a core while a job is
    in flight there and none otherwise: the reference taken when a job is
    run is dropped when the job completes, or by the reset path when the
    job is stuck. *)
Theorem pm_references_balanced (l : list op) (w w' : world) :
  env_fail w = [] →
  pm_balanced w →
  run_sched_ops l w = Some (tt, w') →
  pm_balanced w' ∧
  ∀ core c, cores w' !! core = Some c → in_flight_job c = None →
    pm_usage core (trace w') = 0.
Proof.
  intros Henv Hbal Hrun.
  destruct (pm_preserves_run_sched_ops l w tt w' (conj Henv Hbal) Hrun) as [[_ Hbal'] _].
  split; [done|]. intros core c Hc Hin. rewrite (Hbal' _ _ Hc).
  unfold slot_refs. by rewrite Hin.
Qed.

Lemma pm_balanced_ex_world : pm_balanced ex_world.
Proof.
  intros core c. unfold ex_world. wsimpl.
  intros [-> <-]%list_lookup_singleton_Some. reflexivity.
Qed.

Lemma pm_references_balanced_witness :
  ∃ w', run_sched_ops [OpRunJob 10%nat; OpHandleIrq 0%nat; OpTimedout 10%nat;
                       OpRunJob 10%nat; OpHandleIrq 0%nat] ex_world = Some (tt, w') ∧
        pm_usage 0%nat (trace w') = 0.
Proof.
  eexists.
  edestruct (pm_references_balanced
               [OpRunJob 10%nat; OpHandleIrq 0%nat; OpTimedout 10%nat;
                OpRunJob 10%nat; OpHandleIrq 0%nat] ex_world)
    as [_ Hidle]; [reflexivity | exact pm_balanced_ex_world | vm_compute; reflexivity |].
  split; [vm_compute; reflexivity|].
  eapply Hidle; vm_compute; reflexivity.
Defined.

(** *** The entry points never fault *)

Lemma extends_refl w : extends w w.
Proof. split; [done|]. intros job j Hj. by exists j. Qed.

Lemma extends_trans w1 w2 w3 : extends w1 w2 → extends w2 w3 → extends w1 w3.
Proof.
  intros [Hl1 Hj1] [Hl2 Hj2]. split; [congruence|]. intros job j Hj.
  destruct (Hj1 _ _ Hj) as (j2 & Hjob2 & Hd2).
  destruct (Hj2 _ _ Hjob2) as (j3 & Hjob3 & Hd3). exists j3. split; [done|]. auto.
Qed.

Lemma op_enabled_extends w w' o : extends w w' → op_enabled w o → op_enabled w' o.
Proof.
  intros [Hlen Hjobs]. destruct o; simpl; try (by rewrite Hlen).
  - intros [j Hj]. destruct (Hjobs _ _ Hj) as (j' & Hj' & _). by exists j'.
  - intros (j & Hj & Hd). destruct (Hjobs _ _ Hj) as (j' & Hj' & Hd'). exists j'. auto.
Qed.

(** The state components [engine_wf] reads. *)
Lemma engine_wf_same w w' :
  cores w' = cores w → jobs w' = jobs w → fences w' = fences w →
  engine_wf w → engine_wf w' ∧ extends w w'.
Proof.
  intros Hc Hj Hf [Hjobs Hcores]. split; [split|].
  - intros job j. rewrite Hj. intros Hjob. unfold wf_job. rewrite Hc, Hf.
    by apply (Hjobs job).
  - intros core c. rewrite Hc. intros Hcore job Hin. rewrite Hj. by eapply Hcores.
  - split; [by rewrite Hc|]. intros job j. rewrite Hj. intros Hjob. by exists j.
Qed.

Lemma wf_job_fences w w' j :
  cores w' = cores w → (∀ f, is_Some (fences w !! f) → is_Some (fences w' !! f)) →
  wf_job w j → wf_job w' j.
Proof.
  intros Hc Hf (Hidx & Hlen & Hmax & Hcore & (f & Hfin & Hfinf) & Hdone).
  unfold wf_job. rewrite Hc. split_and!; try done; try lia.
  - exists f. split; [done|]. by apply Hf.
  - intros g Hg. apply Hf. by apply Hdone.
Qed.

(** A fence is added or rewritten. *)
Lemma engine_wf_put_fence w f d :
  engine_wf w → engine_wf (set_fences (insert f d) w) ∧
                extends w (set_fences (insert f d) w).
Proof.
  intros [Hjobs Hcores]. split; [split|].
  - intros job j Hj. eapply (wf_job_fences w); [done| |by eapply Hjobs].
    intros g. wsimpl. destruct (decide (f = g)) as [<-|Hne].
    + by rewrite lookup_insert_eq.
    + by rewrite lookup_insert_ne.
  - exact Hcores.
  - split; [done|]. intros job j Hj. by exists j.
Qed.

(** A core is rewritten, its slot being left alone or given a job that
    has been run. *)
Lemma engine_wf_put_core w core c c' :
  engine_wf w → cores w !! core = Some c →
  wf_core w c' →
  engine_wf (set_cores (insert core c') w) ∧ extends w (set_cores (insert core c') w).
Proof.
  intros [Hjobs Hcores] Hc Hc'. apply lookup_lt_Some in Hc as Hlen.
  split; [split|].
  - intros job j Hj. destruct (Hjobs _ _ Hj) as (? & ? & ? & ? & ? & ?).
    unfold wf_job. wsimpl. by rewrite length_insert.
  - intros k ck. wsimpl. destruct (decide (core = k)) as [<-|Hne].
    + rewrite list_lookup_insert_eq by done. by intros [= <-].
    + rewrite list_lookup_insert_ne by done. apply Hcores.
  - split; [wsimpl; by rewrite length_insert|]. intros job j Hj. by exists j.
Qed.

(** A job is rewritten into a well-formed job that keeps its hardware
    fence if it had one. *)
Lemma engine_wf_put_job w job j j' :
  engine_wf w → jobs w !! job = Some j →
  wf_job w j' → (is_Some (done_fence j) → is_Some (done_fence j')) →
  engine_wf (set_jobs (insert job j') w) ∧ extends w (set_jobs (insert job j') w).
Proof.
  intros [Hjobs Hcores] Hj Hj' Hd. split; [split|].
  - intros k jk. wsimpl. destruct (decide (job = k)) as [<-|Hne].
    + rewrite lookup_insert_eq. by intros [= <-].
    + rewrite lookup_insert_ne by done. apply Hjobs.
  - intros core c Hc k Hin. wsimpl.
    destruct (Hcores _ _ Hc _ Hin) as (jk & Hjk & Hdk).
    destruct (decide (job = k)) as [<-|Hne].
    + rewrite lookup_insert_eq. exists j'. split; [done|]. simplify_eq. auto.
    + rewrite lookup_insert_ne by done. by exists jk.
  - split; [done|]. intros k jk Hk. wsimpl. destruct (decide (job = k)) as [<-|Hne].
    + rewrite lookup_insert_eq. exists j'. split; [done|]. simplify_eq. auto.
    + rewrite lookup_insert_ne by done. by exists jk.
Qed.

Lemma hw_submit_runs w core job j :
  engine_wf w → (core < length (cores w))%nat →
  jobs w !! job = Some j → next_task_idx j < task_count j →
  runs w (rocket_job_hw_submit core job).
Proof.
  intros Hwf Hcore Hj Hlt.
  destruct (lookup_lt_is_Some_2 _ _ Hcore) as [c Hc].
  destruct (reset_pending c) eqn:Hp.
  { exists tt, w. erewrite hw_submit_reset_pending by done.
    split; [done|]. split; [done|apply extends_refl]. }
  pose proof (proj1 Hwf _ _ Hj) as (Hidx & Hlen & Hmax & Hsched & Hfin & Hdone).
  destruct (lookup_lt_is_Some_2 (tasks j) (Z.to_nat (next_task_idx j))) as [task Ht];
    [lia|].
  eexists tt, _. erewrite hw_submit_issue by done. split; [done|].
  destruct (engine_wf_put_job w job j
              (job_with_next_task_idx (u32 (next_task_idx j + 1)) j)) as [Hwf' Hext];
    try done.
  unfold wf_job. simpl. rewrite u32_small by lia. split_and!; try done; lia.
Qed.

Lemma handle_irq_runs w core :
  engine_wf w → (core < length (cores w))%nat →
  runs w (rocket_job_handle_irq core).
Proof.
  intros Hwf Hcore. destruct (lookup_lt_is_Some_2 _ _ Hcore) as [c Hc].
  unfold runs. rewrite handle_irq_eq, Hc.
  destruct (in_flight_job c) as [job|] eqn:Hin.
  2: { eexists tt, _. split; [done|]. split; [exact Hwf|apply (extends_refl w)]. }
  destruct (proj2 Hwf _ _ Hc _ Hin) as (j & Hj & f & Hf).
  pose proof (proj1 Hwf _ _ Hj) as (Hidx & Hlen & Hmax & Hsched & Hfin & Hdone).
  destruct (Hdone _ Hf) as [d Hd].
  unfold rocket_job_handle_done. mstep.
  case_bool_decide as Hlt.
  { destruct (hw_submit_runs (add_events (handle_irq_events core) w) core job j)
      as ([] & w' & Hrun & Hwf' & Hext'); try done.
    by exists tt, w'. }
  do 3 mstep. rewrite Hf. mstep.
  unfold dma_fence_signal_locked. mstep.
  destruct (engine_wf_put_core w core c (core_with_in_flight_job None c))
    as [Hwf1 Hext1]; [done..|].
  destruct (f_signaled d).
  - do 2 mstep. eexists tt, _. split; [done|]. split; [exact Hwf1|exact Hext1].
  - do 4 mstep. eexists tt, _. split; [done|].
    destruct (engine_wf_put_fence _ f (fence_with_signaled true d) Hwf1) as [Hwf2 Hext2].
    split; [exact Hwf2|]. eapply extends_trans; [exact Hext1|exact Hext2].
Qed.

Lemma runs_bind {A B} w (m : M A) (f : A → M B) :
  runs w m →
  (∀ r w1, m w = Some (r, w1) → engine_wf w1 → extends w w1 → runs w1 (f r)) →
  runs w (m ≫= f).
Proof.
  intros (r & w1 & Hrun & Hwf1 & Hext1) Hf.
  destruct (Hf _ _ Hrun Hwf1 Hext1) as (r2 & w2 & Hrun2 & Hwf2 & Hext2).
  exists r2, w2. rewrite bind_eq, Hrun. split; [done|]. split; [done|].
  by eapply extends_trans.
Qed.

Lemma runs_step {A B} w (m : M A) (f : A → M B) r w1 :
  m w = Some (r, w1) → extends w w1 → runs w1 (f r) → runs w (m ≫= f).
Proof.
  intros Hrun Hext (r2 & w2 & Hrun2 & Hwf2 & Hext2).
  exists r2, w2. rewrite bind_eq, Hrun. split; [done|]. split; [done|].
  by eapply extends_trans.
Qed.

Lemma runs_mret {A} w (x : A) : engine_wf w → runs w (mret x : M A).
Proof. intros Hwf. exists x, w. split; [done|]. split; [done|apply extends_refl]. Qed.

Lemma runs_env_fails {B} w (f : bool → M B) :
  (∀ b, runs (set_env_fail (tl (env_fail w)) w) (f b)) → runs w (env_fails ≫= f).
Proof.
  intros Hf. eapply runs_step; [apply env_fails_eq| |apply Hf].
  apply (extends_refl w).
Qed.

(** Reads leave the state alone. *)
Ltac rstep :=
  lazymatch goal with
  | |- runs ?w (get_job _ ≫= _) =>
      eapply runs_step; [apply get_job_eq; lookup_tac|apply extends_refl|]
  | |- runs ?w (get_core _ ≫= _) =>
      eapply runs_step; [apply get_core_eq; lookup_tac|apply extends_refl|]
  | |- runs ?w (get_fence _ ≫= _) =>
      eapply runs_step; [apply get_fence_eq; lookup_tac|apply extends_refl|]
  | |- runs ?w (get ≫= _) =>
      eapply runs_step; [apply get_eq|apply extends_refl|]
  | |- runs ?w (deref (Some _) ≫= _) =>
      eapply runs_step; [apply deref_some|apply extends_refl|]
  | |- runs ?w ((_ ≫= _) ≫= _) => fail
  end; cbv beta iota.

Lemma runs_emit {B} w e (f : unit → M B) :
  runs (add_events [e] w) (f tt) → runs w (emit e ≫= f).
Proof. intros Hf. eapply runs_step; [apply emit_eq| |done]. apply (extends_refl w). Qed.

Lemma fence_create_runs w core :
  engine_wf w → (core < length (cores w))%nat → runs w (rocket_fence_create core).
Proof.
  intros Hwf Hcore. destruct (lookup_lt_is_Some_2 _ _ Hcore) as [c Hc].
  unfold rocket_fence_create, kalloc, runs.
  rewrite !bind_eq, env_fails_eq. destruct (hd false (env_fail w)); cbv beta iota.
  { rewrite mret_eq. cbv beta iota. rewrite mret_eq.
    eexists _, _. split; [done|]. split; [exact Hwf|apply (extends_refl w)]. }
  do 7 mstep.
  destruct (engine_wf_put_core w core c (core_with_emit_seqno (u64 (emit_seqno c + 1)) c))
    as [Hwf1 Hext1]; [done|done|exact (proj2 Hwf core c Hc)|].
  destruct (engine_wf_put_fence _ (next_ptr w)
              (mk_fence (fence_context c) (u64 (emit_seqno c + 1)) false 0) Hwf1)
    as [Hwf2 Hext2].
  eexists _, _. split; [done|]. split; [exact Hwf2|].
  eapply extends_trans; [exact Hext1|exact Hext2].
Qed.

(** The well-formedness of the state the computation has reached. *)
Ltac wf_here Hold Hnew :=
  match goal with |- runs ?W _ => assert (engine_wf W) as Hnew by exact Hold end.

Lemma runs_emit_last w e : engine_wf w → runs w (emit e).
Proof.
  intros Hwf. exists tt, (add_events [e] w).
  split; [done|]. split; [exact Hwf|apply (extends_refl w)].
Qed.

Lemma job_run_runs w job :
  engine_wf w → is_Some (jobs w !! job) → runs w (rocket_job_run job).
Proof.
  intros Hwf [j Hj].
  pose proof (proj1 Hwf _ _ Hj) as (Hidx & Hlen & Hmax & Hsched & (fin & Hfin & [dfin Hdfin]) & Hdone).
  destruct (lookup_lt_is_Some_2 _ _ Hsched) as [c Hc].
  unfold rocket_job_run. rstep. rstep. rewrite Hfin.
  eapply runs_step; [by rewrite bind_eq, deref_some; apply get_fence_eq
                    |apply extends_refl|cbv beta iota].
  case_bool_decide; [by apply runs_mret|].
  case_bool_decide as Hne; [by apply runs_mret|].
  unfold sched_to_core. rewrite decide_True by done. rstep.
  apply runs_bind; [by apply fence_create_runs|].
  intros r w1 [[-> ->]|(c' & Hc' & -> & ->)]%fence_create_inv Hwf1 Hext1;
    [by apply runs_mret|].
  simplify_eq.
  set (f := next_ptr w) in *.
  set (j1 := job_with_done_fence (Some f) j).
  match goal with |- runs ?W _ =>
    assert (jobs W !! job = Some j) as Hj1 by (wsimpl; done);
    destruct (engine_wf_put_job W job j j1 Hwf1 Hj1) as [Hwf2 Hext2]
  end.
  { pose proof (proj1 Hwf1 _ _ Hj1) as (? & ? & ? & ? & ? & ?).
    unfold wf_job. subst j1. simpl. split_and!; try done; try lia.
    intros g [= <-]. by rewrite lookup_insert_eq. }
  { by eexists. }
  eapply (runs_step _ _ _ tt _ (put_job_eq _ _ _) Hext2).
  apply runs_emit. apply runs_env_fails. intros [|]; [apply runs_mret; exact Hwf2|].
  apply runs_emit. apply runs_env_fails. intros [|]; [apply runs_mret; exact Hwf2|].
  apply lookup_lt_Some in Hc as Hlen'.
  rstep.
  wf_here Hwf2 Hwf3.
  match goal with |- runs ?W (put_core ?core ?c2 ≫= _) =>
    destruct (engine_wf_put_core W core (core_with_emit_seqno (u64 (emit_seqno c + 1)) c) c2
                Hwf3) as [Hwf4 Hext4]
  end.
  { lookup_tac. }
  { intros k [= <-]. exists j1. wsimpl. rewrite lookup_insert_eq. split; [done|].
    by eexists. }
  eapply (runs_step _ _ _ tt _ (put_core_eq _ _ _) Hext4).
  apply runs_bind; [|intros [] w5 _ Hwf5 _; by apply runs_mret].
  eapply (hw_submit_runs _ _ _ j1); [exact Hwf4| | |].
  - wsimpl. by rewrite !length_insert.
  - wsimpl. apply lookup_insert_eq.
  - subst j1. simpl. lia.
Qed.

Lemma runs_update_core_then {B} w core (g : rocket_core → rocket_core)
    (rest : rocket_core → M B) :
  engine_wf w → (core < length (cores w))%nat →
  (∀ c, in_flight_job (g c) = in_flight_job c) →
  (∀ c w1, engine_wf w1 → extends w w1 → runs w1 (rest c)) →
  runs w (c ← get_core core; put_core core (g c) ;; rest c).
Proof.
  intros Hwf Hcore Hg Hrest. destruct (lookup_lt_is_Some_2 _ _ Hcore) as [c Hc].
  rstep.
  destruct (engine_wf_put_core w core c (g c) Hwf Hc) as [Hwf1 Hext1].
  { intros job. rewrite Hg. by apply (proj2 Hwf core). }
  eapply (runs_step _ _ _ tt _ (put_core_eq _ _ _) Hext1). by apply Hrest.
Qed.

Lemma runs_update_core w core (g : rocket_core → rocket_core) :
  engine_wf w → (core < length (cores w))%nat →
  (∀ c, in_flight_job (g c) = in_flight_job c) →
  runs w (c ← get_core core; put_core core (g c)).
Proof.
  intros Hwf Hcore Hg. destruct (lookup_lt_is_Some_2 _ _ Hcore) as [c Hc].
  destruct (engine_wf_put_core w core c (g c) Hwf Hc) as [Hwf1 Hext1].
  { intros job. rewrite Hg. by apply (proj2 Hwf core). }
  eexists tt, _. split; [|by split]. by do 2 mstep.
Qed.

Lemma raise_irq_runs w core dpu_0 dpu_1 :
  engine_wf w → (core < length (cores w))%nat → runs w (raise_irq core dpu_0 dpu_1).
Proof.
  intros Hwf Hcore. unfold raise_irq. apply runs_bind.
  - unfold rocket_job_irq_handler, rocket_pc_readl, rocket_pc_writel.
    apply runs_emit. destruct (negb _); [by apply runs_mret|].
    apply runs_emit. by apply runs_mret.
  - intros r w1 _ Hwf1 [Hlen1 _]. destruct r; try by apply runs_mret.
    apply runs_update_core; [done|by rewrite Hlen1|done].
Qed.

Lemma run_irq_thread_runs w core :
  engine_wf w → (core < length (cores w))%nat → runs w (run_irq_thread core).
Proof.
  intros Hwf Hcore. destruct (lookup_lt_is_Some_2 _ _ Hcore) as [c Hc].
  unfold run_irq_thread. rstep.
  destruct (irq_thread_pending c); [|by apply runs_mret].
  destruct (engine_wf_put_core w core c (core_with_irq_thread_pending false c) Hwf Hc)
    as [Hwf1 Hext1]; [exact (proj2 Hwf core c Hc)|].
  eapply (runs_step _ _ _ tt _ (put_core_eq _ _ _) Hext1).
  apply runs_bind; [|intros r w2 _ Hwf2 _; by apply runs_mret].
  unfold rocket_job_irq_handler_thread.
  apply runs_bind; [|intros r w2 _ Hwf2 _; by apply runs_mret].
  apply handle_irq_runs; [done|]. wsimpl. by rewrite length_insert.
Qed.

Lemma synchronize_irq_runs w core :
  engine_wf w → (core < length (cores w))%nat → runs w (synchronize_irq core).
Proof.
  intros Hwf Hcore. unfold synchronize_irq. apply runs_emit.
  by apply run_irq_thread_runs.
Qed.

Lemma reset_runs w core bad :
  engine_wf w → (core < length (cores w))%nat → bad_ok w bad →
  runs w (rocket_reset core bad).
Proof.
  intros Hwf Hcore Hbad. destruct (lookup_lt_is_Some_2 _ _ Hcore) as [c Hc].
  unfold rocket_reset. rstep.
  destruct (negb (reset_pending c)); [by apply runs_mret|].
  apply runs_bind.
  { unfold drm_sched_stop. apply runs_update_core_then; try done.
    intros c1 w1 Hwf1 _. by apply runs_emit_last. }
  intros [] w1 _ Hwf1 [Hlen1 Hjobs1].
  apply runs_bind.
  { destruct bad as [b|]; [|by apply runs_mret].
    destruct Hbad as [jb Hjb]. destruct (Hjobs1 _ _ Hjb) as (jb1 & Hjb1 & Hdb).
    unfold drm_sched_increase_karma. rstep.
    destruct (engine_wf_put_job w1 b jb1 (job_with_karma (karma jb1 + 1) jb1) Hwf1 Hjb1)
      as [Hwf2 Hext2]; [exact (proj1 Hwf1 _ _ Hjb1)|done|].
    eapply (runs_step _ _ _ tt _ (put_job_eq _ _ _) Hext2).
    apply runs_emit_last. exact Hwf2. }
  intros [] w2 _ Hwf2 [Hlen2 _].
  unfold rocket_pc_writel. apply runs_emit.
  apply runs_bind.
  { apply synchronize_irq_runs; [exact Hwf2|]. wsimpl. by rewrite Hlen2, Hlen1. }
  intros [] w3 _ Hwf3 [Hlen3 _]. revert Hlen3. wsimpl. intros Hlen3.
  apply runs_bind.
  { apply handle_irq_runs; [done|]. by rewrite Hlen3, Hlen2, Hlen1. }
  intros [] w4 _ Hwf4 [Hlen4 _].
  assert (core < length (cores w4))%nat as Hcore4 by (by rewrite Hlen4, Hlen3, Hlen2, Hlen1).
  destruct (lookup_lt_is_Some_2 _ _ Hcore4) as [c4 Hc4].
  rstep.
  apply runs_bind.
  { destruct (in_flight_job c4); [|by apply runs_mret].
    by apply runs_emit_last. }
  intros r5 w5 Hrun5 _ _.
  assert (cores w5 = cores w4 ∧ engine_wf w5 ∧ extends w4 w5) as (Hc5 & Hwf5 & [Hlen5 _]).
  { destruct (in_flight_job c4); revert Hrun5; repeat mstep; intros [= _ <-];
      (split; [done|]); (split; [exact Hwf4|apply (extends_refl w4)]). }
  destruct (engine_wf_put_core w5 core c4 (core_with_in_flight_job None c4) Hwf5)
    as [Hwf6 Hext6]; [by rewrite Hc5|by intros job|].
  eapply (runs_step _ _ _ tt _ (put_core_eq _ _ _) Hext6).
  apply runs_emit. apply runs_emit.
  wf_here Hwf6 Hwf7.
  apply runs_update_core_then; [done| |done|].
  { wsimpl. by rewrite length_insert, Hlen5. }
  intros c8 w8 Hwf8 [Hlen8 _]. revert Hlen8. wsimpl. rewrite length_insert. intros Hlen8.
  apply runs_bind.
  { unfold drm_sched_resubmit_jobs. apply runs_update_core_then; try done.
    - by rewrite Hlen8, Hlen5.
    - intros c9 w9 Hwf9 _. by apply runs_emit_last. }
  intros [] w9 _ Hwf9 [Hlen9 _].
  unfold drm_sched_start. apply runs_update_core_then; try done.
  - by rewrite Hlen9, Hlen8, Hlen5.
  - intros c10 w10 Hwf10 _. by apply runs_emit_last.
Qed.

Lemma is_signaled_eq w j f d :
  done_fence j = Some f → fences w !! f = Some d →
  (deref (done_fence j) ≫= dma_fence_is_signaled) w = Some (f_signaled d, w).
Proof.
  intros Hf Hd. rewrite Hf. unfold dma_fence_is_signaled. by do 3 mstep.
Qed.

Lemma timedout_runs w job :
  engine_wf w → op_enabled w (OpTimedout job) → runs w (rocket_job_timedout job).
Proof.
  intros Hwf (j & Hj & f & Hf).
  pose proof (proj1 Hwf _ _ Hj) as (_ & _ & _ & Hsched & _ & Hdone).
  destruct (Hdone _ Hf) as [d Hd].
  unfold rocket_job_timedout. rstep. rstep.
  eapply runs_step; [by eapply is_signaled_eq|apply extends_refl|].
  destruct (f_signaled d); [by apply runs_mret|].
  unfold sched_to_core. rewrite decide_True by done. rstep.
  apply runs_bind; [by apply synchronize_irq_runs|].
  intros [] w1 _ Hwf1 [Hlen1 Hjobs1].
  destruct (Hjobs1 _ _ Hj) as (j1 & Hj1 & Hd1).
  destruct Hd1 as [f1 Hf1]; [by eexists|].
  pose proof (proj1 Hwf1 _ _ Hj1) as (_ & _ & _ & _ & _ & Hdone1).
  destruct (Hdone1 _ Hf1) as [d1 Hfd1].
  rstep.
  eapply runs_step; [by eapply is_signaled_eq|apply extends_refl|].
  destruct (f_signaled d1); [by apply runs_mret|].
  apply runs_update_core_then; [done|by rewrite Hlen1|done|].
  intros c2 w2 Hwf2 [Hlen2 Hjobs2].
  apply runs_bind.
  { apply reset_runs; [done|by rewrite Hlen2, Hlen1|].
    destruct (Hjobs2 _ _ Hj1) as (j2 & Hj2 & _). by exists j2. }
  intros [] w3 _ Hwf3 _. apply runs_emit. apply runs_mret. exact Hwf3.
Qed.

Lemma run_op_runs w o : engine_wf w → op_enabled w o → runs w (run_op o).
Proof.
  intros Hwf Hen. destruct o; simpl in *.
  - apply runs_bind; [by apply job_run_runs|intros r w1 _ Hwf1 _; by apply runs_mret].
  - by apply raise_irq_runs.
  - by apply run_irq_thread_runs.
  - apply runs_bind; [|intros r w1 _ Hwf1 _; by apply runs_mret].
    unfold rocket_job_irq_handler_thread.
    apply runs_bind; [by apply handle_irq_runs|intros r w1 _ Hwf1 _; by apply runs_mret].
  - apply runs_bind; [by apply timedout_runs|intros r w1 _ Hwf1 _; by apply runs_mret].
  - by apply reset_runs.
Qed.

(** X12: the entry points of the job engine never fault.  From a
    well-formed state, any sequence of dispatches, interrupts, completion
    handlings, timeouts and resets on the cores of the device and on jobs
    the scheduler holds runs to its end, whichever allocation, runtime-PM
    or IOMMU call fails on the way: no unmapped job, fence or core is
    dereferenced, the task array is never indexed out of bounds and no
    NULL hardware fence is signaled or polled; and the state it ends in is
    well formed again. *)
Theorem engine_never_faults (l : list op) (w : world) :
  engine_wf w →
  Forall (op_enabled w) l →
  ∃ w', run_ops l w = Some (tt, w') ∧ engine_wf w' ∧ extends w w'.
Proof.
  revert w. induction l as [|o l IH]; intros w Hwf Hen; simpl.
  - exists w. split; [done|]. split; [done|apply extends_refl].
  - apply Forall_cons in Hen as [Ho Hl].
    destruct (run_op_runs w o Hwf Ho) as ([] & w1 & Hrun1 & Hwf1 & Hext1).
    destruct (IH w1 Hwf1) as (w' & Hrun & Hwf' & Hext').
    { eapply Forall_impl; [exact Hl|]. intros o' Ho'. by eapply op_enabled_extends. }
    exists w'. rewrite bind_eq, Hrun1. split; [done|]. split; [done|].
    by eapply extends_trans.
Qed.

Lemma engine_wf_ex_running : engine_wf (ex_running 1 true).
Proof.
  split.
  - intros job j. unfold ex_running. wsimpl.
    intros [<- <-]%lookup_singleton_Some. unfold wf_job. simpl.
    split_and!; try done; try lia.
    + exists 0%nat. split; [done|]. by eexists.
    + intros f [= <-]. by eexists.
  - intros core c. unfold ex_running. wsimpl.
    intros [-> <-]%list_lookup_singleton_Some job [= <-].
    eexists. split; [apply lookup_singleton_eq|]. by eexists.
Qed.

Lemma engine_never_faults_witness :
  ∃ w', run_ops [OpHandleIrq 0%nat; OpTimedout 10%nat; OpRunJob 10%nat;
                 OpHandleIrq 0%nat; OpResetWork 0%nat] (ex_running 1 true)
          = Some (tt, w') ∧
        engine_wf w'.
Proof.
  destruct (engine_never_faults
              [OpHandleIrq 0%nat; OpTimedout 10%nat; OpRunJob 10%nat;
               OpHandleIrq 0%nat; OpResetWork 0%nat] (ex_running 1 true))
    as (w' & Hrun & Hwf & _).
  - exact engine_wf_ex_running.
  - repeat constructor; simpl; try lia.
    + eexists. split; [apply lookup_singleton_eq|]. by eexists.
    + by eexists.
  - by exists w'.
Defined.

(** * Buffer objects *)

Lemma land_pow2 op r :
  0 ≤ r → Z.land op (2 ^ r) = if Z.testbit op r then 2 ^ r else 0.
Proof.
  intros Hr. apply Z.bits_inj'. intros n Hn. rewrite Z.land_spec.
  destruct (decide (r = n)) as [<-|Hne].
  - rewrite Z.pow2_bits_true by done. rewrite andb_true_r.
    destruct (Z.testbit op r); [by rewrite Z.pow2_bits_true|by rewrite Z.bits_0].
  - rewrite Z.pow2_bits_false by done. rewrite andb_false_r.
    destruct (Z.testbit op r); [by rewrite Z.pow2_bits_false|by rewrite Z.bits_0].
Qed.

Lemma pow2_distinct r w : 0 ≤ r → 0 ≤ w → r ≠ w → 2 ^ r ≠ 2 ^ w.
Proof.
  intros Hr Hw Hne Heq. apply (f_equal (λ x, Z.testbit x r)) in Heq.
  by rewrite Z.pow2_bits_true, Z.pow2_bits_false in Heq.
Qed.

Lemma lor_pow2_not_left r w : 0 ≤ r → 0 ≤ w → r ≠ w → Z.lor (2 ^ r) (2 ^ w) ≠ 2 ^ r.
Proof.
  intros Hr Hw Hne Heq. apply (f_equal (λ x, Z.testbit x w)) in Heq.
  rewrite Z.lor_spec, Z.pow2_bits_true, (Z.pow2_bits_false r w) in Heq by done.
  by rewrite orb_true_r in Heq.
Qed.

Lemma pow2_nonzero r : 0 ≤ r → 2 ^ r ≠ 0.
Proof. intros Hr. apply Z.pow_nonzero; lia. Qed.

(** X13: the DMA direction of a CPU access depends on the read and the
    write flag of the operation only.  With the two flags being distinct
    single bits, a read-only access is synchronised from the device, a
    write-only access to the device, and an access with both flags or with
    neither in both directions, whatever other bits the operation word
    has. *)
Theorem op_to_dma_dir_bits (r w op : Z) :
  0 ≤ r → 0 ≤ w → r ≠ w →
  rocket_op_to_dma_dir (2 ^ r) (2 ^ w) op =
    match Z.testbit op r, Z.testbit op w with
    | true, false => DMA_FROM_DEVICE
    | false, true => DMA_TO_DEVICE
    | _, _ => DMA_BIDIRECTIONAL
    end.
Proof.
  intros Hr Hw Hne. unfold rocket_op_to_dma_dir.
  rewrite Z.land_lor_distr_r, !land_pow2 by done.
  pose proof (pow2_distinct r w Hr Hw Hne).
  pose proof (lor_pow2_not_left r w Hr Hw Hne).
  pose proof (lor_pow2_not_left w r Hw Hr (not_eq_sym Hne)) as Hright.
  rewrite Z.lor_comm in Hright.
  pose proof (pow2_nonzero r Hr). pose proof (pow2_nonzero w Hw).
  destruct (Z.testbit op r), (Z.testbit op w);
    rewrite ?Z.lor_0_r, ?Z.lor_0_l;
    repeat (case_bool_decide; try done); congruence.
Qed.

Lemma op_to_dma_dir_bits_witness :
  rocket_op_to_dma_dir 1 2 1 = DMA_FROM_DEVICE ∧
  rocket_op_to_dma_dir 1 2 2 = DMA_TO_DEVICE ∧
  rocket_op_to_dma_dir 1 2 3 = DMA_BIDIRECTIONAL ∧
  rocket_op_to_dma_dir 1 2 13 = DMA_FROM_DEVICE.
Proof.
  assert (0 ≤ 0 ∧ 0 ≤ 1 ∧ 0 ≠ 1) as (H0 & H1 & Hne) by lia.
  split_and!.
  - exact (op_to_dma_dir_bits 0 1 1 H0 H1 Hne).
  - exact (op_to_dma_dir_bits 0 1 2 H0 H1 Hne).
  - exact (op_to_dma_dir_bits 0 1 3 H0 H1 Hne).
  - exact (op_to_dma_dir_bits 0 1 13 H0 H1 Hne).
Defined.




(** X15: [rocket_ioctl_prep_bo] and [rocket_ioctl_fini_bo] bracket a CPU
    access.  For a known buffer and a valid operation, a prepare followed
    by a finish waits for the buffer once, synchronises it for the CPU and
    then for the device on the same cores and in the same direction, the
    one the operation asks for; the cores are those from 1 on, so that core
    0 is never synchronised and a single-core device not at all; the
    finish warns exactly when the operation had neither flag; it returns 0
    and leaves no operation recorded in the buffer; no other buffer is
    touched. *)
Theorem prep_fini_bracket (R W handle op timeout wait_ret : Z) (s : gem_state)
    (bo : rocket_gem_object) :
  u32 (Z.land op (Z.lnot (Z.lor R W))) = 0 →
  gem_objects s !! handle = Some bo →
  ∃ ret s1 s2,
    rocket_ioctl_prep_bo R W handle op timeout wait_ret s = (ret, s1) ∧
    rocket_ioctl_fini_bo R W handle 0 s1 = (0, s2) ∧
    gem_objects s2 = <[handle := bo_with_last_cpu_prep_op 0 bo]> (gem_objects s) ∧
    gem_trace s2 =
      gem_trace s ++
      EvResvWait handle (bool_decide (Z.land op W ≠ 0)) timeout ::
      map (λ core, EvSyncForCpu core handle (rocket_op_to_dma_dir R W op))
          (seq 1 (num_cores s - 1)) ++
      (if bool_decide (op = 0) then [EvWarnOn] else []) ++
      map (λ core, EvSyncForDevice core handle (rocket_op_to_dma_dir R W op))
          (seq 1 (num_cores s - 1)).
Proof.
  intros Hok Hbo. unfold rocket_ioctl_prep_bo, rocket_ioctl_fini_bo.
  rewrite bool_decide_false by (by rewrite Hok; intros H; apply H).
  rewrite Hbo. eexists _, _, _. split; [done|]. simpl.
  rewrite lookup_insert_eq. split; [done|]. simpl.
  split; [by rewrite insert_insert_eq|].
  unfold sync_cores. by rewrite <- app_assoc.
Qed.

Lemma prep_fini_bracket_witness :
  ∃ s2, rocket_ioctl_fini_bo 1 2 7 0 (snd (rocket_ioctl_prep_bo 1 2 7 2 100 25 ex_gem))
          = (0, s2) ∧
        gem_trace s2 = [EvResvWait 7 true 100; EvSyncForCpu 1 7 DMA_TO_DEVICE;
                        EvSyncForDevice 1 7 DMA_TO_DEVICE].
Proof.
  destruct (prep_fini_bracket 1 2 7 2 100 25 ex_gem _ eq_refl eq_refl)
    as (ret & s1 & s2 & Hprep & Hfini & _ & Htr).
  exists s2. rewrite Hprep. split; [exact Hfini|]. rewrite Htr. reflexivity.
Defined.

(** * The submit entry point *)

Lemma submit_jobs_loop_result file jobs w r w' :
  submit_jobs_loop file jobs 0 w = Some (r, w') →
  (r = 0 ∧ Forall (λ j, drm_rocket_job.reserved j = 0) jobs) ∨
  (r = - EINVAL ∧ Exists (λ j, drm_rocket_job.reserved j ≠ 0) jobs).
Proof.
  revert w. induction jobs as [|job jobs IH]; intros w; simpl.
  - rewrite mret_eq. intros [= <- <-]. by left.
  - case_bool_decide as Hres.
    + rewrite mret_eq. intros [= <- <-]. right. split; [done|]. by left.
    + msplit Hjob x w1. intros Hrest.
      destruct (IH _ Hrest) as [[-> Hall]|[-> Hex]].
      * left. split; [done|]. constructor; [|done].
        destruct (decide (drm_rocket_job.reserved job = 0)); [done|by destruct Hres].
      * right. split; [done|]. by right.
Qed.

(** X16: what [rocket_ioctl_submit] can return.  Whenever the ioctl
    returns, it returns 0, -EINVAL, -ENOMEM or -EFAULT, and what became of
    the jobs has no part in it: with a zero reserved field and a job array
    that can be copied in, the ioctl returns 0 (or -ENOMEM, when it could
    not get the memory for the copy) if every job has a zero reserved
    field, and -EINVAL if one has not; it returns -EFAULT only when the
    array cannot be copied in. *)
Theorem submit_result_ignores_jobs file args w r w' :
  rocket_ioctl_submit file args w = Some (r, w') →
  (r = 0 ∨ r = - EINVAL ∨ r = - ENOMEM ∨ r = - EFAULT) ∧
  (drm_rocket_submit.reserved args ≠ 0 → r = - EINVAL ∧ w' = w) ∧
  (r = - EFAULT →
     copy_from_user (um_jobs (user file)) (drm_rocket_submit.jobs args)
                    (drm_rocket_submit.job_count args) = None) ∧
  (drm_rocket_submit.reserved args = 0 →
   ∀ jobs,
     copy_from_user (um_jobs (user file)) (drm_rocket_submit.jobs args)
                    (drm_rocket_submit.job_count args) = Some jobs →
     (Forall (λ j, drm_rocket_job.reserved j = 0) jobs → r = 0 ∨ r = - ENOMEM) ∧
     (Exists (λ j, drm_rocket_job.reserved j ≠ 0) jobs → r = - EINVAL ∨ r = - ENOMEM)).
Proof.
  unfold rocket_ioctl_submit. case_bool_decide as Hres.
  { rewrite mret_eq. intros [= <- <-]. split_and!; try done; auto. }
  msplit Halloc allocated w1. destruct allocated; simpl.
  - destruct (copy_from_user _ _ _) as [jobs|] eqn:Hcopy.
    + intros Hloop. apply submit_jobs_loop_result in Hloop.
      assert (Hcases := Hloop).
      destruct Hloop as [[-> Hall]|[-> Hex]].
      * split_and!; try done; auto.
        intros _ jobs' [= <-]. split; [auto|].
        intros Hex. exfalso. apply Exists_exists in Hex as (j & Hj & Hne).
        rewrite Forall_forall in Hall. by apply Hne, Hall.
      * split_and!; try done; auto.
        intros _ jobs' [= <-]. split; [|auto].
        intros Hall. exfalso. apply Exists_exists in Hex as (j & Hj & Hne).
        rewrite Forall_forall in Hall. by apply Hne, Hall.
    + rewrite mret_eq. intros [= <- <-]. split_and!; try done; auto.
  - rewrite mret_eq. intros [= <- <-]. split_and!; try done; auto.
Qed.

Lemma submit_result_ignores_jobs_witness :
  rocket_ioctl_submit ex_file (drm_rocket_submit.mk 12288 1 0) ex_world ≠ None ∧
  ∃ r w', rocket_ioctl_submit ex_file (drm_rocket_submit.mk 12288 1 0) ex_world
            = Some (r, w') ∧
          (r = 0 ∨ r = - ENOMEM).
Proof.
  destruct (rocket_ioctl_submit ex_file (drm_rocket_submit.mk 12288 1 0) ex_world)
    as [[r w']|] eqn:Hrun; [|by vm_compute in Hrun].
  split; [done|]. exists r, w'. split; [done|].
  destruct (submit_result_ignores_jobs _ _ _ _ _ Hrun) as (_ & _ & _ & Hjobs).
  apply (Hjobs eq_refl [drm_rocket_job.mk 4096 0 0 1 0 0 0]).
  - vm_compute. reflexivity.
  - by repeat constructor.
Defined.

(** * Bringing a core up and down *)

(** X17: [rocket_job_init] either sets a core up or leaves nothing
    behind.  It returns 0 exactly when the interrupt number is not
    negative, the interrupt was granted, the workqueue obtained and the
    scheduler initialised; otherwise it returns the error of the first of
    these to fail (-ENOMEM for the workqueue).  When it fails no workqueue
    is left, and [drm_sched_fini] has been called if and only if
    [drm_sched_init] was; when it succeeds one workqueue and one scheduler
    are left, and [rocket_job_fini] releases both, the scheduler and the
    pending reset work before the workqueue. *)
Theorem job_init_all_or_nothing (irq request_ret : Z) (wq_obtained : bool) (sched_ret : Z) :
  let '(ret, t) := rocket_job_init irq request_ret wq_obtained sched_ret in
  (ret = 0 ↔ 0 ≤ irq ∧ request_ret = 0 ∧ wq_obtained = true ∧ sched_ret = 0) ∧
  (ret ≠ 0 →
     ret = (if bool_decide (irq < 0) then irq
            else if bool_decide (request_ret ≠ 0) then request_ret
            else if wq_obtained then sched_ret else - ENOMEM) ∧
     live_workqueues 0 t = Some 0%nat ∧ open_schedulers 0 t = Some 0%nat) ∧
  (ret = 0 →
     live_workqueues 0 t = Some 1%nat ∧ open_schedulers 0 t = Some 1%nat ∧
     live_workqueues 0 (t ++ rocket_job_fini) = Some 0%nat ∧
     open_schedulers 0 (t ++ rocket_job_fini) = Some 0%nat).
Proof.
  unfold rocket_job_init.
  case_bool_decide as Hirq.
  { split_and!; [split; [lia|lia]|done|lia]. }
  case_bool_decide as Hreq.
  { split_and!; [split; [done|by intros (_ & ? & _)]|done|done]. }
  destruct wq_obtained; simpl.
  - case_bool_decide as Hsched.
    + split_and!; [split; [done|by intros (_ & _ & _ & ?)]|done|done].
    + assert (sched_ret = 0) as -> by (destruct (decide (sched_ret = 0)); [done|by destruct Hsched]).
      assert (request_ret = 0) as -> by (destruct (decide (request_ret = 0)); [done|by destruct Hreq]).
      split_and!; [split; [intros _; split_and!; [lia|done..]|done]|done|done].
  - split_and!; [split; [done|by intros (_ & _ & ? & _)]|done|done].
Qed.

Lemma job_init_all_or_nothing_witness :
  fst (rocket_job_init 5 0 true (-22)) = -22 ∧
  live_workqueues 0 (snd (rocket_job_init 5 0 true (-22))) = Some 0%nat ∧
  live_workqueues 0 (snd (rocket_job_init 5 0 true 0) ++ rocket_job_fini) = Some 0%nat.
Proof.
  pose proof (job_init_all_or_nothing 5 0 true (-22)) as Hfail.
  pose proof (job_init_all_or_nothing 5 0 true 0) as Hok.
  destruct (rocket_job_init 5 0 true (-22)) as [ret t] eqn:Hrun.
  destruct (rocket_job_init 5 0 true 0) as [ret' t'] eqn:Hrun'.
  vm_compute in Hrun, Hrun'. simplify_eq.
  destruct Hfail as (_ & Hfail & _). destruct Hok as (_ & _ & Hok).
  destruct (Hfail ltac:(done)) as (_ & Hwq & _).
  destruct (Hok eq_refl) as (_ & _ & Hwq' & _).
  split; [done|]. split; [exact Hwq|exact Hwq'].
Defined.
